(** * Email-Automation: ingestion, dedup and categorization pipeline

    A shallow embedding of the Python backend
    ([backend/services/email_service.py],
    [backend/services/categorization_service.py],
    [backend/models/db_models.py], [backend/routes/email_routes.py],
    [backend/utils/background_tasks.py]) and the properties of its
    specification that were checked against it.

    Text.  A Python [str] is modelled by [string], each [ascii] standing for
    one code point in the range U+0000..U+00FF; the character classes
    ([str.isalnum], [str.isspace], [str.lower]) are Python's on that range,
    and the categorizers are modelled on such text only.  Decoded message
    bodies and headers, which can hold any code point, are modelled in
    [Module Codec] by lists of code points.  The pipeline ([Module Pipeline])
    also takes the messages whose subject or sender is a [str] with a lone
    surrogate or an [email.header.Header] object: the loop drops them. *)

From Stdlib Require Import List String Ascii ZArith NArith Bool Lia.
From Stdlib Require Import PrimFloat Uint63 SpecFloat FloatOps DecimalPos DecimalN.

Set Warnings "-inexact-float".
Import ListNotations.
Open Scope string_scope.

(** ** Python string operations on code points below 256 *)

Module PyStr.

Definition code (c : ascii) : N := N_of_ascii c.

Definition in_range (lo hi : N) (c : ascii) : bool :=
  ((lo <=? code c) && (code c <=? hi))%N.

(** [str.isalnum] for one character. *)
Definition isalnum (c : ascii) : bool :=
  in_range 48 57 c || in_range 65 90 c || in_range 97 122 c
  || (code c =? 170)%N || in_range 178 179 c || (code c =? 181)%N
  || in_range 185 186 c || in_range 188 190 c
  || in_range 192 214 c || in_range 216 246 c || in_range 248 255 c.

(** [str.isspace] for one character. *)
Definition isspace (c : ascii) : bool :=
  in_range 9 13 c || in_range 28 32 c || (code c =? 133)%N || (code c =? 160)%N.

(** Characters that [str.lower] changes: A-Z and the upper-case letters of
    the Latin-1 supplement (U+00C0..U+00DE without the multiplication sign). *)
Definition is_upper (c : ascii) : bool :=
  in_range 65 90 c || (in_range 192 222 c && negb (code c =? 215)%N).

Definition lower_char (c : ascii) : ascii :=
  if is_upper c then ascii_of_N (code c + 32) else c.

Fixpoint lower (s : string) : string :=
  match s with
  | EmptyString => EmptyString
  | String c r => String (lower_char c) (lower r)
  end.

(** The characters of the class [a-z0-9_]. *)
Definition is_slug_char (c : ascii) : bool :=
  in_range 97 122 c || in_range 48 57 c || (code c =? 95)%N.

Fixpoint forallb_str (p : ascii -> bool) (s : string) : bool :=
  match s with
  | EmptyString => true
  | String c r => p c && forallb_str p r
  end.

Fixpoint filter_str (p : ascii -> bool) (s : string) : string :=
  match s with
  | EmptyString => EmptyString
  | String c r => if p c then String c (filter_str p r) else filter_str p r
  end.

Definition is_empty (s : string) : bool :=
  match s with EmptyString => true | _ => false end.

(** [c in s] for a one-character [c]. *)
Fixpoint has_char (c : ascii) (s : string) : bool :=
  match s with
  | EmptyString => false
  | String a r => Ascii.eqb a c || has_char c r
  end.

(** [needle in hay]. *)
Fixpoint contains (needle hay : string) : bool :=
  match hay with
  | EmptyString => String.prefix needle hay
  | String _ r => String.prefix needle hay || contains needle r
  end.

(** [s.split(c)[0]]: the text before the first [c]. *)
Fixpoint split_first (c : ascii) (s : string) : string :=
  match s with
  | EmptyString => EmptyString
  | String a r => if Ascii.eqb a c then EmptyString else String a (split_first c r)
  end.

(** [s.split(c)[-1]]: the text after the last [c]. *)
Fixpoint split_last (c : ascii) (s : string) : string :=
  match s with
  | EmptyString => EmptyString
  | String a r =>
      if has_char c r then split_last c r
      else if Ascii.eqb a c then r else s
  end.

Fixpoint lstrip (s : string) : string :=
  match s with
  | EmptyString => EmptyString
  | String c r => if isspace c then lstrip r else s
  end.

Fixpoint rstrip (s : string) : string :=
  match s with
  | EmptyString => EmptyString
  | String c r =>
      let r' := rstrip r in
      if isspace c && is_empty r' then EmptyString else String c r'
  end.

(** [s.strip()]. *)
Definition strip (s : string) : string := rstrip (lstrip s).

(** [s.replace(c, '')]. *)
Definition remove_char (c : ascii) (s : string) : string :=
  filter_str (fun a => negb (Ascii.eqb a c)) s.

(** [s.replace(c, d)] for one-character [c] and [d]. *)
Fixpoint replace_char (c d : ascii) (s : string) : string :=
  match s with
  | EmptyString => EmptyString
  | String a r => String (if Ascii.eqb a c then d else a) (replace_char c d r)
  end.

(** The double-quote character. *)
Definition dquote : ascii := ascii_of_nat 34.

End PyStr.

(** ** The message record ([backend/models/email_models.py])

    Of the fields of the dataclass, the ones the pipeline and the
    categorizers read or write are kept.  [id] is the one field the code
    reads both as [str] and as [bytes] ([generate_email_hash], [save_email]);
    it is kept as a list of code points, or as raw bytes.  The other text
    fields are [str].  [date] is the timestamp as [str(email.date)] renders
    it.  [metadata] is not kept: the messages of the model are those whose
    metadata [json.dumps] accepts (no raw 8-bit [Mailed-By] or [Signed-By]
    header). *)

Inductive py_id : Type :=
| IdStr (s : list N)
| IdBytes (b : list Byte.byte).

Record Email : Type := mkEmail {
  id : py_id;
  account_email : string;
  subject : string;
  sender : string;
  date : option string;
  body : string;
  category : string;
  main_category : string;
  sub_category : string;
  is_read : bool;
  email_hash : option string;
  message_id : option string
}.

(** ** The hierarchical categorizer ([EmailService._enhanced_categorize_email]) *)

Module Hier.
Import PyStr.

(** [any(keyword in text for keyword in keywords)] *)
Definition any_in (keywords : list string) (text : string) : bool :=
  existsb (fun k => contains k text) keywords.

Definition _extract_domain (sender : string) : string :=
  if has_char "@" sender
  then strip (split_first ">" (split_last "@" sender))
  else sender.

Definition folder_friendly (name_part : string) : string :=
  filter_str (fun c => isalnum c || Ascii.eqb c "_")
    (replace_char " " "_" (replace_char "." "_" (replace_char "-" "_" name_part))).

Definition _extract_sender_name (sender : string) : string :=
  let name_part :=
    if has_char "<" sender && has_char ">" sender
    then strip (split_first "<" sender)
    else if has_char "@" sender then split_first "@" sender else sender in
  let name_part := strip (remove_char "'" (remove_char dquote name_part)) in
  let name_part :=
    if is_empty name_part || has_char "@" name_part
    then let domain := _extract_domain sender in
         if has_char "." domain then split_first "." domain else domain
    else name_part in
  let folder_name := folder_friendly name_part in
  let folder_name := if is_empty folder_name then "unknown_sender" else folder_name in
  lower folder_name.

Definition known_banks : list (string * string) :=
  [ ("sbi", "state_bank_of_india"); ("hdfc", "hdfc_bank"); ("icici", "icici_bank");
    ("axis", "axis_bank"); ("kotak", "kotak_bank"); ("yes", "yes_bank");
    ("pnb", "punjab_national_bank"); ("union", "union_bank");
    ("canara", "canara_bank"); ("bankofbaroda", "bank_of_baroda");
    ("idbi", "idbi_bank") ].

Definition _detect_bank_name_dynamic (subject sender domain sender_name : string) : string :=
  match find (fun kv => contains (fst kv) subject || contains (fst kv) sender
                        || contains (fst kv) domain) known_banks with
  | Some kv => snd kv
  | None => sender_name
  end.

Definition _detect_company_name_dynamic (subject sender domain sender_name : string) : string :=
  if has_char "." domain then
    let company_part := split_first "." domain in
    let company_name :=
      filter_str (fun c => isalnum c || Ascii.eqb c "_")
        (replace_char "." "_" (replace_char "-" "_" company_part)) in
    if negb (is_empty company_name) && negb (String.eqb company_name "www")
    then lower company_name
    else sender_name
  else sender_name.

Definition bank_keywords : list string :=
  ["bank"; "sbi"; "hdfc"; "icici"; "axis"; "kotak"; "yes"; "pnb"; "union"].
Definition bank_domains : list string :=
  ["sbi.co.in"; "hdfcbank.com"; "icicibank.com"; "axisbank.com"; "kotak.com";
   "yesbank.in"; "pnb.co.in"].

Definition _is_bank_email (subject sender domain : string) : bool :=
  existsb (fun k => contains k subject || contains k sender) bank_keywords
  || existsb (fun d => contains d domain) bank_domains.

Definition _is_company_email (subject sender domain : string) : bool :=
  any_in ["invoice"; "receipt"; "statement"; "account"; "business"; "corporate"] subject.

Definition _is_support_email (subject sender : string) : bool :=
  any_in ["support"; "help"; "issue"; "problem"; "ticket"; "assistance"] subject.

Definition _detect_support_type (subject body : string) : string :=
  if any_in ["technical"; "tech"; "software"; "app"] subject then "technical"
  else if any_in ["billing"; "payment"; "invoice"] subject then "billing"
  else if any_in ["general"; "inquiry"; "question"] subject then "general"
  else "general".

Definition _is_newsletter_email (subject sender : string) : bool :=
  any_in ["newsletter"; "news"; "update"; "digest"; "weekly"; "monthly"] subject.

Definition _detect_newsletter_type (subject body : string) : string :=
  if any_in ["tech"; "technology"; "software"] subject then "tech_news"
  else if any_in ["business"; "finance"; "market"] subject then "business_news"
  else if any_in ["health"; "medical"; "fitness"] subject then "health_news"
  else "general_news".

Definition _is_billing_email (subject sender : string) : bool :=
  any_in ["invoice"; "payment"; "bill"; "receipt"; "statement"; "due"] subject.

Definition _detect_billing_type (subject body : string) : string :=
  if contains "invoice" subject then "invoice"
  else if contains "payment" subject then "payment"
  else if contains "receipt" subject then "receipt"
  else "billing".

Definition _is_order_email (subject sender : string) : bool :=
  any_in ["order"; "purchase"; "buy"; "shipping"; "delivery"; "tracking"] subject.

Definition _detect_order_type (subject body : string) : string :=
  if contains "shipping" subject || contains "delivery" subject then "shipping"
  else if contains "tracking" subject then "tracking"
  else if contains "order" subject then "order_confirmation"
  else "order".

Definition social_domains : list string :=
  ["facebook.com"; "twitter.com"; "linkedin.com"; "instagram.com"; "youtube.com"].
Definition social_keywords : list string :=
  ["facebook"; "twitter"; "linkedin"; "instagram"; "youtube"].

Definition _is_social_email (subject sender domain : string) : bool :=
  existsb (fun d => contains d domain) social_domains
  || existsb (fun k => contains k subject || contains k sender) social_keywords.

Definition _detect_social_platform (subject sender domain : string) : string :=
  let hit k d := contains k subject || contains k sender || contains d domain in
  if hit "facebook" "facebook.com" then "facebook"
  else if hit "twitter" "twitter.com" then "twitter"
  else if hit "linkedin" "linkedin.com" then "linkedin"
  else if hit "instagram" "instagram.com" then "instagram"
  else if hit "youtube" "youtube.com" then "youtube"
  else "other_social".

Definition _is_security_email (subject sender : string) : bool :=
  any_in ["security"; "password"; "login"; "verification"; "otp"; "2fa"] subject.

Definition _detect_security_type (subject body : string) : string :=
  if contains "otp" subject || contains "verification" subject then "otp"
  else if contains "password" subject then "password"
  else if contains "login" subject then "login"
  else "security".

Definition _is_meeting_email (subject sender : string) : bool :=
  any_in ["meeting"; "appointment"; "schedule"; "calendar"; "call"] subject.

Definition _detect_meeting_type (subject body : string) : string :=
  if contains "appointment" subject then "appointment"
  else if contains "call" subject then "call"
  else "meeting".

Definition _is_career_email (subject sender : string) : bool :=
  any_in ["job"; "career"; "application"; "resume"; "interview"; "position"] subject.

Definition _detect_career_type (subject body : string) : string :=
  if contains "interview" subject then "interview"
  else if contains "application" subject then "application"
  else "job".

Definition _is_notification_email (subject sender : string) : bool :=
  any_in ["notification"; "alert"; "reminder"; "update"] subject.

Definition _detect_notification_type (subject body : string) : string :=
  if contains "failed" subject || contains "error" subject then "failure"
  else if contains "success" subject || contains "completed" subject then "success"
  else "general".

(** The ordered chain of predicates; the first that holds decides. *)
Definition _enhanced_categorize_email (email : Email) : string * string :=
  let subject_lower := lower (subject email) in
  let sender_lower := lower (sender email) in
  let body_lower := lower (body email) in
  let domain := _extract_domain sender_lower in
  let sender_name := _extract_sender_name (sender email) in
  if _is_bank_email subject_lower sender_lower domain then
    ("bank", _detect_bank_name_dynamic subject_lower sender_lower domain sender_name)
  else if _is_company_email subject_lower sender_lower domain then
    ("company", _detect_company_name_dynamic subject_lower sender_lower domain sender_name)
  else if _is_support_email subject_lower sender_lower then
    ("support", _detect_support_type subject_lower body_lower)
  else if _is_newsletter_email subject_lower sender_lower then
    ("newsletter", _detect_newsletter_type subject_lower body_lower)
  else if _is_billing_email subject_lower sender_lower then
    ("billing", _detect_billing_type subject_lower body_lower)
  else if _is_order_email subject_lower sender_lower then
    ("order", _detect_order_type subject_lower body_lower)
  else if _is_social_email subject_lower sender_lower domain then
    ("social", _detect_social_platform subject_lower sender_lower domain)
  else if _is_security_email subject_lower sender_lower then
    ("security", _detect_security_type subject_lower body_lower)
  else if _is_meeting_email subject_lower sender_lower then
    ("meeting", _detect_meeting_type subject_lower body_lower)
  else if _is_career_email subject_lower sender_lower then
    ("career", _detect_career_type subject_lower body_lower)
  else if _is_notification_email subject_lower sender_lower then
    ("notification", _detect_notification_type subject_lower body_lower)
  else ("general", sender_name).

(** "Matches no hierarchical predicate": every predicate of the chain is
    false on the lower-cased subject, sender and domain. *)
Definition no_predicate_matches (email : Email) : bool :=
  let subject_lower := lower (subject email) in
  let sender_lower := lower (sender email) in
  let domain := _extract_domain sender_lower in
  negb (_is_bank_email subject_lower sender_lower domain
        || _is_company_email subject_lower sender_lower domain
        || _is_support_email subject_lower sender_lower
        || _is_newsletter_email subject_lower sender_lower
        || _is_billing_email subject_lower sender_lower
        || _is_order_email subject_lower sender_lower
        || _is_social_email subject_lower sender_lower domain
        || _is_security_email subject_lower sender_lower
        || _is_meeting_email subject_lower sender_lower
        || _is_career_email subject_lower sender_lower
        || _is_notification_email subject_lower sender_lower).

Definition plain_email (subj sndr bdy : string) : Email :=
  mkEmail (IdStr [49%N]) "me@example.com" subj sndr None bdy
          "general" "general" "general" false None None.

End Hier.

(** ** The flat weighted categorizer ([backend/services/categorization_service.py])

    Scores are Python floats, modelled by the binary64 primitive floats. *)

Module Flat.
Import PyStr.

(** Values stored in a rule dictionary. *)
Inductive pyval : Type :=
| VStr (s : string)
| VStrList (l : list string)
| VInt (z : Z)
| VFloat (f : PrimFloat.float).

(** A Python dict with string keys, in insertion order. *)
Definition dict (V : Type) : Type := list (string * V).

Fixpoint dict_get {V : Type} (d : dict V) (k : string) : option V :=
  match d with
  | [] => None
  | (k', v) :: d' => if String.eqb k' k then Some v else dict_get d' k
  end.

Definition rules_t : Type := dict pyval.

(** [self.category_rules] as [__init__] sets it. *)
Definition category_rules : dict rules_t :=
  [ ("billing",
      [ ("keywords", VStrList ["invoice"; "payment"; "bill"; "billing"; "receipt";
                               "charge"; "subscription"]);
        ("sender_patterns", VStrList ["billing@"; "invoice@"; "payments@";
                                      "noreply@paypal"; "stripe"]);
        ("priority", VInt 1); ("weight", VFloat 1.5%float) ]);
    ("support",
      [ ("keywords", VStrList ["support"; "help"; "assistance"; "ticket"; "issue";
                               "problem"; "question"]);
        ("sender_patterns", VStrList ["support@"; "help@"; "customer@"; "service@"]);
        ("priority", VInt 2); ("weight", VFloat 1.2%float) ]);
    ("marketing",
      [ ("keywords", VStrList ["newsletter"; "promotion"; "offer"; "sale"; "discount";
                               "marketing"; "unsubscribe"]);
        ("sender_patterns", VStrList ["marketing@"; "newsletter@"; "promo@"; "offers@"]);
        ("priority", VInt 3); ("weight", VFloat 1.0%float) ]);
    ("notification",
      [ ("keywords", VStrList ["notification"; "alert"; "reminder"; "update"; "status";
                               "confirm"]);
        ("sender_patterns", VStrList ["no-reply@"; "noreply@"; "notification@"; "alerts@"]);
        ("priority", VInt 4); ("weight", VFloat 1.3%float) ]);
    ("security",
      [ ("keywords", VStrList ["security"; "password"; "login"; "verification";
                               "authentication"; "suspicious"]);
        ("sender_patterns", VStrList ["security@"; "auth@"; "verification@"]);
        ("priority", VInt 0); ("weight", VFloat 2.0%float) ]) ].

Definition default_category : string := "general".

(** A compiled pattern: [re.compile(r'\b' + re.escape(k) + r'\b', re.IGNORECASE)]
    for a keyword, [re.compile(p, re.IGNORECASE)] for a sender pattern (the
    sender patterns of the rule set hold no regex operator, so they match as
    plain text). *)
Inductive pattern : Type :=
| WordPat (k : string)
| TextPat (p : string).

Definition is_word (c : option ascii) : bool :=
  match c with
  | Some a => isalnum a || Ascii.eqb a "_"
  | None => false
  end.

(** [\b] between the characters [prev] and [next]. *)
Definition boundary (prev next : option ascii) : bool := xorb (is_word prev) (is_word next).

Definition head (s : string) : option ascii :=
  match s with EmptyString => None | String c _ => Some c end.

(** Match [p] at the start of [s] ignoring case: the last character read
    and the rest of [s]. *)
Fixpoint match_ci (p s : string) (prev : option ascii) : option (option ascii * string) :=
  match p with
  | EmptyString => Some (prev, s)
  | String a p' =>
      match s with
      | EmptyString => None
      | String b s' =>
          if Ascii.eqb (lower_char a) (lower_char b) then match_ci p' s' (Some b) else None
      end
  end.

Definition match_at (pat : pattern) (s : string) (prev : option ascii) : bool :=
  match pat with
  | WordPat k =>
      boundary prev (head s) &&
      match match_ci k s prev with
      | Some (last, rest) => boundary last (head rest)
      | None => false
      end
  | TextPat p =>
      match match_ci p s prev with Some _ => true | None => false end
  end.

Fixpoint search_from (pat : pattern) (s : string) (prev : option ascii) : bool :=
  match_at pat s prev ||
  match s with
  | EmptyString => false
  | String c r => search_from pat r (Some c)
  end.

(** [pattern.search(text)] *)
Definition search (pat : pattern) (text : string) : bool := search_from pat text None.

Definition get_list (r : rules_t) (k : string) : list string :=
  match dict_get r k with Some (VStrList l) => l | _ => [] end.

(** [_compile_patterns]: one entry per category name. *)
Definition _compile_patterns (rules : dict rules_t) : dict (dict (list pattern)) :=
  map (fun cr => (fst cr,
                  [ ("keywords", map WordPat (get_list (snd cr) "keywords"));
                    ("sender_patterns", map TextPat (get_list (snd cr) "sender_patterns")) ]))
      rules.

Definition compiled_patterns : dict (dict (list pattern)) := _compile_patterns category_rules.

(** [float(z)]: the nearest binary64 float, ties to even; [None] stands
    for the [OverflowError] of an int too large for a float. *)
Definition float_of_Z (z : Z) : option PrimFloat.float :=
  let f := FloatOps.SF2Prim (SpecFloat.binary_normalize FloatOps.prec FloatOps.emax z 0 false) in
  if PrimFloat.is_infinity f then None else Some f.

Definition count_matches (pats : list pattern) (text : string) : Z :=
  Z.of_nat (List.length (filter (fun p => search p text) pats)).

(** [x * v] for a float [x] and a value [v] of a rule dictionary: an int is
    converted, a [str] or a list is a [TypeError]. *)
Definition mul_value (x : PrimFloat.float) (v : pyval) : option PrimFloat.float :=
  match v with
  | VFloat w => Some (PrimFloat.mul x w)
  | VInt z => option_map (PrimFloat.mul x) (float_of_Z z)
  | VStr _ | VStrList _ => None
  end.

(** [matches * factor * rules.get('weight', 1.0)] *)
Definition weighted (matches : Z) (factor : PrimFloat.float) (rules : rules_t)
  : option PrimFloat.float :=
  match float_of_Z matches with
  | None => None
  | Some m =>
      mul_value (PrimFloat.mul m factor)
                (match dict_get rules "weight" with Some v => v | None => VFloat 1.0%float end)
  end.

(** [(5 - rules['priority']) * 0.5]; [None] for the [KeyError] of a missing
    priority and the [TypeError] of one that is no number. *)
Definition priority_bonus (rules : rules_t) : option PrimFloat.float :=
  match dict_get rules "priority" with
  | Some (VInt p) => option_map (fun x => PrimFloat.mul x 0.5%float) (float_of_Z (5 - p))
  | Some (VFloat p) => Some (PrimFloat.mul (PrimFloat.sub 5.0%float p) 0.5%float)
  | _ => None
  end.

(** [self.compiled_patterns.get(rules.get('category', ''), {})]; a key that
    is no [str] is not found, and a list as key is a [TypeError]. *)
Definition patterns_of (patterns : dict (dict (list pattern))) (rules : rules_t)
  : option (dict (list pattern)) :=
  let get := fun k => match dict_get patterns k with Some d => d | None => [] end in
  match dict_get rules "category" with
  | None => Some (get EmptyString)
  | Some (VStr s) => Some (get s)
  | Some (VStrList _) => None
  | Some (VInt _) | Some (VFloat _) => Some []
  end.

(** [_calculate_category_score] with [self.compiled_patterns] as an
    argument; [None] stands for an exception. *)
Definition _calculate_category_score_with (compiled_patterns : dict (dict (list pattern)))
           (text sender : string) (rules : rules_t) : option PrimFloat.float :=
  let score := 0.0%float in
  match patterns_of compiled_patterns rules with
  | None => None
  | Some patterns =>
      let keyword_matches :=
        count_matches (match dict_get patterns "keywords" with Some l => l | None => [] end)
                      text in
      match weighted keyword_matches 2.0%float rules with
      | None => None
      | Some k =>
          let score := PrimFloat.add score k in
          let sender_matches :=
            count_matches
              (match dict_get patterns "sender_patterns" with Some l => l | None => [] end)
              sender in
          match weighted sender_matches 3.0%float rules with
          | None => None
          | Some s =>
              let score := PrimFloat.add score s in
              match priority_bonus rules with
              | None => None
              | Some bonus => Some (PrimFloat.add score bonus)
              end
          end
      end
  end.

(** [_calculate_category_score] of the service as [__init__] leaves it. *)
Definition _calculate_category_score (text sender : string) (rules : rules_t)
  : option PrimFloat.float :=
  _calculate_category_score_with compiled_patterns text sender rules.

(** [max(items, key=lambda x: x[1])]: the first item with the largest score. *)
Fixpoint max_by_score (best : string * PrimFloat.float)
         (items : list (string * PrimFloat.float)) : string * PrimFloat.float :=
  match items with
  | [] => best
  | x :: rest => max_by_score (if PrimFloat.ltb (snd best) (snd x) then x else best) rest
  end.

(** The loop that fills [category_scores]; [None] when a score raises. *)
Fixpoint collect_scores (text sender : string) (rules : dict rules_t)
  : option (list (string * PrimFloat.float)) :=
  match rules with
  | [] => Some []
  | (cat, r) :: rest =>
      match _calculate_category_score text sender r with
      | None => None
      | Some score =>
          match collect_scores text sender rest with
          | None => None
          | Some tl => Some (if PrimFloat.ltb 0.0%float score then (cat, score) :: tl else tl)
          end
      end
  end.

Definition categorize_email (email : Email) : string :=
  let text_to_analyze :=
    lower (subject email ++ " " ++ sender email ++ " " ++ body email) in
  match collect_scores text_to_analyze (lower (sender email)) category_rules with
  | Some (x :: rest) => fst (max_by_score x rest)
  | Some [] => default_category
  | None => default_category
  end.

(** The score the specification describes, with the patterns of the rule's
    own category (used to compare with [_calculate_category_score]). *)
Definition spec_score (text sender : string) (cat : string) (rules : rules_t)
  : option PrimFloat.float :=
  _calculate_category_score text sender (("category", VStr cat) :: rules).

End Flat.

(** ** MD5 ([hashlib.md5]), on bytes given as integers 0..255 *)

Module MD5.
Local Open Scope Z_scope.

Definition add32 (a b : Z) : Z := (a + b) mod 4294967296.

Definition rotl32 (x c : Z) : Z :=
  Z.lor (Z.land (Z.shiftl x c) 4294967295) (Z.shiftr x (32 - c)).

Definition not32 (x : Z) : Z := 4294967295 - x.

Definition K : list Z :=
  [3614090360; 3905402710; 606105819; 3250441966; 4118548399; 1200080426;
   2821735955; 4249261313; 1770035416; 2336552879; 4294925233; 2304563134;
   1804603682; 4254626195; 2792965006; 1236535329; 4129170786; 3225465664;
   643717713; 3921069994; 3593408605; 38016083; 3634488961; 3889429448;
   568446438; 3275163606; 4107603335; 1163531501; 2850285829; 4243563512;
   1735328473; 2368359562; 4294588738; 2272392833; 1839030562; 4259657740;
   2763975236; 1272893353; 4139469664; 3200236656; 681279174; 3936430074;
   3572445317; 76029189; 3654602809; 3873151461; 530742520; 3299628645;
   4096336452; 1126891415; 2878612391; 4237533241; 1700485571; 2399980690;
   4293915773; 2240044497; 1873313359; 4264355552; 2734768916; 1309151649;
   4149444226; 3174756917; 718787259; 3951481745].

Definition S : list Z :=
  [7; 12; 17; 22; 7; 12; 17; 22; 7; 12; 17; 22; 7; 12; 17; 22;
   5; 9; 14; 20; 5; 9; 14; 20; 5; 9; 14; 20; 5; 9; 14; 20;
   4; 11; 16; 23; 4; 11; 16; 23; 4; 11; 16; 23; 4; 11; 16; 23;
   6; 10; 15; 21; 6; 10; 15; 21; 6; 10; 15; 21; 6; 10; 15; 21].

Record state : Type := mkState { sa : Z; sb : Z; sc : Z; sd : Z }.

Definition init : state := mkState 1732584193 4023233417 2562383102 271733878.

(** The message with the padding bit, the zero fill and the 64-bit length. *)
Definition le_bytes (n : nat) (x : Z) : list Z :=
  map (fun i => Z.land (Z.shiftr x (8 * Z.of_nat i)) 255) (seq 0 n).

Definition pad (msg : list Z) : list Z :=
  let len := Z.of_nat (List.length msg) in
  let zeros := Z.to_nat ((55 - len) mod 64) in
  msg ++ [128] ++ repeat 0 zeros ++ le_bytes 8 ((8 * len) mod 18446744073709551616).

Fixpoint words (block : list Z) : list Z :=
  match block with
  | b0 :: b1 :: b2 :: b3 :: rest =>
      (b0 + 256 * b1 + 65536 * b2 + 16777216 * b3) :: words rest
  | _ => []
  end.

Fixpoint chunks (fuel : nat) (l : list Z) : list (list Z) :=
  match fuel, l with
  | _, [] => []
  | O, _ => []
  | Datatypes.S f, _ => firstn 64 l :: chunks f (skipn 64 l)
  end.

Definition step (m : list Z) (st : state) (i : nat) : state :=
  let '(mkState a b c d) := st in
  let iz := Z.of_nat i in
  let '(f, g) :=
    if iz <? 16 then (Z.lor (Z.land b c) (Z.land (not32 b) d), iz)
    else if iz <? 32 then (Z.lor (Z.land d b) (Z.land (not32 d) c), (5 * iz + 1) mod 16)
    else if iz <? 48 then (Z.lxor (Z.lxor b c) d, (3 * iz + 5) mod 16)
    else (Z.lxor c (Z.lor b (not32 d)), (7 * iz) mod 16) in
  let f := add32 (add32 (add32 f a) (nth i K 0)) (nth (Z.to_nat g) m 0) in
  mkState d (add32 b (rotl32 f (nth i S 0))) b c.

Definition compress (st : state) (block : list Z) : state :=
  let r := fold_left (step (words block)) (seq 0 64) st in
  mkState (add32 (sa st) (sa r)) (add32 (sb st) (sb r))
          (add32 (sc st) (sc r)) (add32 (sd st) (sd r)).

(** The sixteen bytes of the digest. *)
Definition digest (msg : list Z) : list Z :=
  let p := pad msg in
  let st := fold_left compress (chunks (List.length p) p) init in
  le_bytes 4 (sa st) ++ le_bytes 4 (sb st) ++ le_bytes 4 (sc st) ++ le_bytes 4 (sd st).

Definition hex_digit (n : Z) : ascii :=
  if n <? 10 then ascii_of_N (Z.to_N (48 + n)) else ascii_of_N (Z.to_N (87 + n)).

Fixpoint hex (bytes : list Z) : string :=
  match bytes with
  | [] => EmptyString
  | b :: rest => String (hex_digit (b / 16)) (String (hex_digit (b mod 16)) (hex rest))
  end.

(** [hashlib.md5(data).hexdigest()] *)
Definition hexdigest (data : list Z) : string := hex (digest data).

End MD5.

(** ** Exceptions and the log *)

Inductive exn : Type :=
| UnicodeDecodeError
| UnicodeEncodeError
| LookupError
| HeaderParseError
| DatabaseError
| IMAPError (msg : string)
| Exception (msg : string).

Inductive outcome (A : Type) : Type :=
| Ok (a : A)
| Raise (e : exn).
Arguments Ok {A} a.
Arguments Raise {A} e.

Definition bind {A B : Type} (x : outcome A) (f : A -> outcome B) : outcome B :=
  match x with
  | Ok a => f a
  | Raise e => Raise e
  end.

(** [try: body  except Exception: handler] *)
Definition try_except {A : Type} (body : outcome A) (handler : exn -> outcome A) : outcome A :=
  match body with
  | Ok a => Ok a
  | Raise e => handler e
  end.

Notation "x <- c1 ;; c2" := (bind c1 (fun x => c2))
  (at level 61, c1 at next level, right associativity).

Inductive log_entry : Type :=
| LogError (msg : string)
| LogWarning (msg : string)
| LogInfo (msg : string).

(** ** Character sets and the header and body decoders *)

Module Codec.
Import PyStr.
Local Open Scope list_scope.

(** Decoded text: a list of code points. *)
Definition text : Type := list N.

Definition bytes : Type := list Byte.byte.

Inductive errors : Type := Strict | Ignore | Replace.

(** The UTF-8 decoder reads one byte at a time; [pending] holds the bytes of
    the sequence being read, [out] the code points so far (last first) and
    [bad] records that an invalid sequence was met. *)
Record dstate : Type := mkD { pending : list N; out : list N; bad : bool }.

Definition is_cont (b : N) : bool := ((128 <=? b) && (b <=? 191))%N.

(** Is [b] acceptable as the second byte after the lead byte [l]? *)
Definition second_ok (l b : N) : bool :=
  is_cont b &&
  (if (l =? 224)%N then (160 <=? b)%N
   else if (l =? 237)%N then (b <? 160)%N
   else if (l =? 240)%N then (144 <=? b)%N
   else if (l =? 244)%N then (b <? 144)%N
   else true).

Definition on_error (h : errors) (st : dstate) : dstate :=
  mkD [] (match h with Replace => 65533%N :: out st | _ => out st end) true.

(** A byte met with nothing pending. *)
Definition start (h : errors) (st : dstate) (b : N) : dstate :=
  if (b <? 128)%N then mkD [] (b :: out st) (bad st)
  else if ((194 <=? b) && (b <=? 244))%N then mkD [b] (out st) (bad st)
  else on_error h st.

Definition emit (st : dstate) (cp : N) : dstate := mkD [] (cp :: out st) (bad st).

Definition feed (h : errors) (st : dstate) (byte : Byte.byte) : dstate :=
  let b := Byte.to_N byte in
  match pending st with
  | [] => start h st b
  | [l] =>
      if second_ok l b then
        if (l <? 224)%N then emit st ((l - 192) * 64 + (b - 128))%N
        else mkD [l; b] (out st) (bad st)
      else start h (on_error h st) b
  | [l; b2] =>
      if is_cont b then
        if (l <? 240)%N then emit st ((l - 224) * 4096 + (b2 - 128) * 64 + (b - 128))%N
        else mkD [l; b2; b] (out st) (bad st)
      else start h (on_error h st) b
  | l :: b2 :: b3 :: _ =>
      if is_cont b
      then emit st ((l - 240) * 262144 + (b2 - 128) * 4096 + (b3 - 128) * 64 + (b - 128))%N
      else start h (on_error h st) b
  end.

(** End of data with a sequence still open is one more error. *)
Definition finish (h : errors) (st : dstate) : dstate :=
  match pending st with
  | [] => st
  | _ => on_error h st
  end.

(** [b.decode('utf-8', errors=h)] *)
Definition decode_utf8 (h : errors) (b : bytes) : outcome text :=
  let st := finish h (fold_left (feed h) b (mkD [] [] false)) in
  match h with
  | Strict => if bad st then Raise UnicodeDecodeError else Ok (rev (out st))
  | _ => Ok (rev (out st))
  end.

(** A single-byte character set given by its table. *)
Fixpoint decode_charmap (table : Byte.byte -> option N) (b : bytes) : outcome text :=
  match b with
  | [] => Ok []
  | x :: rest =>
      match table x with
      | None => Raise UnicodeDecodeError
      | Some cp => r <- decode_charmap table rest ;; Ok (cp :: r)
      end
  end.

Definition latin1_table (b : Byte.byte) : option N := Some (Byte.to_N b).

Definition ascii_table (b : Byte.byte) : option N :=
  if (Byte.to_N b <? 128)%N then Some (Byte.to_N b) else None.

(** [b.decode('latin1')] *)
Definition decode_latin1 (b : bytes) : outcome text := decode_charmap latin1_table b.

Definition decode_ascii (b : bytes) : outcome text := decode_charmap ascii_table b.

(** [s.encode('utf-8')]: the bytes as integers; a surrogate (or a value
    that is no code point) raises. *)
Definition encode_cp (c : N) : outcome (list Z) :=
  let z := Z.of_N c in
  if (z <? 128)%Z then Ok [z]
  else if (z <? 2048)%Z then Ok [192 + z / 64; 128 + z mod 64]%Z
  else if ((55296 <=? z) && (z <=? 57343))%Z then Raise UnicodeEncodeError
  else if (z <? 65536)%Z then Ok [224 + z / 4096; 128 + (z / 64) mod 64; 128 + z mod 64]%Z
  else if (z <? 1114112)%Z
  then Ok [240 + z / 262144; 128 + (z / 4096) mod 64; 128 + (z / 64) mod 64; 128 + z mod 64]%Z
  else Raise UnicodeEncodeError.

Fixpoint encode_utf8 (s : text) : outcome (list Z) :=
  match s with
  | [] => Ok []
  | c :: r => b <- encode_cp c ;; rest <- encode_utf8 r ;; Ok (b ++ rest)
  end.

(** A [str] of code points below 256 as text. *)
Fixpoint to_text (s : string) : text :=
  match s with
  | EmptyString => []
  | String c r => N_of_ascii c :: to_text r
  end.

(** The codec registry: a name is lower-cased, with hyphens and spaces read
    as underscores, and looked up among the aliases below; any other name is
    left to [extra], the rest of the registry ([None]: [LookupError]). *)
Definition normalize (name : string) : string :=
  replace_char " " "_" (replace_char "-" "_" (lower name)).

Definition mem_str (s : string) (l : list string) : bool := existsb (String.eqb s) l.

Definition decode_with (extra : string -> option (bytes -> outcome text))
           (encoding : string) (b : bytes) : outcome text :=
  let n := normalize encoding in
  if mem_str n ["utf_8"; "utf8"; "u8"; "utf"] then decode_utf8 Strict b
  else if mem_str n ["latin_1"; "latin1"; "iso_8859_1"; "iso8859_1"; "l1"; "latin"]
  then decode_latin1 b
  else if mem_str n ["ascii"; "us_ascii"] then decode_ascii b
  else match extra n with
       | Some dec => dec b
       | None => Raise LookupError
       end.

(** One element of [email.header.decode_header]'s result. *)
Inductive hpart : Type :=
| HBytes (b : bytes)
| HStr (s : text).

Definition parsed_header : Type := list (hpart * option string).

Section Headers.
Variable extra : string -> option (bytes -> outcome text).

(** The loop of [_decode_header] over the parsed parts. *)
Fixpoint decode_parts (parts : parsed_header) (decoded_string : text) : outcome text :=
  match parts with
  | [] => Ok decoded_string
  | (HBytes b, Some (String c e)) :: rest =>
      t <- decode_with extra (String c e) b ;; decode_parts rest (decoded_string ++ t)
  | (HBytes b, _) :: rest =>
      t <- decode_utf8 Ignore b ;; decode_parts rest (decoded_string ++ t)
  | (HStr s, _) :: rest => decode_parts rest (decoded_string ++ s)
  end.

(** [EmailService._decode_header]; [parsed] is what
    [email.header.decode_header(header)] returns or raises. *)
Definition _decode_header (header : option text) (parsed : outcome parsed_header)
  : outcome text :=
  match header with
  | None => Ok []
  | Some [] => Ok []
  | Some h =>
      try_except (parts <- parsed ;; decode_parts parts [])
                 (fun _ => Ok h)
  end.

(** [" ".join(...)] *)
Fixpoint join_space (l : list text) : text :=
  match l with
  | [] => []
  | [x] => x
  | x :: rest => x ++ [32%N] ++ join_space rest
  end.

Fixpoint decode_parts_strict (parts : parsed_header) : outcome (list text) :=
  match parts with
  | [] => Ok []
  | (HBytes b, charset) :: rest =>
      t <- decode_with extra
             (match charset with Some (String c e) => String c e | _ => "utf-8" end) b ;;
      r <- decode_parts_strict rest ;;
      Ok (t :: r)
  | (HStr s, _) :: rest =>
      r <- decode_parts_strict rest ;; Ok (s :: r)
  end.

(** [EmailService._decode_email_header], with the log. *)
Definition _decode_email_header (header : option text) (parsed : outcome parsed_header)
  : outcome text * list log_entry :=
  match header with
  | None => (Ok [], [])
  | Some _ =>
      match (parts <- parsed ;; l <- decode_parts_strict parts ;; Ok (join_space l)) with
      | Ok t => (Ok t, [])
      | Raise _ => (Ok [], [LogError "Error decoding header"])
      end
  end.

End Headers.

(** [str.isspace] on any code point. *)
Definition isspace_cp (c : N) : bool :=
  (((9 <=? c) && (c <=? 13)) || ((28 <=? c) && (c <=? 32)) || (c =? 133) || (c =? 160)
   || (c =? 5760) || ((8192 <=? c) && (c <=? 8202)) || (c =? 8232) || (c =? 8233)
   || (c =? 8239) || (c =? 8287) || (c =? 12288))%N.

Fixpoint lstrip_cp (s : text) : text :=
  match s with
  | [] => []
  | c :: r => if isspace_cp c then lstrip_cp r else s
  end.

Definition strip_cp (s : text) : text := rev (lstrip_cp (rev (lstrip_cp s))).

(** A MIME part as [_extract_email_body] reads it; [get_payload] is the
    result of [get_payload(decode=True)]. *)
Record part : Type := mkPart {
  content_type : string;
  content_disposition : option string;
  get_payload : outcome (option bytes)
}.

(** A parsed message: one part, or the parts [walk()] yields in order. *)
Inductive message : Type :=
| Single (p : part)
| Multipart (walk : list part).

(** Which attempt of the chain produced the body. *)
Inductive attempt : Type := Utf8 | Latin1 | Utf8Ignore | Failed.

(** The three nested [try] blocks. *)
Definition decode_chain (payload : bytes) : attempt * text * list log_entry :=
  match decode_utf8 Strict payload with
  | Ok t => (Utf8, t, [])
  | Raise _ =>
      match decode_latin1 payload with
      | Ok t => (Latin1, t, [])
      | Raise _ =>
          match decode_utf8 Ignore payload with
          | Ok t => (Utf8Ignore, t, [])
          | Raise _ => (Failed, [], [LogError "Body decode failed"])
          end
      end
  end.

Definition decode_payload (body : text) (p : part) : outcome (text * list log_entry) :=
  pl <- get_payload p ;;
  match pl with
  | None => Ok (body, [])
  | Some b => let '(_, t, l) := decode_chain b in Ok (t, l)
  end.

(** [str(part.get("Content-Disposition"))] *)
Definition disposition_str (p : part) : string :=
  match content_disposition p with Some d => d | None => "None" end.

Fixpoint first_plain (parts : list part) : option part :=
  match parts with
  | [] => None
  | p :: rest =>
      if String.eqb (content_type p) "text/plain"
         && negb (contains "attachment" (disposition_str p))
      then Some p else first_plain rest
  end.

(** The body of the outer [try] of [_extract_email_body]. *)
Definition extract_body_try (m : message) : outcome (text * list log_entry) :=
  match m with
  | Multipart parts =>
      match first_plain parts with
      | Some p => decode_payload [] p
      | None => Ok ([], [])
      end
  | Single p => decode_payload [] p
  end.

(** [EmailService._extract_email_body]: the body and the log. *)
Definition _extract_email_body (m : message) : outcome text * list log_entry :=
  match extract_body_try m with
  | Ok (body, l) => (Ok (strip_cp body), l)
  | Raise _ => (Ok (strip_cp []), [LogError "Error extracting email body"])
  end.

End Codec.

(** ** The message store ([backend/models/db_models.py])

    The [emails] table is a list of rows with [id] as primary key, in the
    order the engine returns them; a column comparison is equality.  Of the
    columns, the ones the pipeline reads or writes are kept.  [conns] is the
    outcome of the coming calls of [get_connection] (none listed: the
    connection succeeds), [now] the reading of the clock, [connects] the
    accounts an IMAP connection was opened for, [log] the log. *)

Module Store.
Import Codec.
Local Open Scope list_scope.

Record row : Type := mkRow {
  r_id : text;
  r_account_email : string;
  r_subject : string;
  r_sender : string;
  r_date : string;
  r_body : string;
  r_category : string;
  r_main_category : string;
  r_sub_category : string;
  r_is_read : bool;
  r_email_hash : string;
  r_message_id : string
}.

Record world : Type := mkWorld {
  accounts : list string;
  emails : list row;
  conns : list bool;
  now : string;
  connects : list string;
  log : list log_entry
}.

Definition add_log (w : world) (l : log_entry) : world :=
  mkWorld (accounts w) (emails w) (conns w) (now w) (connects w) (log w ++ [l]).

Definition set_emails (w : world) (rows : list row) : world :=
  mkWorld (accounts w) rows (conns w) (now w) (connects w) (log w).

Definition set_now (w : world) (t : string) : world :=
  mkWorld (accounts w) (emails w) (conns w) t (connects w) (log w).

Definition add_connect (w : world) (account : string) : world :=
  mkWorld (accounts w) (emails w) (conns w) (now w) (connects w ++ [account]) (log w).

Definition get_connection (w : world) : outcome unit * world :=
  match conns w with
  | [] => (Ok tt, w)
  | ok :: rest =>
      (if ok then Ok tt else Raise DatabaseError,
       mkWorld (accounts w) (emails w) rest (now w) (connects w) (log w))
  end.

(** Truth value of an optional [str]. *)
Definition truthy (o : option string) : bool :=
  match o with Some (String _ _) => true | _ => false end.

Definition text_eqb (a b : text) : bool :=
  if list_eq_dec N.eq_dec a b then true else false.

(** [DatabaseManager.email_exists]: the [id] of the first row the query
    returns, [None] for "no row" and for the [False] of the guard. *)
Definition email_exists (w : world) (message_id email_hash : option string)
  : option text * world :=
  if negb (truthy message_id) && negb (truthy email_hash) then (None, w)
  else
    match get_connection w with
    | (Raise _, w') => (None, add_log w' (LogError "Error checking if email exists"))
    | (Ok _, w') =>
        let result :=
          match message_id, email_hash with
          | Some (String c m), _ =>
              find (fun r => String.eqb (r_message_id r) (String c m)) (emails w')
          | _, Some h => find (fun r => String.eqb (r_email_hash r) h) (emails w')
          | _, None => None
          end in
        (option_map r_id result, w')
    end.

Fixpoint starts_with (p s : text) : bool :=
  match p, s with
  | [], _ => true
  | a :: p', b :: s' => N.eqb a b && starts_with p' s'
  | _ :: _, [] => false
  end.

(** "Ensure id is always a plain string": bytes are decoded, the text
    [b'...'] loses its wrapper. *)
Definition clean_id (i : py_id) : outcome text :=
  match i with
  | IdBytes b => decode_utf8 Strict b
  | IdStr s =>
      if starts_with [98; 39]%N s && N.eqb (last s 0%N) 39
      then Ok (firstn (List.length s - 3) (skipn 2 s))
      else Ok s
  end.

Definition or_empty (o : option string) : string :=
  match o with Some s => s | None => EmptyString end.

Definition row_of (w : world) (email_id : text) (e : Email) : row :=
  mkRow email_id (account_email e) (subject e) (sender e)
        (match date e with Some d => d | None => now w end)
        (body e) (category e) (main_category e) (sub_category e) (is_read e)
        (or_empty (email_hash e)) (or_empty (message_id e)).

(** The columns [ON DUPLICATE KEY UPDATE] assigns. *)
Definition update_row (old new : row) : row :=
  mkRow (r_id old) (r_account_email old) (r_subject old) (r_sender old) (r_date old)
        (r_body old) (r_category new) (r_main_category new) (r_sub_category new)
        (r_is_read new) (r_email_hash new) (r_message_id new).

(** [INSERT ... ON DUPLICATE KEY UPDATE] on the primary key. *)
Fixpoint upsert (r : row) (rows : list row) : list row :=
  match rows with
  | [] => [r]
  | x :: rest =>
      if text_eqb (r_id x) (r_id r) then update_row x r :: rest
      else x :: upsert r rest
  end.

(** [DatabaseManager.save_email], on a message whose metadata
    [json.dumps] accepts. *)
Definition save_email (w : world) (e : Email) : bool * world :=
  match get_connection w with
  | (Raise _, w') => (false, add_log w' (LogError "Failed to save email"))
  | (Ok _, w') =>
      if negb (mem_str (account_email e) (accounts w'))
      then (false, add_log w' (LogWarning "Cannot save email: account does not exist"))
      else
        match clean_id (id e) with
        | Raise _ => (false, add_log w' (LogError "Failed to save email"))
        | Ok email_id =>
            (true, add_log (set_emails w' (upsert (row_of w' email_id e) (emails w')))
                           (LogInfo "Email saved"))
        end
  end.

Definition has_id (i : text) (rows : list row) : bool :=
  existsb (fun r => text_eqb (r_id r) i) rows.

End Store.

(** ** The per-account pipeline ([EmailService.fetch_emails_from_account]) *)

Module Pipeline.
Import Codec Store.
Local Open Scope list_scope.

(** What [_decode_header] returns for [Subject] or [From]: a [str] over
    U+0000..U+00FF; a [str] that holds a lone surrogate, [before], the
    surrogate U+D800 + [k] mod 2048 and [after] (the codec
    [raw-unicode-escape] of an encoded word decodes one), which has no UTF-8
    encoding; or the [email.header.Header] object that stands for a raw
    8-bit header, which [_decode_header] returns as it came, [shown] being
    its [str()].  Other text above U+00FF is not modelled. *)
Inductive header_value : Type :=
| Str (s : string)
| Surrogate (before : text) (k : N) (after : text)
| HeaderObject (shown : text).

(** One message of the mailbox as the parser hands it over: sequence
    number, decoded [Subject] and [From], the parsed [Date] ([None]:
    unparseable or absent), the reading of the clock [robust_parse_date]
    takes when no date parses, the body, [Message-ID], the [\Seen] flag and
    the digest [generate_email_hash_from_msg] computes. *)
Record raw_message_of (H : Type) : Type := mkRaw {
  seq : N;
  raw_subject : H;
  raw_sender : H;
  raw_date : option string;
  raw_now : string;
  raw_body : string;
  raw_message_id : option string;
  raw_seen : bool;
  raw_msg_hash : string
}.
Arguments mkRaw {H}.
Arguments seq {H}.
Arguments raw_subject {H}.
Arguments raw_sender {H}.
Arguments raw_date {H}.
Arguments raw_now {H}.
Arguments raw_body {H}.
Arguments raw_message_id {H}.
Arguments raw_seen {H}.
Arguments raw_msg_hash {H}.

(** A message whose subject and sender are [str] over U+0000..U+00FF. *)
Definition raw_message : Type := raw_message_of string.

(** Any message. *)
Definition fetched_message : Type := raw_message_of header_value.

(** [robust_parse_date(date_str)] *)
Definition timestamp {H : Type} (m : raw_message_of H) : string :=
  match raw_date m with Some d => d | None => raw_now m end.

Fixpoint uint_digits (u : Decimal.uint) : text :=
  match u with
  | Decimal.Nil => []
  | Decimal.D0 r => 48%N :: uint_digits r
  | Decimal.D1 r => 49%N :: uint_digits r
  | Decimal.D2 r => 50%N :: uint_digits r
  | Decimal.D3 r => 51%N :: uint_digits r
  | Decimal.D4 r => 52%N :: uint_digits r
  | Decimal.D5 r => 53%N :: uint_digits r
  | Decimal.D6 r => 54%N :: uint_digits r
  | Decimal.D7 r => 55%N :: uint_digits r
  | Decimal.D8 r => 56%N :: uint_digits r
  | Decimal.D9 r => 57%N :: uint_digits r
  end.

(** [str(n)] *)
Definition decimal (n : N) : text := uint_digits (N.to_uint n).

(** [_fetch_single_email]; the argument is [None] when the fetch or the
    parse fails and the function returns [None]. *)
Definition _fetch_single_email (account : string) (m : option raw_message)
  : option Email :=
  match m with
  | None => None
  | Some m =>
      Some (mkEmail (IdStr (decimal (seq m))) account (raw_subject m) (raw_sender m)
                    (Some (timestamp m))
                    (raw_body m) "general" "general" "general" (raw_seen m)
                    (if truthy (raw_message_id m) then None else Some (raw_msg_hash m))
                    (raw_message_id m))
  end.

(** [generate_email_hash] *)
Definition generate_email_hash (now : string) (e : Email) : outcome string :=
  email_id <- match id e with
              | IdBytes b => decode_utf8 Strict b
              | IdStr s => Ok s
              end ;;
  let date_str := match date e with Some d => d | None => now end in
  let unique_fields :=
    to_text (subject e) ++ [95%N] ++ to_text (sender e) ++ [95%N]
    ++ to_text date_str ++ [95%N] ++ email_id in
  data <- encode_utf8 unique_fields ;;
  Ok (MD5.hexdigest data).

Definition set_hash (e : Email) (h : string) : Email :=
  mkEmail (id e) (account_email e) (subject e) (sender e) (date e) (body e)
          (category e) (main_category e) (sub_category e) (is_read e)
          (Some h) (message_id e).

Definition set_categories (e : Email) (main sub : string) : Email :=
  mkEmail (id e) (account_email e) (subject e) (sender e) (date e) (body e)
          (main ++ "_" ++ sub)%string main sub (is_read e)
          (email_hash e) (message_id e).

Definition set_id (e : Email) (i : text) : Email :=
  mkEmail (IdStr i) (account_email e) (subject e) (sender e) (date e) (body e)
          (category e) (main_category e) (sub_category e) (is_read e)
          (email_hash e) (message_id e).

(** Truth value of [existing_email_id]. *)
Definition found (existing : option text) : bool :=
  match existing with Some (_ :: _) => true | _ => false end.

(** The candidate as it stands just before the duplicate check. *)
Definition prepare (e : Email) (h : string) : Email :=
  let e := set_hash e h in
  let '(main, sub) := Hier._enhanced_categorize_email e in
  set_categories e main sub.

(** The body of the [for num in email_nums] loop once [email_obj] is
    there: the world and the list [emails] after it. *)
Definition process_candidate (st : world * list Email) (email_obj : Email)
  : world * list Email :=
  let '(w, emails) := st in
  match generate_email_hash (now w) email_obj with
  | Raise _ => (add_log w (LogError "Error fetching email"), emails)
  | Ok h =>
      let email_obj := prepare email_obj h in
      let '(existing, w) :=
        email_exists w (message_id email_obj) (email_hash email_obj) in
      let email_obj :=
        match existing with
        | Some (c :: i) => set_id email_obj (c :: i)
        | _ => email_obj
        end in
      let '(_, w) := save_email w email_obj in
      if found existing
      then (add_log w (LogInfo "Email updated"), emails)
      else (add_log w (LogInfo "Email fetched and saved"), emails ++ [email_obj])
  end.

(** The whole body of the loop, for a message whose subject and sender
    are [str] over U+0000..U+00FF. *)
Definition process_message (account : string) (st : world * list Email)
           (m : option raw_message) : world * list Email :=
  match _fetch_single_email account m with
  | None => st
  | Some email_obj => process_candidate st email_obj
  end.

Definition surrogate (k : N) : N := (55296 + k mod 2048)%N.

(** [str(v)] *)
Definition str_of (v : header_value) : text :=
  match v with
  | Str s => to_text s
  | Surrogate before k after => before ++ [surrogate k] ++ after
  | HeaderObject shown => shown
  end.

(** [generate_email_hash] on the object [_fetch_single_email] returns for
    any message: its id is the sequence number and its date is set. *)
Definition generate_email_hash_raw (m : fetched_message) : outcome string :=
  let unique_fields :=
    str_of (raw_subject m) ++ [95%N] ++ str_of (raw_sender m) ++ [95%N]
    ++ to_text (timestamp m) ++ [95%N] ++ decimal (seq m) in
  data <- encode_utf8 unique_fields ;;
  Ok (MD5.hexdigest data).

(** The message when both its subject and its sender are [str] over
    U+0000..U+00FF. *)
Definition typed (m : fetched_message) : option raw_message :=
  match raw_subject m, raw_sender m with
  | Str subject, Str sender =>
      Some (mkRaw (seq m) subject sender (raw_date m) (raw_now m) (raw_body m)
                  (raw_message_id m) (raw_seen m) (raw_msg_hash m))
  | _, _ => None
  end.

Definition of_typed (m : raw_message) : fetched_message :=
  mkRaw (seq m) (Str (raw_subject m)) (Str (raw_sender m)) (raw_date m) (raw_now m)
        (raw_body m) (raw_message_id m) (raw_seen m) (raw_msg_hash m).

(** The whole body of the loop, for any message.  Inside the [try] of the
    loop the hash comes first: it raises [UnicodeEncodeError] on a lone
    surrogate.  Then [_enhanced_categorize_email] calls [lower] on the
    subject and the sender, which raises [AttributeError] on a [Header]
    object (a [str] with a lone surrogate does not get that far).  The
    handler logs the error and the loop goes on. *)
Definition process_fetched (account : string) (st : world * list Email)
           (m : option fetched_message) : world * list Email :=
  match m with
  | None => st
  | Some m =>
      match generate_email_hash_raw m with
      | Raise _ => (add_log (fst st) (LogError "Error fetching email"), snd st)
      | Ok _ =>
          match typed m with
          | None => (add_log (fst st) (LogError "Error fetching email"), snd st)
          | Some t => process_message account st (Some t)
          end
      end
  end.

(** What the IMAP server does for one account: the connection, login or
    search raises, or the search answers with a status and the messages. *)
Inductive session : Type :=
| ImapError (msg : string)
| OtherError (msg : string)
| Search (status_ok : bool) (messages : list (option fetched_message)).

(** [email_nums[-limit:]] when [limit] is true. *)
Definition apply_limit {A : Type} (limit : option nat) (l : list A) : list A :=
  match limit with
  | Some (Datatypes.S n) => skipn (List.length l - Datatypes.S n) l
  | _ => l
  end.

Definition fetch_emails_from_account (w : world) (account : string) (limit : option nat)
           (s : session) : outcome (list Email) * world :=
  let w := add_connect w account in
  match s with
  | ImapError msg =>
      (Raise (Exception ("Failed to connect to email account: " ++ msg)%string),
       add_log w (LogError "IMAP error for account"))
  | OtherError msg =>
      (Raise (Exception ("Email fetch failed: " ++ msg)%string),
       add_log w (LogError "Unexpected error fetching emails"))
  | Search false _ => (Ok [], w)
  | Search true messages =>
      let '(w, emails) :=
        fold_left (process_fetched account) (apply_limit limit messages) (w, []) in
      (Ok emails, w)
  end.

End Pipeline.

(** ** The orchestrating passes ([routes/email_routes.py], [utils/background_tasks.py]) *)

Module Orchestrator.
Import Codec Store Pipeline.
Local Open Scope list_scope.

(** An account together with what its server does during the pass:
    [test_ok] is the result of the connection test, [acc_session] the
    behaviour of the server during the fetch. *)
Record account_env : Type := mkAccount {
  acc_email : string;
  test_ok : bool;
  acc_session : session
}.

Record fetch_results : Type := mkResults {
  total_accounts : nat;
  successful_accounts : nat;
  failed_accounts : nat;
  total_emails_fetched : nat;
  errors : list string
}.

(** The module-level [email_stats] dictionary. *)
Record email_stats_t : Type := mkStats {
  emails_by_category : list (string * nat);
  emails_by_account : list (string * nat);
  fetch_errors : nat
}.

Fixpoint dict_add (d : list (string * nat)) (k : string) (n : nat) : list (string * nat) :=
  match d with
  | [] => [(k, n)]
  | (k', v) :: rest => if String.eqb k' k then (k', v + n) :: rest else (k', v) :: dict_add rest k n
  end.

Definition state : Type := (world * fetch_results * email_stats_t)%type.

(** [EmailService.test_account_connection] *)
Definition test_account_connection (w : world) (a : account_env) : bool * world :=
  let w := add_connect w (acc_email a) in
  if test_ok a then (true, w)
  else (false, add_log w (LogError "Connection test failed")).

Definition str_of_exn (e : exn) : string :=
  match e with
  | Exception msg => msg
  | IMAPError msg => msg
  | UnicodeDecodeError => "UnicodeDecodeError"
  | UnicodeEncodeError => "UnicodeEncodeError"
  | LookupError => "LookupError"
  | HeaderParseError => "HeaderParseError"
  | DatabaseError => "DatabaseError"
  end.

Definition save_all (w : world) (emails : list Email) : world :=
  fold_left (fun w e => snd (save_email w e)) emails w.

(** The statements inside the [try] of the route's loop. *)
Definition route_body (limit : option nat) (a : account_env) (st : state)
  : outcome unit * state :=
  let '(w, res, stats) := st in
  let w := add_log w (LogInfo "Fetching emails from") in
  let '(ok, w) := test_account_connection w a in
  if negb ok then
    (Ok tt,
     (w,
      mkResults (total_accounts res) (successful_accounts res)
                (Datatypes.S (failed_accounts res)) (total_emails_fetched res)
                (errors res ++ [("Connection failed for account: " ++ acc_email a)%string]),
      stats))
  else
    match fetch_emails_from_account w (acc_email a) limit (acc_session a) with
    | (Raise e, w) => (Raise e, (w, res, stats))
    | (Ok emails, w) =>
        let w := save_all w emails in
        let res :=
          mkResults (total_accounts res) (Datatypes.S (successful_accounts res))
                    (failed_accounts res)
                    (total_emails_fetched res + List.length emails) (errors res) in
        let stats :=
          mkStats
            (fold_left (fun d e => dict_add d (category e) 1) emails (emails_by_category stats))
            (dict_add (emails_by_account stats) (acc_email a) (List.length emails))
            (fetch_errors stats) in
        (Ok tt, (add_log w (LogInfo "Fetched emails"), res, stats))
    end.

(** The [except Exception as e] of the route's loop. *)
Definition route_handler (a : account_env) (e : exn) (st : state) : state :=
  let '(w, res, stats) := st in
  let error_msg := ("Error fetching from " ++ acc_email a ++ ": " ++ str_of_exn e)%string in
  (add_log w (LogError error_msg),
   mkResults (total_accounts res) (successful_accounts res)
             (Datatypes.S (failed_accounts res)) (total_emails_fetched res)
             (errors res ++ [error_msg]),
   mkStats (emails_by_category stats) (emails_by_account stats)
           (Datatypes.S (fetch_errors stats))).

Fixpoint route_loop (limit : option nat) (accounts : list account_env) (st : state)
  : state :=
  match accounts with
  | [] => st
  | a :: rest =>
      match route_body limit a st with
      | (Ok _, st') => route_loop limit rest st'
      | (Raise e, st') => route_loop limit rest (route_handler a e st')
      end
  end.

(** [DatabaseManager.get_email_stats], for the counters kept here. *)
Definition get_email_stats (w : world) : email_stats_t * world :=
  match get_connection w with
  | (Raise _, w') => (mkStats [] [] 0, add_log w' (LogError "Failed to get email stats"))
  | (Ok _, w') =>
      (mkStats (fold_left (fun d r => dict_add d (r_category r) 1) (emails w') [])
               (fold_left (fun d r => dict_add d (r_account_email r) 1) (emails w') [])
               0,
       w')
  end.

Inductive response : Type :=
| R200 (results : fetch_results)
| R400
| R404.

(** The route [fetch_emails]: the response, the world and [email_stats]
    after it.  [user_found] is the result of the user lookup, [limit] the
    limit of the request, a natural number. *)
Definition fetch_emails (user_found : bool) (limit : option nat)
           (accounts : list account_env) (w : world) (stats : email_stats_t)
  : response * world * email_stats_t :=
  if negb user_found then (R404, w, stats)
  else
    match accounts with
    | [] => (R400, w, stats)
    | _ =>
        let res := mkResults (List.length accounts) 0 0 0 [] in
        let '(w, res, stats) := route_loop limit accounts (w, res, stats) in
        let '(stats, w) := get_email_stats w in
        (R200 res, w, stats)
    end.

(** [BackgroundTaskManager._fetch_emails] *)
Fixpoint background_loop (accounts : list account_env) (w : world) : world :=
  match accounts with
  | [] => w
  | a :: rest =>
      match fetch_emails_from_account w (acc_email a) None (acc_session a) with
      | (Ok _, w') => background_loop rest w'
      | (Raise e, w') =>
          background_loop rest
            (add_log w' (LogError ("Error fetching emails for " ++ acc_email a ++ ": "
                                   ++ str_of_exn e)%string))
      end
  end.

Definition _fetch_emails (accounts : list account_env) (w : world) : world :=
  let w := add_log w (LogInfo "Starting automatic email fetch") in
  match accounts with
  | [] => add_log w (LogWarning "No email accounts configured")
  | _ => background_loop accounts w
  end.

(** The fetch of an account fails: the connection test says no, or the
    server raises during the fetch. *)
Definition fetch_raises (a : account_env) : bool :=
  match acc_session a with
  | ImapError _ | OtherError _ => true
  | Search _ _ => false
  end.

Definition route_fails (a : account_env) : bool := negb (test_ok a) || fetch_raises a.

Definition route_error (a : account_env) : string :=
  if negb (test_ok a) then ("Connection failed for account: " ++ acc_email a)%string
  else match acc_session a with
       | ImapError msg =>
           ("Error fetching from " ++ acc_email a ++ ": "
            ++ "Failed to connect to email account: " ++ msg)%string
       | OtherError msg =>
           ("Error fetching from " ++ acc_email a ++ ": " ++ "Email fetch failed: " ++ msg)%string
       | Search _ _ => EmptyString
       end.

End Orchestrator.

(** ** Further operations of the store and the routes on one message
    ([backend/models/db_models.py], [routes/email_routes.py]) *)

Module StoreOps.
Import PyStr Codec Store.
Local Open Scope list_scope.

Definition set_accounts (w : world) (accs : list string) : world :=
  mkWorld accs (emails w) (conns w) (now w) (connects w) (log w).

(** [DatabaseManager.add_email_account], for the key of the account:
    [INSERT ... ON DUPLICATE KEY UPDATE] on [email]. *)
Definition add_email_account (w : world) (email : string) : bool * world :=
  match get_connection w with
  | (Raise _, w') => (false, add_log w' (LogError "Failed to add email account"))
  | (Ok _, w') =>
      let accs :=
        if mem_str email (accounts w') then accounts w' else accounts w' ++ [email] in
      (true, add_log (set_accounts w' accs) (LogInfo "Email account added"))
  end.

(** [DatabaseManager.delete_email_account] *)
Definition delete_email_account (w : world) (email : string) : bool * world :=
  match get_connection w with
  | (Raise _, w') => (false, add_log w' (LogError "Failed to delete email account"))
  | (Ok _, w') =>
      let count := List.length (filter (fun a => String.eqb a email) (accounts w')) in
      if Nat.eqb count 0
      then (false, add_log w' (LogWarning "Email account not found for deletion"))
      else
        let w1 :=
          set_emails w'
            (filter (fun r => negb (String.eqb (r_account_email r) email)) (emails w')) in
        let w1 := add_log w1 (LogInfo "Deleted emails for account") in
        let deleted_accounts :=
          List.length (filter (fun a => String.eqb a email) (accounts w1)) in
        let w2 :=
          set_accounts w1 (filter (fun a => negb (String.eqb a email)) (accounts w1)) in
        if Nat.ltb 0 deleted_accounts
        then (true, add_log w2 (LogInfo "Email account deleted successfully"))
        else (false, add_log w2 (LogError "Failed to delete email account"))
  end.

(** [DatabaseManager.delete_email] *)
Definition delete_email (w : world) (email_id : text) : bool * world :=
  match get_connection w with
  | (Raise _, w') => (false, add_log w' (LogError "Failed to delete email"))
  | (Ok _, w') =>
      let deleted :=
        List.length (filter (fun r => text_eqb (r_id r) email_id) (emails w')) in
      (Nat.ltb 0 deleted,
       set_emails w' (filter (fun r => negb (text_eqb (r_id r) email_id)) (emails w')))
  end.

(** [value or 'general'] *)
Definition or_general (s : string) : string :=
  match s with EmptyString => "general" | _ => s end.

(** The [Email] that [get_email_by_id] builds from a row. *)
Definition email_of_row (w : world) (r : row) : Email :=
  mkEmail (IdStr (r_id r)) (r_account_email r) (r_subject r) (r_sender r)
          (Some (match r_date r with EmptyString => now w | d => d end))
          (r_body r) (or_general (r_category r)) (or_general (r_main_category r))
          (or_general (r_sub_category r)) (r_is_read r)
          (Some (r_email_hash r)) (Some (r_message_id r)).

(** [DatabaseManager.get_email_by_id] *)
Definition get_email_by_id (w : world) (email_id : text) : option Email * world :=
  match get_connection w with
  | (Raise _, w') => (None, add_log w' (LogError "Failed to get email by id"))
  | (Ok _, w') =>
      match find (fun r => text_eqb (r_id r) email_id) (emails w') with
      | Some r => (Some (email_of_row w' r), w')
      | None => (None, w')
      end
  end.

Definition set_read (r : row) (b : bool) : row :=
  mkRow (r_id r) (r_account_email r) (r_subject r) (r_sender r) (r_date r) (r_body r)
        (r_category r) (r_main_category r) (r_sub_category r) b
        (r_email_hash r) (r_message_id r).

(** [DatabaseManager.mark_all_emails_read] *)
Definition mark_all_emails_read (w : world) : bool * world :=
  match get_connection w with
  | (Raise _, w') => (false, add_log w' (LogError "Failed to mark all emails as read"))
  | (Ok _, w') => (true, set_emails w' (map (fun r => set_read r true) (emails w')))
  end.

Definition set_is_read (e : Email) (b : bool) : Email :=
  mkEmail (id e) (account_email e) (subject e) (sender e) (date e) (body e)
          (category e) (main_category e) (sub_category e) b
          (email_hash e) (message_id e).

(** The answer of a route on one message: 200 with the message, or 404. *)
Inductive email_response : Type :=
| E200 (email : Email)
| E404.

(** The route [get_email] *)
Definition get_email (w : world) (email_id : text) : email_response * world :=
  match get_email_by_id w email_id with
  | (Some email, w) => (E200 email, w)
  | (None, w) => (E404, w)
  end.

(** The route [mark_email_read] *)
Definition mark_email_read (w : world) (email_id : text) : email_response * world :=
  match get_email_by_id w email_id with
  | (None, w) => (E404, w)
  | (Some email, w) =>
      let email := set_is_read email true in
      let '(_, w) := save_email w email in
      (E200 email, add_log w (LogInfo "Email marked as read in local database"))
  end.

(** The route [mark_email_unread] *)
Definition mark_email_unread (w : world) (email_id : text) : email_response * world :=
  match get_email_by_id w email_id with
  | (None, w) => (E404, w)
  | (Some email, w) =>
      let email := set_is_read email false in
      let '(_, w) := save_email w email in
      (E200 email, add_log w (LogInfo "Email marked as unread in local database"))
  end.

End StoreOps.

(** ** Categorizing stored messages in a batch
    ([EmailService.categorize_stored_emails_batch]) *)

Module Batch.
Import Codec Store Pipeline.
Local Open Scope list_scope.

Record batch_results : Type := mkBatch {
  categorized : nat;
  skipped : nat;
  batch_errors : list string
}.

(** [email.date = self.ensure_datetime(email.date)]: a message without a
    date gets the reading of the clock. *)
Definition ensure_date (w : world) (e : Email) : Email :=
  mkEmail (id e) (account_email e) (subject e) (sender e)
          (Some (match date e with Some d => d | None => now w end)) (body e)
          (category e) (main_category e) (sub_category e) (is_read e)
          (email_hash e) (message_id e).

(** One turn of the loop: the results, the world and the message objects
    as they are after it.  Nothing raises on these values, so the handler of
    the loop, which alone appends to [errors], is not entered. *)
Definition batch_step (st : batch_results * world * list Email) (email : Email)
  : batch_results * world * list Email :=
  let '(results, w, objects) := st in
  let '(main_category, sub_category) := Hier._enhanced_categorize_email email in
  if negb (String.eqb main_category "general") then
    let email := ensure_date w (set_categories email main_category sub_category) in
    let '(_, w) := save_email w email in
    (mkBatch (Datatypes.S (categorized results)) (skipped results) (batch_errors results),
     add_log w (LogInfo "Categorized email"),
     objects ++ [email])
  else
    (mkBatch (categorized results) (Datatypes.S (skipped results)) (batch_errors results),
     w,
     objects ++ [email]).

Definition categorize_stored_emails_batch (w : world) (emails_to_categorize : list Email)
  : batch_results * world * list Email :=
  fold_left batch_step emails_to_categorize (mkBatch 0 0 [], w, []).

End Batch.

(** ** The categorization service and its state
    ([EmailCategorizationService] in [backend/services/categorization_service.py])

    The service keeps its rule table, the patterns compiled from it and its
    statistics, and its methods change them.  The regular expressions are
    those of the library: [regex] is the type of a compiled pattern,
    [compile_keyword k] is [re.compile(r'\b' + re.escape(k) + r'\b',
    re.IGNORECASE)], which compiles whatever [k] holds, and [compile_sender p]
    is [re.compile(p, re.IGNORECASE)], [None] when the pattern is rejected.
    [score] is [_calculate_category_score] as a function of the compiled
    patterns it reads, [None] when it raises. *)

Module Service.
Import PyStr.
Local Open Scope list_scope.

Section Engine.
Variable regex : Type.
Variable compile_keyword : string -> regex.
Variable compile_sender : string -> option regex.

Definition patterns_t : Type := Flat.dict (Flat.dict (list regex)).

Variable score : patterns_t -> string -> string -> Flat.rules_t -> option PrimFloat.float.

(** [d[k] = v]: a key that is there keeps its place. *)
Fixpoint dict_set {V : Type} (d : Flat.dict V) (k : string) (v : V) : Flat.dict V :=
  match d with
  | [] => [(k, v)]
  | (k', v') :: rest =>
      if String.eqb k' k then (k', v) :: rest else (k', v') :: dict_set rest k v
  end.

(** [del d[k]] *)
Fixpoint dict_del {V : Type} (d : Flat.dict V) (k : string) : Flat.dict V :=
  match d with
  | [] => []
  | (k', v') :: rest => if String.eqb k' k then rest else (k', v') :: dict_del rest k
  end.

(** [k in d] *)
Definition has_key {V : Type} (d : Flat.dict V) (k : string) : bool :=
  match Flat.dict_get d k with Some _ => true | None => false end.

Record stats_t : Type := mkCatStats {
  total_categorized : nat;
  category_counts : Flat.dict nat;
  last_reset : string
}.

Record service : Type := mkService {
  category_rules : Flat.dict Flat.rules_t;
  compiled_patterns : patterns_t;
  categorization_stats : stats_t;
  service_log : list log_entry
}.

Definition default_category : string := "general".

Definition set_rules (s : service) (rules : Flat.dict Flat.rules_t) : service :=
  mkService rules (compiled_patterns s) (categorization_stats s) (service_log s).

Definition set_patterns (s : service) (p : patterns_t) : service :=
  mkService (category_rules s) p (categorization_stats s) (service_log s).

Definition set_stats (s : service) (st : stats_t) : service :=
  mkService (category_rules s) (compiled_patterns s) st (service_log s).

Definition log_entry_of (s : service) (l : log_entry) : service :=
  mkService (category_rules s) (compiled_patterns s) (categorization_stats s)
            (service_log s ++ [l]).

(** The characters of a [str], as iterating over it yields them. *)
Fixpoint chars (s : string) : list string :=
  match s with
  | EmptyString => []
  | String c r => String c EmptyString :: chars r
  end.

(** [for x in rules[key]]: the elements, [None] when the key is missing or
    the value cannot be iterated over. *)
Definition iterate (v : option Flat.pyval) : option (list string) :=
  match v with
  | Some (Flat.VStrList l) => Some l
  | Some (Flat.VStr s) => Some (chars s)
  | _ => None
  end.

(** [[re.compile(p, re.IGNORECASE) for p in ...]] *)
Fixpoint compile_senders (l : list string) : option (list regex) :=
  match l with
  | [] => Some []
  | p :: rest =>
      match compile_sender p with
      | None => None
      | Some r =>
          match compile_senders rest with
          | None => None
          | Some rs => Some (r :: rs)
          end
      end
  end.

(** The entry of one category, [None] when building it raises. *)
Definition compile_category (rules : Flat.rules_t) : option (Flat.dict (list regex)) :=
  match iterate (Flat.dict_get rules "keywords") with
  | None => None
  | Some ks =>
      match iterate (Flat.dict_get rules "sender_patterns") with
      | None => None
      | Some ps =>
          match compile_senders ps with
          | None => None
          | Some cps => Some [("keywords", map compile_keyword ks); ("sender_patterns", cps)]
          end
      end
  end.

(** The loop of [_compile_patterns]: [false] when it raises, with the
    entries written until then. *)
Fixpoint compile_loop (rules : Flat.dict Flat.rules_t) (acc : patterns_t)
  : bool * patterns_t :=
  match rules with
  | [] => (true, acc)
  | (category, r) :: rest =>
      match compile_category r with
      | None => (false, acc)
      | Some entry => compile_loop rest (dict_set acc category entry)
      end
  end.

(** [_compile_patterns] *)
Definition _compile_patterns (s : service) : bool * service :=
  let '(ok, p) := compile_loop (category_rules s) [] in (ok, set_patterns s p).

(** [__init__]; [None] when compiling the patterns raises. *)
Definition init (now : string) : option service :=
  match _compile_patterns (mkService Flat.category_rules [] (mkCatStats 0 [] now) []) with
  | (true, s) => Some s
  | (false, _) => None
  end.

(** [_update_stats] *)
Definition _update_stats (s : service) (category : string) : service :=
  let st := categorization_stats s in
  let total := Datatypes.S (total_categorized st) in
  let counts :=
    if has_key (category_counts st) category then category_counts st
    else dict_set (category_counts st) category 0 in
  let n := match Flat.dict_get counts category with Some n => n | None => 0 end in
  set_stats s (mkCatStats total (dict_set counts category (Datatypes.S n)) (last_reset st)).

(** [reset_stats] *)
Definition reset_stats (now : string) (s : service) : service :=
  log_entry_of (set_stats s (mkCatStats 0 [] now)) (LogInfo "Categorization statistics reset").

Record stats_report : Type := mkReport {
  report_total_categorized : nat;
  category_distribution : Flat.dict nat;
  available_categories : list string;
  report_last_reset : string
}.

(** [get_categorization_stats] *)
Definition get_categorization_stats (s : service) : stats_report :=
  mkReport (total_categorized (categorization_stats s))
           (category_counts (categorization_stats s))
           (map fst (category_rules s) ++ [default_category])
           (last_reset (categorization_stats s)).

(** [get_category_rules] *)
Definition get_category_rules (s : service) : Flat.dict Flat.rules_t := category_rules s.

(** The loop that fills [category_scores]; [None] when a score raises. *)
Fixpoint collect_scores (p : patterns_t) (text sender : string)
         (rules : Flat.dict Flat.rules_t) : option (list (string * PrimFloat.float)) :=
  match rules with
  | [] => Some []
  | (cat, r) :: rest =>
      match score p text sender r with
      | None => None
      | Some x =>
          match collect_scores p text sender rest with
          | None => None
          | Some tl => Some (if PrimFloat.ltb 0.0%float x then (cat, x) :: tl else tl)
          end
      end
  end.

(** [categorize_email] on the state of the service. *)
Definition categorize_email (s : service) (email : Email) : string * service :=
  let text_to_analyze :=
    lower (subject email ++ " " ++ sender email ++ " " ++ body email)%string in
  match collect_scores (compiled_patterns s) text_to_analyze (lower (sender email))
                       (category_rules s) with
  | Some scores =>
      let category :=
        match scores with
        | x :: rest => fst (Flat.max_by_score x rest)
        | [] => default_category
        end in
      (category, _update_stats s category)
  | None => (default_category, log_entry_of s (LogError "Error categorizing email"))
  end.

Definition is_list (v : option Flat.pyval) : bool :=
  match v with Some (Flat.VStrList _) => true | _ => false end.

(** [isinstance(rules['priority'], int) and rules['priority'] >= 0] *)
Definition is_priority (v : option Flat.pyval) : bool :=
  match v with Some (Flat.VInt z) => (0 <=? z)%Z | _ => false end.

(** [update_category_rules] *)
Definition update_category_rules (s : service) (category : string) (rules : Flat.rules_t)
  : bool * service :=
  if negb (forallb (has_key rules) ["keywords"; "sender_patterns"; "priority"])
  then (false, log_entry_of s (LogError "Invalid rules format for category"))
  else if negb (is_list (Flat.dict_get rules "keywords"))
          || negb (is_list (Flat.dict_get rules "sender_patterns"))
  then (false, log_entry_of s (LogError "Keywords and sender_patterns must be lists"))
  else if negb (is_priority (Flat.dict_get rules "priority"))
  then (false, log_entry_of s (LogError "Priority must be a non-negative integer"))
  else
    let rules :=
      if has_key rules "weight" then rules
      else dict_set rules "weight" (Flat.VFloat 1.0%float) in
    let s := set_rules s (dict_set (category_rules s) category rules) in
    match _compile_patterns s with
    | (true, s) => (true, log_entry_of s (LogInfo "Category rules updated"))
    | (false, s) => (false, log_entry_of s (LogError "Error updating category rules"))
    end.

(** [delete_category]; it has no handler, so an error of
    [_compile_patterns] is raised to the caller. *)
Definition delete_category (s : service) (category : string) : outcome bool * service :=
  if String.eqb category default_category
  then (Ok false, log_entry_of s (LogError "Cannot delete default category"))
  else if has_key (category_rules s) category then
    let s := set_rules s (dict_del (category_rules s) category) in
    match _compile_patterns s with
    | (true, s) => (Ok true, log_entry_of s (LogInfo "Category deleted"))
    | (false, s) => (Raise (Exception "error"), s)
    end
  else (Ok false, s).

End Engine.

Arguments mkService {regex}.
Arguments category_rules {regex}.
Arguments compiled_patterns {regex}.
Arguments categorization_stats {regex}.
Arguments service_log {regex}.
Arguments set_rules {regex}.
Arguments set_patterns {regex}.
Arguments set_stats {regex}.
Arguments log_entry_of {regex}.
Arguments compile_senders {regex}.
Arguments compile_category {regex}.
Arguments compile_loop {regex}.
Arguments _compile_patterns {regex}.
Arguments init {regex}.
Arguments _update_stats {regex}.
Arguments reset_stats {regex}.
Arguments get_categorization_stats {regex}.
Arguments get_category_rules {regex}.
Arguments collect_scores {regex}.
Arguments categorize_email {regex}.
Arguments update_category_rules {regex}.
Arguments delete_category {regex}.

End Service.

(** * Properties *)

(** ** The models of the library functions on known values *)

Module LibraryExamples.
Import Codec.
Local Open Scope list_scope.

(** The test suite of RFC 1321. *)
Example md5_empty : MD5.hexdigest [] = "d41d8cd98f00b204e9800998ecf8427e".
Proof. vm_compute. reflexivity. Qed.

Example md5_a : MD5.hexdigest [97%Z] = "0cc175b9c0f1b6a831c399e269772661".
Proof. vm_compute. reflexivity. Qed.

Example md5_abc : MD5.hexdigest [97; 98; 99]%Z = "900150983cd24fb0d6963f7d28e17f72".
Proof. vm_compute. reflexivity. Qed.

Example md5_two_blocks :
  MD5.hexdigest (List.concat (repeat [49; 50; 51; 52; 53; 54; 55; 56; 57; 48]%Z 8))
  = "57edf4a22be3c955ac49da2e2107b67a".
Proof. vm_compute. reflexivity. Qed.

(** The UTF-8 decoder on well-formed text (U+1F600, U+20AC, U+00E9, A)... *)
Example utf8_well_formed :
  decode_utf8 Strict [Byte.xf0; Byte.x9f; Byte.x98; Byte.x80; Byte.xe2; Byte.x82; Byte.xac;
                      Byte.xc3; Byte.xa9; Byte.x41]
  = Ok [128512; 8364; 233; 65]%N.
Proof. reflexivity. Qed.

(** ... and on ill-formed bytes: an overlong form, a surrogate, a truncated
    sequence followed by a letter. *)
Example utf8_overlong :
  decode_utf8 Strict [Byte.xc0; Byte.xaf] = Raise UnicodeDecodeError
  /\ decode_utf8 Replace [Byte.xc0; Byte.xaf] = Ok [65533; 65533]%N.
Proof. split; reflexivity. Qed.

Example utf8_surrogate :
  decode_utf8 Replace [Byte.xed; Byte.xa0; Byte.x80] = Ok [65533; 65533; 65533]%N
  /\ decode_utf8 Ignore [Byte.xed; Byte.xa0; Byte.x80] = Ok [].
Proof. split; reflexivity. Qed.

Example utf8_truncated :
  decode_utf8 Replace [Byte.xe2; Byte.x82; Byte.x7a] = Ok [65533; 122]%N
  /\ decode_utf8 Ignore [Byte.xe2; Byte.x82; Byte.x7a] = Ok [122%N].
Proof. split; reflexivity. Qed.

End LibraryExamples.

(** ** The hierarchical categorizer *)

Module HierProps.
Import PyStr Hier.

Definition word_char (c : ascii) : bool := isalnum c || Ascii.eqb c "_".

Definition is_ascii (c : ascii) : bool := (code c <? 128)%N.

Ltac by_cases_on_char c :=
  destruct c as [[|] [|] [|] [|] [|] [|] [|] [|]]; vm_compute; try reflexivity; try discriminate.

Lemma lower_char_idem (c : ascii) : lower_char (lower_char c) = lower_char c.
Proof. by_cases_on_char c. Qed.

Lemma lower_char_word (c : ascii) : word_char c = true -> word_char (lower_char c) = true.
Proof. by_cases_on_char c. Qed.

Lemma lower_char_slug (c : ascii) :
  is_ascii c = true -> word_char c = true -> is_slug_char (lower_char c) = true.
Proof. by_cases_on_char c. Qed.

Lemma lower_idem (s : string) : lower (lower s) = lower s.
Proof.
  induction s as [|c r IH]; simpl; [reflexivity|].
  now rewrite lower_char_idem, IH.
Qed.

Lemma lower_nonempty (s : string) : s <> EmptyString -> lower s <> EmptyString.
Proof. destruct s; simpl; [congruence | discriminate]. Qed.

Lemma forallb_str_and (p q : ascii -> bool) (s : string) :
  forallb_str p s = true -> forallb_str q s = true ->
  forallb_str (fun c => p c && q c) s = true.
Proof.
  induction s as [|c r IH]; simpl; [reflexivity|].
  intros H1 H2. apply andb_true_iff in H1 as [-> H1], H2 as [-> H2].
  simpl. now apply IH.
Qed.

Lemma forallb_lower (p q : ascii -> bool) (s : string) :
  (forall c, p c = true -> q (lower_char c) = true) ->
  forallb_str p s = true -> forallb_str q (lower s) = true.
Proof.
  intros Hpq. induction s as [|c r IH]; simpl; [reflexivity|].
  intros H. apply andb_true_iff in H as [Hc Hr].
  now rewrite (Hpq _ Hc), IH.
Qed.

Lemma forallb_filter_self (p : ascii -> bool) (s : string) :
  forallb_str p (filter_str p s) = true.
Proof.
  induction s as [|c r IH]; simpl; [reflexivity|].
  destruct (p c) eqn:E; simpl; [now rewrite E|assumption].
Qed.

(** The operations that only select characters keep any property that
    holds of every character. *)
Section Selecting.
Variable p : ascii -> bool.

Lemma forallb_filter (q : ascii -> bool) (s : string) :
  forallb_str p s = true -> forallb_str p (filter_str q s) = true.
Proof.
  induction s as [|c r IH]; simpl; [reflexivity|].
  intros H. apply andb_true_iff in H as [Hc Hr].
  destruct (q c); simpl; [rewrite Hc|]; auto.
Qed.

Lemma forallb_split_first (c : ascii) (s : string) :
  forallb_str p s = true -> forallb_str p (split_first c s) = true.
Proof.
  induction s as [|a r IH]; simpl; [reflexivity|].
  intros H. apply andb_true_iff in H as [Ha Hr].
  destruct (Ascii.eqb a c); simpl; [reflexivity|]. rewrite Ha; auto.
Qed.

Lemma forallb_split_last (c : ascii) (s : string) :
  forallb_str p s = true -> forallb_str p (split_last c s) = true.
Proof.
  induction s as [|a r IH]; simpl; [reflexivity|].
  intros H. apply andb_true_iff in H as [Ha Hr].
  destruct (has_char c r); [auto|].
  destruct (Ascii.eqb a c); simpl; [assumption|]. now rewrite Ha.
Qed.

Lemma forallb_lstrip (s : string) :
  forallb_str p s = true -> forallb_str p (lstrip s) = true.
Proof.
  induction s as [|a r IH]; simpl; [reflexivity|].
  intros H. pose proof H as H'. apply andb_true_iff in H as [Ha Hr].
  destruct (isspace a); simpl; auto.
Qed.

Lemma forallb_rstrip (s : string) :
  forallb_str p s = true -> forallb_str p (rstrip s) = true.
Proof.
  induction s as [|a r IH]; simpl; [reflexivity|].
  intros H. apply andb_true_iff in H as [Ha Hr].
  destruct (isspace a && is_empty (rstrip r)); simpl; [reflexivity|].
  rewrite Ha; auto.
Qed.

Lemma forallb_strip (s : string) :
  forallb_str p s = true -> forallb_str p (strip s) = true.
Proof. intros H. unfold strip. now apply forallb_rstrip, forallb_lstrip. Qed.

Lemma forallb_replace (c d : ascii) (s : string) :
  p d = true -> forallb_str p s = true -> forallb_str p (replace_char c d s) = true.
Proof.
  intros Hd. induction s as [|a r IH]; simpl; [reflexivity|].
  intros H. apply andb_true_iff in H as [Ha Hr].
  destruct (Ascii.eqb a c); [rewrite Hd|rewrite Ha]; auto.
Qed.

Lemma forallb_extract_domain (s : string) :
  forallb_str p s = true -> forallb_str p (_extract_domain s) = true.
Proof.
  intros H. unfold _extract_domain.
  destruct (has_char "@" s); [|assumption].
  now apply forallb_strip, forallb_split_first, forallb_split_last.
Qed.

End Selecting.

(** The name before it is made folder-friendly. *)
Definition name_part_of (sender : string) : string :=
  let name_part :=
    if has_char "<" sender && has_char ">" sender
    then strip (split_first "<" sender)
    else if has_char "@" sender then split_first "@" sender else sender in
  let name_part := strip (remove_char "'" (remove_char dquote name_part)) in
  if is_empty name_part || has_char "@" name_part
  then let domain := _extract_domain sender in
       if has_char "." domain then split_first "." domain else domain
  else name_part.

Lemma extract_sender_name_eq (sender : string) :
  _extract_sender_name sender =
  lower (if is_empty (folder_friendly (name_part_of sender))
         then "unknown_sender" else folder_friendly (name_part_of sender)).
Proof. reflexivity. Qed.

Lemma name_part_selects (p : ascii -> bool) (sender : string) :
  forallb_str p sender = true -> forallb_str p (name_part_of sender) = true.
Proof.
  intros H. unfold name_part_of.
  match goal with
  | |- context [is_empty ?x || has_char "@" ?x] =>
      assert (Hx : forallb_str p x = true); [|destruct (is_empty x || has_char "@" x)]
  end.
  - apply forallb_strip. unfold remove_char. do 2 apply forallb_filter.
    destruct (has_char "<" sender && has_char ">" sender).
    + now apply forallb_strip, forallb_split_first.
    + destruct (has_char "@" sender); [now apply forallb_split_first|assumption].
  - cbv zeta. destruct (has_char "." (_extract_domain sender)).
    + now apply forallb_split_first, forallb_extract_domain.
    + now apply forallb_extract_domain.
  - assumption.
Qed.

Lemma folder_friendly_word (s : string) : forallb_str word_char (folder_friendly s) = true.
Proof. unfold folder_friendly. apply (forallb_filter_self word_char). Qed.

Lemma folder_friendly_ascii (s : string) :
  forallb_str is_ascii s = true -> forallb_str is_ascii (folder_friendly s) = true.
Proof.
  intros H. unfold folder_friendly. apply forallb_filter.
  repeat (apply forallb_replace; [reflexivity|]). assumption.
Qed.

(** The slug is never empty. *)
Lemma sender_name_nonempty (sender : string) : _extract_sender_name sender <> EmptyString.
Proof.
  rewrite extract_sender_name_eq. apply lower_nonempty.
  destruct (folder_friendly (name_part_of sender)); simpl; discriminate.
Qed.

(** The slug is unchanged by lower-casing. *)
Lemma sender_name_lower (sender : string) :
  lower (_extract_sender_name sender) = _extract_sender_name sender.
Proof. rewrite extract_sender_name_eq. apply lower_idem. Qed.

(** The slug holds alphanumeric characters and underscores only. *)
Lemma sender_name_word (sender : string) :
  forallb_str word_char (_extract_sender_name sender) = true.
Proof.
  rewrite extract_sender_name_eq.
  apply (forallb_lower word_char); [apply lower_char_word|].
  destruct (is_empty (folder_friendly (name_part_of sender)));
    [reflexivity | apply folder_friendly_word].
Qed.

(** For a sender of ASCII characters the slug is in [a-z0-9_]. *)
Lemma sender_name_slug (sender : string) :
  forallb_str is_ascii sender = true ->
  forallb_str is_slug_char (_extract_sender_name sender) = true.
Proof.
  intros H. rewrite extract_sender_name_eq.
  apply (forallb_lower (fun c => is_ascii c && word_char c)).
  - intros c Hc. apply andb_true_iff in Hc as [H1 H2]. now apply lower_char_slug.
  - destruct (is_empty (folder_friendly (name_part_of sender))); [reflexivity|].
    apply forallb_str_and; [|apply folder_friendly_word].
    now apply folder_friendly_ascii, name_part_selects.
Qed.

Lemma general_when_no_predicate (e : Email) :
  no_predicate_matches e = true ->
  _enhanced_categorize_email e = ("general", _extract_sender_name (sender e)).
Proof.
  unfold no_predicate_matches, _enhanced_categorize_email. cbv zeta.
  intros H. apply negb_true_iff in H.
  repeat match goal with
         | |- context [if ?b then _ else _] =>
             destruct b; [simpl in H; rewrite ?orb_true_r in H; discriminate|]
         end.
  reflexivity.
Qed.

(** The [invoice] and [receipt] branches of [_detect_billing_type] are
    never taken by the chain: a subject with either word is a company
    message (or a bank message) before the billing predicate is asked. *)
Lemma billing_never_invoice (e : Email) :
  fst (_enhanced_categorize_email e) = "billing" ->
  contains "invoice" (lower (subject e)) = false
  /\ contains "receipt" (lower (subject e)) = false.
Proof.
  unfold _enhanced_categorize_email. cbv zeta.
  repeat match goal with
         | |- context [if ?b then _ else _] =>
             lazymatch b with
             | _is_company_email _ _ _ => fail
             | _ => destruct b; [simpl; discriminate|]
             end
         end.
  destruct (_is_company_email _ _ _) eqn:E; [simpl; discriminate|].
  intros _. unfold _is_company_email, any_in in E. simpl in E.
  repeat (apply orb_false_iff in E; destruct E as [? E]). now split.
Qed.

(** C6 (the code at the scenario of the claim): the message with
    subject "Invoice #1234 due" from billing@vendor.com, whatever its other
    fields, is assigned main category "company" with sub-category "vendor",
    not "billing": the company predicate, asked before the billing one,
    holds of every subject with the word "invoice". *)
Theorem invoice_scenario_is_company :
  forall i acc d b c mc sc r h mid,
    _enhanced_categorize_email
      (mkEmail i acc "Invoice #1234 due" "billing@vendor.com" d b c mc sc r h mid)
    = ("company", "vendor").
Proof. intros. reflexivity. Qed.

(** C7 (amended): for every message with subject and sender over the
    code points U+0000..U+00FF that matches no hierarchical predicate, the
    result is ("general", slug), where the slug is the sender name computed
    from the sender field alone, is not empty, is unchanged by lower-casing
    and holds only alphanumeric characters and underscores; when the sender
    is made of ASCII characters the slug holds only characters of
    [a-z0-9_]. *)
Theorem general_slug_from_sender :
  forall e : Email,
    no_predicate_matches e = true ->
    exists slug,
      _enhanced_categorize_email e = ("general", slug)
      /\ slug = _extract_sender_name (sender e)
      /\ slug <> EmptyString
      /\ lower slug = slug
      /\ forallb_str word_char slug = true
      /\ (forallb_str is_ascii (sender e) = true -> forallb_str is_slug_char slug = true).
Proof.
  intros e H. exists (_extract_sender_name (sender e)).
  split; [now apply general_when_no_predicate|].
  split; [reflexivity|].
  split; [apply sender_name_nonempty|].
  split; [apply sender_name_lower|].
  split; [apply sender_name_word|apply sender_name_slug].
Qed.

Definition newsletter_from_jane : Email :=
  plain_email "Lunch on Friday?" "Jane Doe <jane.doe@example.org>" "See you there".

Lemma general_slug_from_sender_witness :
  no_predicate_matches newsletter_from_jane = true
  /\ exists slug,
      _enhanced_categorize_email newsletter_from_jane = ("general", slug)
      /\ slug = _extract_sender_name (sender newsletter_from_jane)
      /\ slug <> EmptyString
      /\ lower slug = slug
      /\ forallb_str word_char slug = true
      /\ (forallb_str is_ascii (sender newsletter_from_jane) = true ->
          forallb_str is_slug_char slug = true).
Proof.
  split; [reflexivity|].
  apply (general_slug_from_sender newsletter_from_jane). reflexivity.
Defined.

(** A sender whose display name is "Jos" followed by U+00E9. *)
Definition jose : string := "Jos" ++ String (ascii_of_nat 233) " <jose@example.org>".

(** C7 (as stated) fails: the message matches no predicate and its slug
    keeps the letter U+00E9, which is outside [a-z0-9_]. *)
Lemma slug_outside_ascii_class :
  no_predicate_matches (plain_email "Hello" jose EmptyString) = true
  /\ _enhanced_categorize_email (plain_email "Hello" jose EmptyString)
     = ("general", "jos" ++ String (ascii_of_nat 233) EmptyString)
  /\ forallb_str is_slug_char (snd (_enhanced_categorize_email (plain_email "Hello" jose EmptyString)))
     = false.
Proof. repeat split. Qed.

End HierProps.

(** ** The flat weighted categorizer *)

Module FlatProps.
Import PyStr Flat.

(** No rule dictionary has a ["category"] key, so the compiled patterns
    are looked up under the empty name and none is found. *)
Lemma rules_have_no_category_key :
  forallb (fun cr => match dict_get (snd cr) "category" with None => true | Some _ => false end)
          category_rules = true.
Proof. reflexivity. Qed.

Lemma no_patterns_under_empty_name : dict_get compiled_patterns EmptyString = None.
Proof. reflexivity. Qed.

(** Hence the score of each rule is its priority bonus, whatever the text. *)
Lemma scores_are_priority_bonus (text sender : string) :
  collect_scores text sender category_rules =
  Some [ ("billing", 2.0%float); ("support", 1.5%float); ("marketing", 1.0%float);
         ("notification", 0.5%float); ("security", 2.5%float) ].
Proof. vm_compute. reflexivity. Qed.

(** C1 (the code on every message): [categorize_email] returns
    "security" for every email, because every rule scores its priority bonus
    alone and the rule of priority 0 has the largest; keyword and sender
    matches are never counted and "general" is never returned. *)
Theorem categorize_email_always_security :
  forall e : Email, categorize_email e = "security".
Proof.
  intros e. unfold categorize_email.
  rewrite scores_are_priority_bonus. reflexivity.
Qed.

(** With the patterns of the rule's own category, as the specification
    describes the score, the billing rule scores 12.5 on the invoice message
    (two keywords, one sender pattern, weight 1.5, priority 1) and the
    security rule 2.5. *)
Lemma spec_score_invoice_billing :
  spec_score "invoice #1234 due billing@vendor.com " "billing@vendor.com" "billing"
    (match dict_get category_rules "billing" with Some r => r | None => [] end)
  = Some 12.5%float
  /\ spec_score "invoice #1234 due billing@vendor.com " "billing@vendor.com" "security"
       (match dict_get category_rules "security" with Some r => r | None => [] end)
     = Some 2.5%float.
Proof. split; vm_compute; reflexivity. Qed.

End FlatProps.

(** ** Header and body decoding *)

Module CodecProps.
Import Codec.
Local Open Scope list_scope.

(** Latin-1 decoding is total: every byte is a code point. *)
Lemma decode_latin1_total (b : bytes) : decode_latin1 b = Ok (map Byte.to_N b).
Proof.
  unfold decode_latin1. induction b as [|x rest IH]; simpl; [reflexivity|].
  now rewrite IH.
Qed.

(** A permissive UTF-8 decode never raises. *)
Lemma decode_utf8_ignore_ok (b : bytes) : exists t, decode_utf8 Ignore b = Ok t.
Proof. unfold decode_utf8. eauto. Qed.

Lemma decode_chain_cases (payload : bytes) :
  (exists t, decode_utf8 Strict payload = Ok t /\ decode_chain payload = (Utf8, t, []))
  \/ (exists e, decode_utf8 Strict payload = Raise e
                /\ decode_chain payload = (Latin1, map Byte.to_N payload, [])).
Proof.
  unfold decode_chain. destruct (decode_utf8 Strict payload) as [t|e] eqn:E.
  - left. eauto.
  - right. exists e. now rewrite decode_latin1_total.
Qed.

Lemma decode_payload_log (body : text) (p : part) (t : text) (l : list log_entry) :
  decode_payload body p = Ok (t, l) -> l = [].
Proof.
  unfold decode_payload. destruct (get_payload p) as [[b|]|e]; simpl; try discriminate.
  - destruct (decode_chain_cases b) as [[t' [_ ->]]|[e [_ ->]]]; congruence.
  - congruence.
Qed.

Lemma extract_body_try_log (m : message) (t : text) (l : list log_entry) :
  extract_body_try m = Ok (t, l) -> l = [].
Proof.
  destruct m as [p|parts]; simpl.
  - apply decode_payload_log.
  - destruct (first_plain parts) as [p|]; [apply decode_payload_log|congruence].
Qed.

(** C10: for every payload the chain stops at the UTF-8 or at the
    Latin-1 attempt and logs nothing, so the branch that logs a decode
    failure and leaves the body empty is never taken; and for every message
    [_extract_email_body] returns a body: it never raises, its log never
    holds the decode-failure entry, and when the extraction itself raises the
    body is empty and that error is logged. *)
Theorem body_decoding_never_fails :
  (forall payload : bytes,
      exists t, (decode_chain payload = (Utf8, t, [])
                 \/ decode_chain payload = (Latin1, t, [])))
  /\ (forall m : message,
         exists body l,
           _extract_email_body m = (Ok body, l)
           /\ ~ In (LogError "Body decode failed") l
           /\ (forall e, extract_body_try m = Raise e ->
                         body = [] /\ l = [LogError "Error extracting email body"])).
Proof.
  split.
  - intros payload.
    destruct (decode_chain_cases payload) as [[t [_ H]]|[e [_ H]]]; eauto.
  - intros m. unfold _extract_email_body.
    destruct (extract_body_try m) as [[t l]|e] eqn:E.
    + exists (strip_cp t), l. split; [reflexivity|].
      apply extract_body_try_log in E. subst l.
      split; [intros []|discriminate].
    + eexists _, _. split; [reflexivity|]. split.
      * intros [H|[]]. discriminate.
      * intros e' _. split; reflexivity.
Qed.

(** A part whose payload cannot be read, and a Latin-1 payload. *)
Definition unreadable_part : part :=
  mkPart "text/plain" None (Raise (Exception "payload")).

Lemma body_decoding_never_fails_witness :
  (exists t, decode_chain [Byte.x63; Byte.xe9] = (Utf8, t, [])
             \/ decode_chain [Byte.x63; Byte.xe9] = (Latin1, t, []))
  /\ _extract_email_body (Single unreadable_part)
     = (Ok [], [LogError "Error extracting email body"]).
Proof.
  destruct body_decoding_never_fails as [H1 H2]. split; [apply H1|].
  destruct (H2 (Single unreadable_part)) as (body & l & E & _ & H).
  destruct (H (Exception "payload") eq_refl) as [-> ->]. exact E.
Defined.

Section HeaderProps.
Variable extra : string -> option (bytes -> outcome text).

(** How [_decode_header] reads one segment: a byte segment with a declared
    character set is decoded with it, a byte segment without one as UTF-8
    with the undecodable bytes dropped, a text segment is kept. *)
Definition decode_segment (seg : hpart * option string) : outcome text :=
  match seg with
  | (HBytes b, Some (String c e)) => decode_with extra (String c e) b
  | (HBytes b, _) => decode_utf8 Ignore b
  | (HStr s, _) => Ok s
  end.

Lemma decode_parts_cons (seg : hpart * option string) (rest : parsed_header) (acc : text) :
  decode_parts extra (seg :: rest) acc =
  (t <- decode_segment seg ;; decode_parts extra rest (acc ++ t)).
Proof.
  destruct seg as [[b|s] [[|c e]|]]; reflexivity.
Qed.

(** When every segment decodes, the result is the concatenation. *)
Lemma decode_parts_all_ok (parts : parsed_header) (ts : list text) (acc : text) :
  Forall2 (fun seg t => decode_segment seg = Ok t) parts ts ->
  decode_parts extra parts acc = Ok (acc ++ List.concat ts).
Proof.
  intros H. revert acc. induction H as [|seg t parts ts Hseg _ IH]; intros acc.
  - simpl. now rewrite app_nil_r.
  - rewrite decode_parts_cons, Hseg. simpl. rewrite IH. now rewrite app_assoc.
Qed.

(** When a segment does not decode, the loop raises. *)
Lemma decode_parts_some_raise (parts : parsed_header) (acc : text) :
  Exists (fun seg => exists e, decode_segment seg = Raise e) parts ->
  exists e, decode_parts extra parts acc = Raise e.
Proof.
  intros H. revert acc. induction H as [seg rest [e He]|seg rest _ IH]; intros acc.
  - rewrite decode_parts_cons, He. simpl. eauto.
  - rewrite decode_parts_cons. destruct (decode_segment seg) as [t|e]; simpl; eauto.
Qed.

(** How [_decode_email_header] reads one segment: a byte segment is
    decoded with its declared character set, strictly as UTF-8 when none is
    declared; a text segment is kept. *)
Definition decode_segment_strict (seg : hpart * option string) : outcome text :=
  match seg with
  | (HBytes b, charset) =>
      decode_with extra (match charset with Some (String c e) => String c e | _ => "utf-8" end) b
  | (HStr s, _) => Ok s
  end.

Lemma decode_parts_strict_cons (seg : hpart * option string) (rest : parsed_header) :
  decode_parts_strict extra (seg :: rest) =
  (t <- decode_segment_strict seg ;; r <- decode_parts_strict extra rest ;; Ok (t :: r)).
Proof.
  destruct seg as [[b|s] charset]; reflexivity.
Qed.

Lemma decode_parts_strict_all_ok (parts : parsed_header) (ts : list text) :
  Forall2 (fun seg t => decode_segment_strict seg = Ok t) parts ts ->
  decode_parts_strict extra parts = Ok ts.
Proof.
  induction 1 as [|seg t parts ts Hseg _ IH]; [reflexivity|].
  rewrite decode_parts_strict_cons, Hseg, IH. reflexivity.
Qed.

Lemma decode_parts_strict_some_raise (parts : parsed_header) :
  Exists (fun seg => exists e, decode_segment_strict seg = Raise e) parts ->
  exists e, decode_parts_strict extra parts = Raise e.
Proof.
  induction 1 as [seg rest [e He]|seg rest _ [e IH]].
  - rewrite decode_parts_strict_cons, He. simpl. eauto.
  - rewrite decode_parts_strict_cons, IH.
    destruct (decode_segment_strict seg) as [t|e']; simpl; eauto.
Qed.

(** A segment that [_decode_header] cannot decode has a declared
    character set, and [_decode_email_header] cannot decode it either. *)
Lemma decode_segment_raise (seg : hpart * option string) (e : exn) :
  decode_segment seg = Raise e -> decode_segment_strict seg = Raise e.
Proof.
  destruct seg as [[b|s] [[|c cs]|]]; simpl; try discriminate; auto.
Qed.

Lemma decode_email_header_raise (h : text) (parsed : outcome parsed_header) :
  (forall parts, parsed = Ok parts ->
     Exists (fun seg => exists e, decode_segment_strict seg = Raise e) parts) ->
  _decode_email_header extra (Some h) parsed = (Ok [], [LogError "Error decoding header"]).
Proof.
  intros H. unfold _decode_email_header. destruct parsed as [parts|e]; simpl; [|reflexivity].
  destruct (decode_parts_strict_some_raise parts (H parts eq_refl)) as [e ->]. reflexivity.
Qed.

Lemma decode_header_ok (header : option text) (parsed : outcome parsed_header) :
  exists t, _decode_header extra header parsed = Ok t.
Proof.
  unfold _decode_header. destruct header as [[|c h]|]; eauto.
  destruct (parts <- parsed ;; decode_parts extra parts []); simpl; eauto.
Qed.

Lemma decode_email_header_ok (header : option text) (parsed : outcome parsed_header) :
  exists t l, _decode_email_header extra header parsed = (Ok t, l).
Proof.
  unfold _decode_email_header. destruct header as [h|]; eauto.
  destruct (parts <- parsed ;; l <- decode_parts_strict extra parts ;; Ok (join_space l));
    eauto.
Qed.

(** C8 (amended): header decoding never raises and always returns a
    text, and a missing header gives the empty text.  In [_decode_header]
    each byte segment is decoded with its declared character set, or as
    UTF-8 with the undecodable bytes dropped when none is declared, and the
    result is the concatenation of the segments; when a segment does not
    decode under its declared character set (or the set is unknown), or the
    header does not parse, there is no permissive second decode:
    [_decode_header] returns the header as it came, and
    [_decode_email_header] logs the error and returns the empty text.
    [_decode_email_header] also does so when a segment without a declared
    character set is not UTF-8; when every segment decodes it returns the
    segments joined by spaces and logs nothing. *)
Theorem header_decoding_total :
  forall (header : option text) (parsed : outcome parsed_header),
    (exists t, _decode_header extra header parsed = Ok t)
    /\ (exists t l, _decode_email_header extra header parsed = (Ok t, l))
    /\ _decode_header extra None parsed = Ok []
    /\ _decode_email_header extra None parsed = (Ok [], [])
    /\ (forall c h parts ts,
           parsed = Ok parts ->
           Forall2 (fun seg t => decode_segment seg = Ok t) parts ts ->
           _decode_header extra (Some (c :: h)) parsed = Ok (List.concat ts))
    /\ (forall c h parts,
           parsed = Ok parts ->
           Exists (fun seg => exists e, decode_segment seg = Raise e) parts ->
           _decode_header extra (Some (c :: h)) parsed = Ok (c :: h))
    /\ (forall c h e,
           parsed = Raise e ->
           _decode_header extra (Some (c :: h)) parsed = Ok (c :: h))
    /\ (forall h parts,
           parsed = Ok parts ->
           Exists (fun seg => exists e, decode_segment seg = Raise e) parts ->
           _decode_email_header extra (Some h) parsed
           = (Ok [], [LogError "Error decoding header"]))
    /\ (forall h e,
           parsed = Raise e ->
           _decode_email_header extra (Some h) parsed
           = (Ok [], [LogError "Error decoding header"]))
    /\ (forall h parts,
           parsed = Ok parts ->
           Exists (fun seg => exists e, decode_segment_strict seg = Raise e) parts ->
           _decode_email_header extra (Some h) parsed
           = (Ok [], [LogError "Error decoding header"]))
    /\ (forall h parts ts,
           parsed = Ok parts ->
           Forall2 (fun seg t => decode_segment_strict seg = Ok t) parts ts ->
           _decode_email_header extra (Some h) parsed = (Ok (join_space ts), [])).
Proof.
  intros header parsed.
  split; [apply decode_header_ok|].
  split; [apply decode_email_header_ok|].
  split; [reflexivity|]. split; [reflexivity|].
  split; [|split; [|split; [|split; [|split; [|split]]]]].
  - intros c h parts ts -> H. unfold _decode_header. simpl.
    now rewrite (decode_parts_all_ok _ _ [] H).
  - intros c h parts -> H. unfold _decode_header. simpl.
    destruct (decode_parts_some_raise _ [] H) as [e ->]. reflexivity.
  - intros c h e ->. reflexivity.
  - intros h parts -> H. apply decode_email_header_raise.
    intros parts' E. injection E as <-.
    eapply Exists_impl; [|exact H].
    intros seg [e He]. exists e. now apply decode_segment_raise.
  - intros h e ->. reflexivity.
  - intros h parts -> H. apply decode_email_header_raise.
    intros parts' E. injection E as <-. exact H.
  - intros h parts ts -> H. unfold _decode_email_header. simpl.
    now rewrite (decode_parts_strict_all_ok _ _ H).
Qed.

End HeaderProps.

(** The header [=?utf-8?q?caf=C3=A9?= =?iso-8859-1?q?=E9?=]: two segments
    that decode under their declared character sets. *)
Definition two_charsets_header : text :=
  to_text "=?utf-8?q?caf=C3=A9?= =?iso-8859-1?q?=E9?=".

Definition two_charsets_parsed : parsed_header :=
  [ (HBytes [Byte.x63; Byte.x61; Byte.x66; Byte.xc3; Byte.xa9], Some "utf-8");
    (HBytes [Byte.xe9], Some "iso-8859-1") ].

(** The header [=?utf-8?q?=E9?=]: one segment, the byte E9, declared as
    UTF-8, which it is not. *)
Definition bad_utf8_header : text := to_text "=?utf-8?q?=E9?=".

Definition bad_utf8_parsed : outcome parsed_header :=
  Ok [(HBytes [Byte.xe9], Some "utf-8")].

Lemma header_decoding_total_witness :
  _decode_header (fun _ => None) (Some two_charsets_header) (Ok two_charsets_parsed)
  = Ok [99; 97; 102; 233; 233]%N
  /\ _decode_email_header (fun _ => None) (Some two_charsets_header) (Ok two_charsets_parsed)
     = (Ok [99; 97; 102; 233; 32; 233]%N, [])
  /\ _decode_header (fun _ => None) (Some bad_utf8_header) bad_utf8_parsed
     = Ok bad_utf8_header
  /\ _decode_email_header (fun _ => None) (Some bad_utf8_header) bad_utf8_parsed
     = (Ok [], [LogError "Error decoding header"]).
Proof.
  destruct (header_decoding_total (fun _ => None) (Some two_charsets_header)
              (Ok two_charsets_parsed)) as (_ & _ & _ & _ & H1 & _ & _ & _ & _ & _ & H2).
  destruct (header_decoding_total (fun _ => None) (Some bad_utf8_header) bad_utf8_parsed)
    as (_ & _ & _ & _ & _ & H3 & _ & H4 & _).
  split; [|split; [|split]].
  - apply (H1 61%N (tl two_charsets_header) two_charsets_parsed
              [[99; 97; 102; 233]%N; [233%N]] eq_refl).
    repeat constructor.
  - apply (H2 two_charsets_header two_charsets_parsed
              [[99; 97; 102; 233]%N; [233%N]] eq_refl).
    repeat constructor.
  - apply (H3 61%N (tl bad_utf8_header) [(HBytes [Byte.xe9], Some "utf-8")] eq_refl).
    constructor. exists UnicodeDecodeError. reflexivity.
  - apply (H4 bad_utf8_header [(HBytes [Byte.xe9], Some "utf-8")] eq_refl).
    constructor. exists UnicodeDecodeError. reflexivity.
Defined.

(** C8 (as stated) fails: for a segment that is not text of its
    declared character set, [_decode_header] returns the raw header and
    [_decode_email_header] the empty text; neither is the permissive decode,
    which would give U+FFFD. *)
Lemma wrong_charset_is_not_replaced :
  decode_utf8 Replace [Byte.xe9] = Ok [65533%N]
  /\ _decode_header (fun _ => None) (Some bad_utf8_header) bad_utf8_parsed
     = Ok bad_utf8_header
  /\ _decode_header (fun _ => None) (Some bad_utf8_header) bad_utf8_parsed
     <> decode_utf8 Replace [Byte.xe9]
  /\ _decode_email_header (fun _ => None) (Some bad_utf8_header) bad_utf8_parsed
     = (Ok [], [LogError "Error decoding header"]).
Proof.
  split; [reflexivity|]. split; [reflexivity|]. split; [|reflexivity].
  vm_compute. discriminate.
Qed.

End CodecProps.

(** ** The store and the per-account pipeline *)

Module PipelineProps.
Import Codec Store Pipeline.
Local Open Scope list_scope.

(** *** Hashing the candidates of the pipeline never raises *)

Definition small (c : N) : Prop := (c < 55296)%N.

Lemma encode_cp_small (c : N) : small c -> exists d, encode_cp c = Ok d.
Proof.
  unfold small, encode_cp. intros H.
  destruct (Z.of_N c <? 128)%Z; [eauto|].
  destruct (Z.of_N c <? 2048)%Z; [eauto|].
  destruct ((55296 <=? Z.of_N c) && (Z.of_N c <=? 57343))%Z eqn:E.
  - apply andb_true_iff in E as [E _]. apply Z.leb_le in E. lia.
  - destruct (Z.of_N c <? 65536)%Z eqn:E2; [eauto|]. apply Z.ltb_ge in E2. lia.
Qed.

Lemma encode_utf8_small (t : text) : Forall small t -> exists d, encode_utf8 t = Ok d.
Proof.
  induction 1 as [|c r Hc _ [d IH]]; simpl; [eauto|].
  destruct (encode_cp_small c Hc) as [dc ->]. rewrite IH. simpl. eauto.
Qed.

Lemma to_text_small (s : string) : Forall small (to_text s).
Proof.
  induction s as [|c r IH]; simpl; constructor; [|assumption].
  unfold small. pose proof (N_ascii_bounded c). lia.
Qed.

Definition is_digit (c : N) : Prop := (48 <= c <= 57)%N.

Lemma uint_digits_digit (u : Decimal.uint) : Forall is_digit (uint_digits u).
Proof. induction u; simpl; constructor; unfold is_digit; try lia; assumption. Qed.

Lemma decimal_small (n : N) : Forall small (decimal n).
Proof.
  eapply Forall_impl; [|apply uint_digits_digit].
  unfold is_digit, small. intros; lia.
Qed.

Lemma uint_digits_inj (u v : Decimal.uint) : uint_digits u = uint_digits v -> u = v.
Proof.
  revert v. induction u; intros v; destruct v; simpl; intros H;
    try discriminate; try reflexivity; injection H as H; f_equal; auto.
Qed.

Lemma decimal_inj (n n' : N) : decimal n = decimal n' -> n = n'.
Proof.
  intros H. now apply DecimalN.Unsigned.to_uint_inj, uint_digits_inj.
Qed.

Lemma decimal_nonempty (n : N) : decimal n <> [].
Proof.
  unfold decimal. destruct n as [|p]; simpl; [discriminate|].
  pose proof (DecimalPos.Unsigned.to_uint_nonnil p) as H.
  destruct (Pos.to_uint p); simpl; congruence.
Qed.

(** The candidate [_fetch_single_email] builds from a parsed message. *)
Definition candidate (account : string) (m : raw_message) : Email :=
  mkEmail (IdStr (decimal (seq m))) account (raw_subject m) (raw_sender m)
          (Some (timestamp m))
          (raw_body m) "general" "general" "general" (raw_seen m)
          (if truthy (raw_message_id m) then None else Some (raw_msg_hash m))
          (raw_message_id m).

Definition content_hash (account : string) (m : raw_message) : string :=
  match generate_email_hash (timestamp m) (candidate account m) with
  | Ok h => h
  | Raise _ => EmptyString
  end.

Lemma generate_email_hash_candidate (now account : string) (m : raw_message) :
  generate_email_hash now (candidate account m) = Ok (content_hash account m).
Proof.
  unfold content_hash, generate_email_hash. simpl.
  match goal with |- context [encode_utf8 ?t] => destruct (encode_utf8_small t) as [d ->] end.
  - repeat first [ apply to_text_small | apply decimal_small
                 | apply Forall_app; split
                 | apply Forall_cons; [unfold small; lia|] ].
  - reflexivity.
Qed.

(** An MD5 digest in hexadecimal is never the empty string. *)
Lemma hexdigest_truthy (data : list Z) : truthy (Some (MD5.hexdigest data)) = true.
Proof.
  unfold MD5.hexdigest, MD5.digest, MD5.le_bytes. simpl. reflexivity.
Qed.

Lemma content_hash_truthy (account : string) (m : raw_message) :
  truthy (Some (content_hash account m)) = true.
Proof.
  pose proof (generate_email_hash_candidate EmptyString account m) as H.
  unfold generate_email_hash in H. simpl in H.
  destruct (encode_utf8 _) as [d|e]; simpl in H; [|discriminate].
  injection H as <-. apply hexdigest_truthy.
Qed.

(** *** The store with a working connection *)

(** The query of [email_exists]. *)
Definition row_matches (message_id : option string) (email_hash : string) (r : row) : bool :=
  match message_id with
  | Some (String c m) => String.eqb (r_message_id r) (String c m)
  | _ => String.eqb (r_email_hash r) email_hash
  end.

Lemma email_exists_healthy (w : world) (mid : option string) (h : string) :
  conns w = [] -> truthy (Some h) = true ->
  email_exists w mid (Some h) = (option_map r_id (find (row_matches mid h) (emails w)), w).
Proof.
  intros Hc Hh. unfold email_exists, get_connection. rewrite Hc, Hh.
  rewrite andb_false_r. unfold row_matches.
  destruct mid as [[|c m]|]; reflexivity.
Qed.

Lemma save_email_healthy (w : world) (e : Email) (i : text) :
  conns w = [] -> mem_str (account_email e) (accounts w) = true ->
  clean_id (id e) = Ok i ->
  save_email w e =
  (true, add_log (set_emails w (upsert (row_of w i e) (emails w))) (LogInfo "Email saved")).
Proof.
  intros Hc Ha Hi. unfold save_email, get_connection. now rewrite Hc, Ha, Hi.
Qed.

(** An id that [save_email] stores as it is: not empty and not of the
    form [b'...']. *)
Definition plain (i : text) : bool :=
  match i with
  | [] => false
  | _ => negb (starts_with [98; 39]%N i && N.eqb (last i 0%N) 39)
  end.

Lemma clean_plain (i : text) : plain i = true -> clean_id (IdStr i) = Ok i.
Proof.
  unfold plain, clean_id. destruct i; [discriminate|].
  intros H. apply negb_true_iff in H. now rewrite H.
Qed.

Lemma decimal_plain (n : N) : plain (decimal n) = true.
Proof.
  pose proof (decimal_nonempty n) as Hne.
  pose proof (uint_digits_digit (N.to_uint n)) as Hd. fold (decimal n) in Hd.
  destruct (decimal n) as [|c r]; [congruence|].
  inversion Hd as [|? ? Hc _]; subst. unfold plain, is_digit in *.
  cbn [starts_with]. destruct (N.eqb_spec 98 c); [lia|reflexivity].
Qed.

Lemma text_eqb_eq (a b : text) : text_eqb a b = true <-> a = b.
Proof. unfold text_eqb. destruct (list_eq_dec N.eq_dec a b); split; congruence. Qed.

Lemma text_eqb_refl (a : text) : text_eqb a a = true.
Proof. now apply text_eqb_eq. Qed.

Lemma upsert_present (r : row) (rows : list row) :
  has_id (r_id r) rows = true -> List.length (upsert r rows) = List.length rows.
Proof.
  induction rows as [|x rest IH]; simpl; [discriminate|].
  destruct (text_eqb (r_id x) (r_id r)) eqn:E; simpl; [reflexivity|].
  intros H. now rewrite IH.
Qed.

Lemma upsert_absent (r : row) (rows : list row) :
  has_id (r_id r) rows = false -> upsert r rows = rows ++ [r].
Proof.
  induction rows as [|x rest IH]; simpl; [reflexivity|].
  destruct (text_eqb (r_id x) (r_id r)) eqn:E; simpl; [discriminate|].
  intros H. now rewrite IH.
Qed.

Lemma has_id_in (i : text) (rows : list row) :
  has_id i rows = true <-> exists r, In r rows /\ r_id r = i.
Proof.
  unfold has_id. rewrite existsb_exists. split; intros [r [Hin H]]; exists r; split; auto.
  - now apply text_eqb_eq.
  - now apply text_eqb_eq.
Qed.

Lemma find_has_id (f : row -> bool) (rows : list row) (r : row) :
  find f rows = Some r -> has_id (r_id r) rows = true.
Proof.
  intros H. apply find_some in H as [Hin _]. apply has_id_in. eauto.
Qed.

(** After an upsert the row with the new values is in the table. *)
Lemma upsert_stores (r : row) (rows : list row) :
  exists r', In r' (upsert r rows) /\ r_id r' = r_id r
             /\ r_email_hash r' = r_email_hash r /\ r_message_id r' = r_message_id r.
Proof.
  induction rows as [|x rest [r' [Hin H]]]; simpl.
  - exists r. auto.
  - destruct (text_eqb (r_id x) (r_id r)) eqn:E.
    + exists (update_row x r). simpl. apply text_eqb_eq in E. auto.
    + exists r'. simpl. auto.
Qed.

(** *** One step of the loop in a world with a working connection *)

(** The candidate just before the duplicate check. *)
Definition prepared (account : string) (m : raw_message) : Email :=
  prepare (candidate account m) (content_hash account m).

Lemma prepared_fields (account : string) (m : raw_message) :
  id (prepared account m) = IdStr (decimal (seq m))
  /\ account_email (prepared account m) = account
  /\ message_id (prepared account m) = raw_message_id m
  /\ email_hash (prepared account m) = Some (content_hash account m).
Proof.
  unfold prepared, prepare.
  destruct (Hier._enhanced_categorize_email _) as [main sub]. simpl. auto.
Qed.

Lemma row_of_set_id (w : world) (i j : text) (e : Email) :
  row_of w i (set_id e j) = row_of w i e.
Proof. reflexivity. Qed.

Definition saved (w : world) (rows : list row) (last_entry : string) : world :=
  add_log (add_log (set_emails w rows) (LogInfo "Email saved")) (LogInfo last_entry).

(** The message is found: its row is updated and it is not reported. *)
Lemma step_found (w : world) (account : string) (es : list Email) (m : raw_message) (r0 : row) :
  conns w = [] -> mem_str account (accounts w) = true ->
  find (row_matches (raw_message_id m) (content_hash account m)) (emails w) = Some r0 ->
  plain (r_id r0) = true ->
  process_message account (w, es) (Some m) =
  (saved w (upsert (row_of w (r_id r0) (prepared account m)) (emails w))
         "Email updated", es).
Proof.
  intros Hc Ha Hf Hp.
  unfold process_message, process_candidate. simpl.
  change (mkEmail _ _ _ _ _ _ _ _ _ _ _ _) with (candidate account m).
  rewrite generate_email_hash_candidate.
  fold (prepared account m).
  destruct (prepared_fields account m) as (Hid & Hacc & Hmid & Hh).
  rewrite Hmid, Hh.
  rewrite email_exists_healthy by (auto using content_hash_truthy).
  rewrite Hf. simpl.
  destruct (r_id r0) as [|c i] eqn:Er; [discriminate|].
  erewrite save_email_healthy;
    [| assumption
     | unfold set_id; cbn [account_email]; now rewrite Hacc
     | unfold set_id; cbn [id]; now apply clean_plain ].
  rewrite row_of_set_id. reflexivity.
Qed.

(** The message is not found: a row with its sequence number as id is
    written and it is reported as new. *)
Lemma step_new (w : world) (account : string) (es : list Email) (m : raw_message) :
  conns w = [] -> mem_str account (accounts w) = true ->
  find (row_matches (raw_message_id m) (content_hash account m)) (emails w) = None ->
  process_message account (w, es) (Some m) =
  (saved w (upsert (row_of w (decimal (seq m)) (prepared account m)) (emails w))
         "Email fetched and saved", es ++ [prepared account m]).
Proof.
  intros Hc Ha Hf.
  unfold process_message, process_candidate. simpl.
  change (mkEmail _ _ _ _ _ _ _ _ _ _ _ _) with (candidate account m).
  rewrite generate_email_hash_candidate.
  fold (prepared account m).
  destruct (prepared_fields account m) as (Hid & Hacc & Hmid & Hh).
  rewrite Hmid, Hh.
  rewrite email_exists_healthy by (auto using content_hash_truthy).
  rewrite Hf. simpl.
  erewrite save_email_healthy;
    [| assumption | now rewrite Hacc | rewrite Hid; apply clean_plain, decimal_plain].
  reflexivity.
Qed.

(** *** Facts about rows *)

Definition plain_rows (rows : list row) : Prop := Forall (fun r => plain (r_id r) = true) rows.

Lemma upsert_plain (r : row) (rows : list row) :
  plain (r_id r) = true -> plain_rows rows -> plain_rows (upsert r rows).
Proof.
  intros Hr. unfold plain_rows. induction 1 as [|x rest Hx Hrest IH]; simpl.
  - repeat constructor. assumption.
  - destruct (text_eqb (r_id x) (r_id r)); constructor; auto.
Qed.

Lemma find_exists (f : row -> bool) (rows : list row) (x : row) :
  In x rows -> f x = true -> exists y, find f rows = Some y.
Proof.
  intros Hin Hf. destruct (find f rows) as [y|] eqn:E; [eauto|].
  now rewrite (find_none _ _ E _ Hin) in Hf.
Qed.

Lemma row_matches_falsy (mid : option string) (h : string) (r : row) :
  truthy mid = false -> row_matches mid h r = String.eqb (r_email_hash r) h.
Proof. destruct mid as [[|c m]|]; simpl; [reflexivity|discriminate|reflexivity]. Qed.

Lemma content_hash_same_fields (account : string) (m1 m2 : raw_message) :
  raw_subject m1 = raw_subject m2 -> raw_sender m1 = raw_sender m2 ->
  timestamp m1 = timestamp m2 -> seq m1 = seq m2 ->
  content_hash account m1 = content_hash account m2.
Proof.
  intros Hs Hf Hd Hq. unfold content_hash, generate_email_hash, candidate. simpl.
  now rewrite Hs, Hf, Hd, Hq.
Qed.

Lemma row_of_hash (w : world) (i : text) (account : string) (m : raw_message) :
  r_email_hash (row_of w i (prepared account m)) = content_hash account m
  /\ r_message_id (row_of w i (prepared account m)) = or_empty (raw_message_id m)
  /\ r_id (row_of w i (prepared account m)) = i.
Proof.
  destruct (prepared_fields account m) as (_ & _ & Hmid & Hh).
  unfold row_of. cbn [r_email_hash r_message_id r_id]. now rewrite Hmid, Hh.
Qed.

(** What one step does to a world with a working connection, whichever
    way the lookup goes. *)
Lemma step_healthy (w : world) (account : string) (es : list Email) (m : raw_message) :
  conns w = [] -> mem_str account (accounts w) = true -> plain_rows (emails w) ->
  exists i last_entry es',
    plain i = true
    /\ process_message account (w, es) (Some m) =
       (saved w (upsert (row_of w i (prepared account m)) (emails w)) last_entry, es').
Proof.
  intros Hc Ha Hp.
  destruct (find (row_matches (raw_message_id m) (content_hash account m)) (emails w))
    as [r0|] eqn:Hf.
  - assert (Hr0 : plain (r_id r0) = true).
    { apply find_some in Hf as [Hin _].
      unfold plain_rows in Hp. rewrite Forall_forall in Hp. auto. }
    exists (r_id r0), "Email updated", es. split; [assumption|].
    now apply step_found.
  - exists (decimal (seq m)), "Email fetched and saved", (es ++ [prepared account m]).
    split; [apply decimal_plain|]. now apply step_new.
Qed.

(** *** C2 *)

(** C2 (amended): for every candidate of the pipeline that carries a
    message identifier (and, as every candidate does, a content hash), in a
    world with a working connection and plain stored ids, the existence
    lookup is the query by message identifier alone: it returns the id of
    the first row with that message identifier, whatever the content hash;
    and when such a row is found the candidate is saved under the stored id,
    which updates that row: the message is not reported as new, the number
    of rows is unchanged and the row now carries the candidate's message
    identifier and hash. *)
Theorem lookup_by_message_id_then_update :
  forall (w : world) (account : string) (es : list Email) (m : raw_message)
         (c : ascii) (mid : string),
    conns w = [] -> mem_str account (accounts w) = true ->
    plain_rows (emails w) ->
    raw_message_id m = Some (String c mid) ->
    let h := content_hash account m in
    let by_mid := fun r => String.eqb (r_message_id r) (String c mid) in
    fst (email_exists w (Some (String c mid)) (Some h)) = option_map r_id (find by_mid (emails w))
    /\ forall r0, find by_mid (emails w) = Some r0 ->
         exists w',
           process_message account (w, es) (Some m) = (w', es)
           /\ List.length (emails w') = List.length (emails w)
           /\ exists r', In r' (emails w') /\ r_id r' = r_id r0
                         /\ r_message_id r' = String c mid /\ r_email_hash r' = h.
Proof.
  intros w account es m c mid Hc Ha Hp Hmid h by_mid. subst h by_mid. split.
  - rewrite email_exists_healthy; [reflexivity | assumption | apply content_hash_truthy].
  - intros r0 Hf.
    assert (Hr0 : plain (r_id r0) = true).
    { apply find_some in Hf as [Hin _].
      unfold plain_rows in Hp. rewrite Forall_forall in Hp. auto. }
    eexists. split.
    + apply step_found with (r0 := r0);
        [assumption | assumption | rewrite Hmid; exact Hf | assumption].
    + unfold saved. cbn [emails add_log set_emails].
      destruct (row_of_hash w (r_id r0) account m) as (Hh & Hm & Hi).
      split.
      * apply upsert_present. rewrite Hi. eapply find_has_id; eauto.
      * destruct (upsert_stores (row_of w (r_id r0) (prepared account m)) (emails w))
          as (r' & Hin & E1 & E2 & E3).
        exists r'. rewrite Hi in E1. rewrite Hh in E2. rewrite Hm, Hmid in E3. auto.
Qed.

Definition inbox_account : string := "me@example.com".

Definition clock : string := "2024-06-01 12:00:00".

Definition empty_world : world := mkWorld [inbox_account] [] [] clock [] [].

Definition greeting (n : N) (mid : option string) : raw_message :=
  mkRaw n "Hello" "bob@x.org" (Some "2024-01-01 10:00:00") clock "hi" mid false EmptyString.

(** A store with one row, id 7, message identifier <a@x>. *)
Definition row7 : row :=
  mkRow [55%N] inbox_account "Hello" "bob@x.org" "2024-01-01 10:00:00" "hi"
        "general_bob" "general" "bob" false
        "e16087b4fadd43ecc03d58a1434f8793" "<a@x>".

Definition world7 : world := mkWorld [inbox_account] [row7] [] clock [] [].

Lemma lookup_by_message_id_then_update_witness :
  fst (email_exists world7 (Some "<a@x>")
         (Some (content_hash inbox_account (greeting 1 (Some "<a@x>")))))
  = Some [55%N]
  /\ exists w',
       process_message inbox_account (world7, []) (Some (greeting 1 (Some "<a@x>"))) = (w', [])
       /\ List.length (emails w') = 1.
Proof.
  destruct (lookup_by_message_id_then_update world7 inbox_account []
              (greeting 1 (Some "<a@x>")) "<" "a@x>" eq_refl eq_refl
              ltac:(repeat constructor) eq_refl) as [H1 H2].
  split; [exact H1|].
  destruct (H2 row7 eq_refl) as (w' & Hw & Hl & _).
  exists w'. split; [exact Hw | exact Hl].
Defined.

(** C2 (as stated) fails: the stored row has the content hash of the
    candidate, but the candidate carries another message identifier; the
    lookup asks for the message identifier only and finds nothing, and the
    candidate is inserted as a second row and reported as new. *)
Lemma matching_hash_is_not_looked_up :
  let m := greeting 1 (Some "<b@x>") in
  let h := content_hash inbox_account m in
  r_email_hash row7 = h
  /\ fst (email_exists world7 (raw_message_id m) (Some h)) = None
  /\ List.length (emails (fst (process_message inbox_account (world7, []) (Some m)))) = 2
  /\ List.length (snd (process_message inbox_account (world7, []) (Some m))) = 1.
Proof. vm_compute. repeat split. Qed.

(** *** C3 *)

(** The text [generate_email_hash] hashes: subject, sender, timestamp and
    sequence number, joined by underscores. *)
Definition hashed_text (m : raw_message) : text :=
  to_text (raw_subject m) ++ [95%N] ++ to_text (raw_sender m) ++ [95%N]
  ++ to_text (timestamp m) ++ [95%N] ++ decimal (seq m).

(** The part of it before the sequence number. *)
Definition hashed_prefix (m : raw_message) : text :=
  to_text (raw_subject m) ++ [95%N] ++ to_text (raw_sender m) ++ [95%N]
  ++ to_text (timestamp m) ++ [95%N].

Lemma hashed_text_split (m : raw_message) :
  hashed_text m = hashed_prefix m ++ decimal (seq m).
Proof.
  unfold hashed_text, hashed_prefix. now rewrite <- !app_assoc.
Qed.

Lemma encode_utf8_app (a b : text) :
  encode_utf8 (a ++ b) = (x <- encode_utf8 a ;; y <- encode_utf8 b ;; Ok (x ++ y)).
Proof.
  induction a as [|c r IH]; simpl.
  - destruct (encode_utf8 b); reflexivity.
  - destruct (encode_cp c) as [d|e]; simpl; [|reflexivity].
    rewrite IH. destruct (encode_utf8 r) as [x|e]; simpl; [|reflexivity].
    destruct (encode_utf8 b) as [y|e]; simpl; [|reflexivity].
    now rewrite app_assoc.
Qed.

Lemma encode_utf8_digits (t : text) :
  Forall is_digit t -> encode_utf8 t = Ok (map Z.of_N t).
Proof.
  induction 1 as [|c r Hc _ IH]; simpl; [reflexivity|].
  rewrite IH. unfold encode_cp, is_digit in *.
  destruct (Z.ltb_spec (Z.of_N c) 128); [reflexivity|lia].
Qed.

Lemma map_of_N_inj (a b : text) : map Z.of_N a = map Z.of_N b -> a = b.
Proof.
  revert b. induction a as [|x r IH]; intros [|y s]; simpl; intros H;
    try discriminate; [reflexivity|].
  injection H as H1 H2. f_equal; [now apply N2Z.inj|now apply IH].
Qed.

(** The digest is the MD5 of the UTF-8 bytes of the hashed text, which are
    the bytes of the prefix followed by the digits of the sequence number. *)
Lemma content_hash_text (account : string) (m : raw_message) :
  exists prefix,
    encode_utf8 (hashed_prefix m) = Ok prefix
    /\ encode_utf8 (hashed_text m) = Ok (prefix ++ map Z.of_N (decimal (seq m)))
    /\ content_hash account m
       = MD5.hexdigest (prefix ++ map Z.of_N (decimal (seq m))).
Proof.
  destruct (encode_utf8_small (hashed_prefix m)) as [prefix Hp].
  { unfold hashed_prefix.
    repeat first [ apply to_text_small | apply Forall_app; split
                 | apply Forall_cons; [unfold small; lia|] | apply Forall_nil ]. }
  exists prefix. split; [exact Hp|].
  assert (Ht : encode_utf8 (hashed_text m) = Ok (prefix ++ map Z.of_N (decimal (seq m)))).
  { rewrite hashed_text_split, encode_utf8_app, Hp.
    pose proof (encode_utf8_digits (decimal (seq m)) (uint_digits_digit _)) as Hd.
    rewrite Hd. reflexivity. }
  split; [exact Ht|].
  unfold content_hash, generate_email_hash. cbn [id candidate bind date subject sender].
  fold (hashed_text m). now rewrite Ht.
Qed.


(** Two messages without a [Date] that parses, read at the same reading
    of the clock, and the same message under another sequence number. *)
Definition undated (n : N) (reading : string) : raw_message :=
  mkRaw n "Hello" "bob@x.org" None reading "hi" None false EmptyString.



(** *** C5 *)

Lemma prepare_fields (e : Email) (h : string) :
  id (prepare e h) = id e
  /\ account_email (prepare e h) = account_email e
  /\ message_id (prepare e h) = message_id e
  /\ email_hash (prepare e h) = Some h.
Proof.
  unfold prepare. destruct (Hier._enhanced_categorize_email _) as [main sub]. simpl. auto.
Qed.

(** The world after a lookup whose connection failed. *)
Definition after_failed_lookup (w : world) (rest : list bool) : world :=
  add_log (mkWorld (accounts w) (emails w) rest (now w) (connects w) (log w))
          (LogError "Error checking if email exists").

(** *** Rows and the primary key *)

(** With the primary key unique, the upsert of a present id rewrites the
    one row with that id. *)
Definition replace_row (r x : row) : row :=
  if text_eqb (r_id x) (r_id r) then update_row x r else x.

Lemma map_replace_absent (r : row) (rows : list row) :
  has_id (r_id r) rows = false -> map (replace_row r) rows = rows.
Proof.
  induction rows as [|x rest IH]; simpl; [reflexivity|].
  unfold replace_row at 1. destruct (text_eqb (r_id x) (r_id r)); simpl; [discriminate|].
  intros H. now rewrite IH.
Qed.

Lemma has_id_false (i : text) (rows : list row) :
  ~ In i (map r_id rows) -> has_id i rows = false.
Proof.
  intros H. destruct (has_id i rows) eqn:E; [|reflexivity].
  apply has_id_in in E as (r & Hin & <-). exfalso. apply H. now apply in_map.
Qed.

Lemma upsert_map (r : row) (rows : list row) :
  NoDup (map r_id rows) -> has_id (r_id r) rows = true ->
  upsert r rows = map (replace_row r) rows.
Proof.
  induction rows as [|x rest IH]; simpl; [discriminate|].
  intros Hnd. inversion Hnd as [|? ? Hx Hrest]; subst.
  unfold replace_row at 1.
  destruct (text_eqb (r_id x) (r_id r)) eqn:E; simpl.
  - intros _. apply text_eqb_eq in E. rewrite map_replace_absent; [reflexivity|].
    apply has_id_false. now rewrite <- E.
  - intros H. now rewrite IH.
Qed.

Lemma unique_row (rows : list row) (r r0 : row) :
  NoDup (map r_id rows) -> In r rows -> In r0 rows -> r_id r = r_id r0 -> r = r0.
Proof.
  induction rows as [|x rest IH]; simpl; [intros _ []|].
  intros Hnd. inversion Hnd as [|? ? Hx Hrest]; subst.
  intros [->|Hr] [->|Hr0] E; auto.
  - exfalso. apply Hx. rewrite E. now apply in_map.
  - exfalso. apply Hx. rewrite <- E. now apply in_map.
Qed.

(** *** C4: the second run over an unchanged mailbox *)

Definition later : string := "2024-06-02 12:00:00".

(** A mailbox of messages that all parse. *)
Definition inbox (l : list raw_message) : list (option fetched_message) :=
  map (fun m => Some (of_typed m)) l.

(** C4 (the code at a failing input): the mailbox first holds a message
    <x@x> at sequence number 1 and <a@x> at sequence number 2, and a fetch
    with limit 1 stores <a@x> under the id 2.  Then <x@x> is gone, <a@x> has
    the sequence number 1 and a new message <b@x> the sequence number 2.  The
    first run over that mailbox finds <a@x>, updates row 2 and then
    overwrites the same row for <b@x>, whose own id is 2; the second run
    over the same unchanged mailbox no longer finds <a@x>, inserts it as row
    1 and reports it as new: two rows after the second run, one after the
    first. *)
Theorem second_run_inserts_after_stale_row :
  let old_mailbox := inbox [greeting 1 (Some "<x@x>"); greeting 2 (Some "<a@x>")] in
  let mailbox := inbox [greeting 1 (Some "<a@x>"); greeting 2 (Some "<b@x>")] in
  let r0 := fetch_emails_from_account empty_world inbox_account (Some 1)
              (Search true old_mailbox) in
  let r1 := fetch_emails_from_account (snd r0) inbox_account None (Search true mailbox) in
  let r2 := fetch_emails_from_account (snd r1) inbox_account None (Search true mailbox) in
  map r_id (emails (snd r0)) = [[50%N]]
  /\ map r_message_id (emails (snd r0)) = ["<a@x>"]
  /\ map r_id (emails (snd r1)) = [[50%N]]
  /\ map r_message_id (emails (snd r1)) = ["<b@x>"]
  /\ map r_id (emails (snd r2)) = [[50%N]; [49%N]]
  /\ match fst r2 with
     | Ok [e] => id e = IdStr [49%N] /\ message_id e = Some "<a@x>"
     | _ => False
     end.
Proof. vm_compute. repeat split. Qed.

(** The same defect with two accounts: each mailbox holds one message,
    at sequence number 1.  Both messages are written to the row with id 1,
    which keeps the account and the content of the first and takes the
    message identifier of the last; at every pass over the two accounts each
    message is looked up by its message identifier, not found, and reported
    as new again. *)
Lemma two_accounts_share_row_one :
  let w0 := mkWorld ["a@example.com"; "b@example.com"] [] [] clock [] [] in
  let box_a := Search true (inbox [greeting 1 (Some "<a@x>")]) in
  let box_b := Search true (inbox [greeting 1 (Some "<b@x>")]) in
  let a1 := fetch_emails_from_account w0 "a@example.com" None box_a in
  let b1 := fetch_emails_from_account (snd a1) "b@example.com" None box_b in
  let a2 := fetch_emails_from_account (snd b1) "a@example.com" None box_a in
  let b2 := fetch_emails_from_account (snd a2) "b@example.com" None box_b in
  let new := fun r : outcome (list Email) * world =>
               match fst r with Ok es => List.length es | Raise _ => 0 end in
  new a1 = 1 /\ new b1 = 1 /\ new a2 = 1 /\ new b2 = 1
  /\ map r_id (emails (snd b2)) = [[49%N]]
  /\ map r_account_email (emails (snd b2)) = ["a@example.com"]
  /\ map r_message_id (emails (snd b2)) = ["<b@x>"].
Proof. vm_compute. repeat split. Qed.

(** A message with neither message identifier nor parseable date takes
    the reading of the clock as its timestamp: at a later run its hash is
    another one, the lookup does not find it and it is reported as new again,
    although the upsert on its sequence number adds no row. *)
Lemma undated_message_is_new_again :
  let r1 := fetch_emails_from_account empty_world inbox_account None
              (Search true (inbox [undated 1 clock])) in
  let r2 := fetch_emails_from_account (snd r1) inbox_account None
              (Search true (inbox [undated 1 later])) in
  List.length (emails (snd r1)) = 1
  /\ List.length (emails (snd r2)) = 1
  /\ match fst r2 with Ok [e] => id e = IdStr [49%N] | _ => False end.
Proof. vm_compute. repeat split. Qed.

(** *** Any message *)

Lemma typed_of_typed (m : raw_message) : typed (of_typed m) = Some m.
Proof. destruct m; reflexivity. Qed.

Lemma hash_of_typed (account : string) (m : raw_message) :
  generate_email_hash_raw (of_typed m) = Ok (content_hash account m).
Proof.
  rewrite <- (generate_email_hash_candidate EmptyString account m). reflexivity.
Qed.

(** On a message whose subject and sender are [str] over U+0000..U+00FF
    the loop body is [process_message]. *)
Lemma process_fetched_typed (account : string) (st : world * list Email) (m : raw_message) :
  process_fetched account st (Some (of_typed m)) = process_message account st (Some m).
Proof.
  unfold process_fetched. now rewrite (hash_of_typed account), typed_of_typed.
Qed.

Lemma fold_inbox (account : string) (l : list raw_message) (st : world * list Email) :
  fold_left (process_fetched account) (inbox l) st
  = fold_left (process_message account) (map Some l) st.
Proof.
  unfold inbox. revert st.
  induction l as [|m rest IH]; intros st; cbn [map fold_left]; [reflexivity|].
  rewrite process_fetched_typed. apply IH.
Qed.

(** A lone surrogate has no UTF-8 encoding. *)
Lemma encode_surrogate (before after : text) (k : N) :
  encode_utf8 (before ++ [surrogate k] ++ after) = Raise UnicodeEncodeError.
Proof.
  assert (Hs : encode_cp (surrogate k) = Raise UnicodeEncodeError).
  { unfold encode_cp, surrogate.
    pose proof (N.mod_upper_bound k 2048 ltac:(discriminate)) as Hk.
    generalize dependent (k mod 2048)%N. intros r Hr.
    destruct (Z.ltb_spec (Z.of_N (55296 + r)) 128); [lia|].
    destruct (Z.ltb_spec (Z.of_N (55296 + r)) 2048); [lia|].
    destruct (Z.leb_spec 55296 (Z.of_N (55296 + r))); [|lia].
    destruct (Z.leb_spec (Z.of_N (55296 + r)) 57343); [reflexivity|lia]. }
  assert (He : forall c, (exists d, encode_cp c = Ok d) \/ encode_cp c = Raise UnicodeEncodeError).
  { intros c. unfold encode_cp.
    repeat match goal with |- context [if ?b then _ else _] => destruct b end; eauto. }
  induction before as [|c r IH]; simpl.
  - now rewrite Hs.
  - destruct (He c) as [[d ->]| ->]; simpl; [|reflexivity].
    simpl in IH. now rewrite IH.
Qed.

Lemma hash_raises_on_surrogate (m : fetched_message) (before after : text) (k : N) :
  raw_subject m = Surrogate before k after \/ raw_sender m = Surrogate before k after ->
  generate_email_hash_raw m = Raise UnicodeEncodeError.
Proof.
  unfold generate_email_hash_raw. intros [H|H]; rewrite H; cbn [str_of].
  - rewrite <- !app_assoc. cbn [app].
    change (before ++ surrogate k :: ?x) with (before ++ [surrogate k] ++ x).
    now rewrite encode_surrogate.
  - match goal with
    | |- context [encode_utf8 (?s ++ [95%N] ++ (before ++ [surrogate k] ++ after) ++ ?x)] =>
        replace (s ++ [95%N] ++ (before ++ [surrogate k] ++ after) ++ x)
          with ((s ++ [95%N] ++ before) ++ [surrogate k] ++ (after ++ x))
          by (rewrite <- !app_assoc; reflexivity)
    end.
    now rewrite encode_surrogate.
Qed.

(** What the loop body does with any message: nothing, when the message
    did not parse; an error in the log, when the hash or the categorizer
    raises; and [process_message] otherwise. *)
Lemma process_fetched_cases (account : string) (st : world * list Email)
      (m : option fetched_message) :
  process_fetched account st m = st
  \/ process_fetched account st m = (add_log (fst st) (LogError "Error fetching email"), snd st)
  \/ exists t, process_fetched account st m = process_message account st (Some t).
Proof.
  unfold process_fetched. destruct m as [m|]; [|now left].
  destruct (generate_email_hash_raw m); [|right; now left].
  destruct (typed m) as [t|]; [|right; now left].
  right. right. now exists t.
Qed.

(** *** The pipeline only appends to the log and opens no connection of
    its own after the first *)

Definition extends (w w' : world) : Prop :=
  connects w' = connects w /\ exists extra, log w' = log w ++ extra.

Lemma extends_refl (w : world) : extends w w.
Proof. split; [reflexivity|]. exists []. now rewrite app_nil_r. Qed.

Lemma extends_trans (w1 w2 w3 : world) : extends w1 w2 -> extends w2 w3 -> extends w1 w3.
Proof.
  intros [C1 [x1 L1]] [C2 [x2 L2]]. split; [congruence|].
  exists (x1 ++ x2). now rewrite L2, L1, app_assoc.
Qed.

Lemma extends_add_log (w : world) (l : log_entry) : extends w (add_log w l).
Proof. split; [reflexivity|]. now exists [l]. Qed.

Lemma extends_get_connection (w : world) : extends w (snd (get_connection w)).
Proof.
  unfold get_connection. destruct (conns w); simpl; [apply extends_refl|].
  split; [reflexivity|]. exists []. now rewrite app_nil_r.
Qed.

Lemma extends_email_exists (w : world) (mid h : option string) :
  extends w (snd (email_exists w mid h)).
Proof.
  unfold email_exists.
  destruct (negb (truthy mid) && negb (truthy h)); [apply extends_refl|].
  pose proof (extends_get_connection w) as H.
  destruct (get_connection w) as [[[]|e] w']; simpl in *; [assumption|].
  eapply extends_trans; [exact H|apply extends_add_log].
Qed.

Lemma extends_save_email (w : world) (e : Email) : extends w (snd (save_email w e)).
Proof.
  unfold save_email.
  pose proof (extends_get_connection w) as H.
  destruct (get_connection w) as [[[]|ex] w']; simpl in *.
  - destruct (negb (mem_str (account_email e) (accounts w'))); simpl.
    + eapply extends_trans; [exact H|apply extends_add_log].
    + destruct (clean_id (id e)); simpl.
      * eapply extends_trans; [exact H|].
        split; [reflexivity|]. now exists [LogInfo "Email saved"].
      * eapply extends_trans; [exact H|apply extends_add_log].
  - eapply extends_trans; [exact H|apply extends_add_log].
Qed.

Lemma extends_process_candidate (st : world * list Email) (e : Email) :
  extends (fst st) (fst (process_candidate st e)).
Proof.
  destruct st as [w es]. unfold process_candidate.
  destruct (generate_email_hash (now w) e) as [h|ex]; [|apply extends_add_log].
  pose proof (extends_email_exists w (message_id (prepare e h)) (email_hash (prepare e h))) as H1.
  destruct (email_exists w _ _) as [existing w1]. simpl in H1.
  match goal with
  | |- context [save_email w1 ?c] =>
      pose proof (extends_save_email w1 c) as H2; destruct (save_email w1 c) as [ok w2]
  end.
  simpl in H2.
  destruct (found existing); simpl;
    (eapply extends_trans; [exact H1|]; eapply extends_trans; [exact H2|];
     apply extends_add_log).
Qed.

Lemma extends_process_message (account : string) (st : world * list Email)
      (m : option raw_message) :
  extends (fst st) (fst (process_message account st m)).
Proof.
  unfold process_message.
  destruct (_fetch_single_email _ _); [apply extends_process_candidate|apply extends_refl].
Qed.

Lemma extends_process_fetched (account : string) (st : world * list Email)
      (m : option fetched_message) :
  extends (fst st) (fst (process_fetched account st m)).
Proof.
  destruct (process_fetched_cases account st m) as [->|[->|[t ->]]].
  - apply extends_refl.
  - apply extends_add_log.
  - apply extends_process_message.
Qed.

Lemma extends_fold (account : string) (l : list (option fetched_message))
      (st : world * list Email) :
  extends (fst st) (fst (fold_left (process_fetched account) l st)).
Proof.
  revert st. induction l as [|m rest IH]; intros st; simpl; [apply extends_refl|].
  eapply extends_trans; [apply extends_process_fetched|apply IH].
Qed.

(** A fetch opens one connection, for its account, and appends to the log. *)
Lemma fetch_connects (w : world) (account : string) (limit : option nat) (s : session) :
  let w' := snd (fetch_emails_from_account w account limit s) in
  connects w' = connects w ++ [account] /\ exists extra, log w' = log w ++ extra.
Proof.
  unfold fetch_emails_from_account.
  destruct s as [msg|msg|[|] messages]; simpl.
  - split; [reflexivity|]. eauto.
  - split; [reflexivity|]. eauto.
  - pose proof (extends_fold account (apply_limit limit messages) (add_connect w account, []))
      as [C L].
    destruct (fold_left _ _ _) as [w' es]. simpl in *. auto.
  - split; [reflexivity|]. exists []. now rewrite app_nil_r.
Qed.

End PipelineProps.

(** ** The orchestrating passes *)

Module OrchestratorProps.
Import Codec Store Pipeline Orchestrator PipelineProps.
Local Open Scope list_scope.

(** The connections the route opens for an account: one for the test and,
    when the test succeeds, one for the fetch. *)
Definition route_connects (a : account_env) : list string :=
  if test_ok a then [acc_email a; acc_email a] else [acc_email a].

(** The message the background pass logs for an account whose fetch raises. *)
Definition background_error (a : account_env) : string :=
  match acc_session a with
  | ImapError msg =>
      ("Error fetching emails for " ++ acc_email a ++ ": "
       ++ "Failed to connect to email account: " ++ msg)%string
  | OtherError msg =>
      ("Error fetching emails for " ++ acc_email a ++ ": " ++ "Email fetch failed: " ++ msg)%string
  | Search _ _ => EmptyString
  end.

Lemma save_all_extends (emails : list Email) (w : world) : extends w (save_all w emails).
Proof.
  unfold save_all. revert w. induction emails as [|e rest IH]; intros w; simpl.
  - apply extends_refl.
  - eapply extends_trans; [apply extends_save_email|apply IH].
Qed.

Definition bump (b : bool) : nat := if b then 1 else 0.

(** One turn of the route's loop, body and handler together. *)
Definition route_turn (limit : option nat) (a : account_env) (st : state) : state :=
  match route_body limit a st with
  | (Ok _, st') => st'
  | (Raise e, st') => route_handler a e st'
  end.

Lemma route_loop_cons (limit : option nat) (a : account_env) (rest : list account_env)
      (st : state) :
  route_loop limit (a :: rest) st = route_loop limit rest (route_turn limit a st).
Proof.
  simpl. unfold route_turn. destruct (route_body limit a st) as [[[]|e] st']; reflexivity.
Qed.

Lemma route_turn_effect (limit : option nat) (a : account_env)
      (w : world) (res : fetch_results) (stats : email_stats_t) :
  exists w' res' stats',
    route_turn limit a (w, res, stats) = (w', res', stats')
    /\ connects w' = connects w ++ route_connects a
    /\ total_accounts res' = total_accounts res
    /\ failed_accounts res' = failed_accounts res + bump (route_fails a)
    /\ successful_accounts res' = successful_accounts res + bump (negb (route_fails a))
    /\ errors res' = errors res ++ (if route_fails a then [route_error a] else []).
Proof.
  unfold route_turn, route_body, test_account_connection, route_fails, route_error,
    route_connects, fetch_raises.
  destruct (test_ok a); cbn [negb orb].
  - pose proof (fetch_connects
                  (add_connect (add_log w (LogInfo "Fetching emails from")) (acc_email a))
                  (acc_email a) limit (acc_session a)) as [C _].
    cbv zeta in C.
    destruct (acc_session a) as [msg|msg|ok messages] eqn:Es;
      destruct (fetch_emails_from_account _ (acc_email a) limit _) as [[emails|e] w2] eqn:Ef;
      unfold fetch_emails_from_account in Ef; try discriminate;
      try (destruct ok; [destruct (fold_left _ _ _)|]; discriminate).
    + injection Ef as <- <-. cbn [route_handler str_of_exn]. eexists _, _, _.
      split; [reflexivity|]. simpl.
      split; [now rewrite <- app_assoc|]. split; [reflexivity|].
      split; [lia|]. split; [lia|reflexivity].
    + injection Ef as <- <-. cbn [route_handler str_of_exn]. eexists _, _, _.
      split; [reflexivity|]. simpl.
      split; [now rewrite <- app_assoc|]. split; [reflexivity|].
      split; [lia|]. split; [lia|reflexivity].
    + simpl in C. pose proof (save_all_extends emails w2) as [C2 _].
      eexists _, _, _. split; [reflexivity|].
      cbn [connects add_log failed_accounts successful_accounts total_accounts errors bump
             negb].
      split; [rewrite C2, C; now rewrite <- app_assoc|]. split; [reflexivity|].
      split; [lia|]. split; [lia|now rewrite app_nil_r].
  - eexists _, _, _. split; [reflexivity|]. simpl.
    split; [reflexivity|]. split; [reflexivity|].
    split; [lia|]. split; [lia|reflexivity].
Qed.

Lemma route_loop_effect (limit : option nat) (accounts : list account_env) :
  forall (w : world) (res : fetch_results) (stats : email_stats_t),
  exists w' res' stats',
    route_loop limit accounts (w, res, stats) = (w', res', stats')
    /\ connects w' = connects w ++ flat_map route_connects accounts
    /\ total_accounts res' = total_accounts res
    /\ failed_accounts res' = failed_accounts res + List.length (filter route_fails accounts)
    /\ successful_accounts res'
       = successful_accounts res
         + List.length (filter (fun a => negb (route_fails a)) accounts)
    /\ errors res' = errors res ++ map route_error (filter route_fails accounts).
Proof.
  induction accounts as [|a rest IH]; intros w res stats.
  - exists w, res, stats. simpl. rewrite !app_nil_r. repeat split; lia.
  - rewrite route_loop_cons.
    destruct (route_turn_effect limit a w res stats)
      as (w1 & res1 & stats1 & -> & C1 & T1 & F1 & S1 & E1).
    destruct (IH w1 res1 stats1) as (w' & res' & stats' & -> & C & T & F & S & E).
    exists w', res', stats'. split; [reflexivity|].
    rewrite C, T, F, S, E, C1, T1, F1, S1, E1. simpl.
    destruct (route_fails a); simpl; rewrite <- !app_assoc; repeat split; lia.
Qed.

Lemma background_loop_effect (accounts : list account_env) :
  forall w : world,
    let w' := background_loop accounts w in
    connects w' = connects w ++ map acc_email accounts
    /\ (exists extra, log w' = log w ++ extra)
    /\ forall a, In a accounts -> fetch_raises a = true ->
                 In (LogError (background_error a)) (log w').
Proof.
  induction accounts as [|a rest IH]; intros w; simpl.
  - rewrite app_nil_r. split; [reflexivity|]. split; [|intros a []].
    exists []. now rewrite app_nil_r.
  - pose proof (fetch_connects w (acc_email a) None (acc_session a)) as [C [x L]].
    cbv zeta in C, L.
    assert (Hcase : forall w1 : world,
               connects w1 = connects (snd (fetch_emails_from_account w (acc_email a) None
                                              (acc_session a))) ->
               (exists y, log w1 = log w ++ y) ->
               (fetch_raises a = true -> In (LogError (background_error a)) (log w1)) ->
               connects (background_loop rest w1) = connects w ++ acc_email a :: map acc_email rest
               /\ (exists extra, log (background_loop rest w1) = log w ++ extra)
               /\ forall b, a = b \/ In b rest -> fetch_raises b = true ->
                            In (LogError (background_error b)) (log (background_loop rest w1))).
    { intros w1 C1 [y L1] Ha. destruct (IH w1) as (Cr & [z Lr] & Hr).
      split; [rewrite Cr, C1, C; now rewrite <- app_assoc|].
      split; [exists (y ++ z); now rewrite Lr, L1, app_assoc|].
      intros b [<-|Hb] Hf; [|now apply Hr].
      rewrite Lr. apply in_or_app. left. now apply Ha. }
    unfold fetch_raises, background_error in *.
    destruct (acc_session a) as [msg|msg|ok messages] eqn:Es;
      destruct (fetch_emails_from_account w (acc_email a) None _) as [[emails|e] w2] eqn:Ef;
      unfold fetch_emails_from_account in Ef; try discriminate;
      try (destruct ok; [destruct (fold_left _ _ _)|]; discriminate).
    + injection Ef as <- <-. apply Hcase.
      * reflexivity.
      * simpl. exists [LogError "IMAP error for account";
                       LogError ("Error fetching emails for " ++ acc_email a ++ ": "
                                 ++ "Failed to connect to email account: " ++ msg)%string].
        now rewrite <- !app_assoc.
      * intros _. simpl. apply in_or_app. right. now left.
    + injection Ef as <- <-. apply Hcase.
      * reflexivity.
      * simpl. exists [LogError "Unexpected error fetching emails";
                       LogError ("Error fetching emails for " ++ acc_email a ++ ": "
                                 ++ "Email fetch failed: " ++ msg)%string].
        now rewrite <- !app_assoc.
      * intros _. simpl. apply in_or_app. right. now left.
    + apply Hcase; [reflexivity | eauto | discriminate].
Qed.

(** C9: for every non-empty list of accounts, whatever each server
    does, the manual fetch answers 200 with an aggregate in which
    [failed_accounts] counts each failing account once,
    [successful_accounts] counts each account whose fetch succeeds, the
    errors are the messages of the failing accounts in order, and a
    connection was opened for every account; the background pass opens a
    connection for every account in order and logs the error of every
    account whose fetch raises. *)
Theorem every_account_is_attempted :
  forall (limit : option nat) (a : account_env) (rest : list account_env)
         (w : world) (stats : email_stats_t),
    (exists res w' stats',
        fetch_emails true limit (a :: rest) w stats = (R200 res, w', stats')
        /\ total_accounts res = List.length (a :: rest)
        /\ failed_accounts res = List.length (filter route_fails (a :: rest))
        /\ successful_accounts res
           = List.length (filter (fun x => negb (route_fails x)) (a :: rest))
        /\ errors res = map route_error (filter route_fails (a :: rest))
        /\ connects w' = connects w ++ flat_map route_connects (a :: rest))
    /\ connects (_fetch_emails (a :: rest) w) = connects w ++ map acc_email (a :: rest)
    /\ forall x, In x (a :: rest) -> fetch_raises x = true ->
                 In (LogError (background_error x)) (log (_fetch_emails (a :: rest) w)).
Proof.
  intros limit a rest w stats. split.
  - unfold fetch_emails. cbn [negb].
    destruct (route_loop_effect limit (a :: rest) w
                (mkResults (List.length (a :: rest)) 0 0 0 []) stats)
      as (w' & res' & stats' & -> & C & T & F & S & E).
    pose proof (extends_get_connection w') as [C' _].
    unfold get_email_stats. destruct (get_connection w') as [[[]|e] w''];
      eexists _, _, _; (split; [reflexivity|]);
      cbn [total_accounts failed_accounts successful_accounts errors] in T, F, S, E;
      cbn [snd connects add_log] in *; rewrite C';
      repeat split; assumption.
  - unfold _fetch_emails.
    destruct (background_loop_effect (a :: rest)
                (add_log w (LogInfo "Starting automatic email fetch"))) as (C & _ & H).
    split; [exact C|exact H].
Qed.

(** Three accounts; the server of the second one refuses the connection. *)
Definition three_accounts : list account_env :=
  [ mkAccount "a@example.com" true (Search true [Some (of_typed (greeting 1 None))]);
    mkAccount "b@example.com" true (ImapError "connection refused");
    mkAccount "c@example.com" true (Search true []) ].

Definition three_accounts_world : world :=
  mkWorld ["a@example.com"; "b@example.com"; "c@example.com"] [] [] clock [] [].

Lemma every_account_is_attempted_witness :
  exists res w' stats',
    fetch_emails true (Some 50) three_accounts three_accounts_world (mkStats [] [] 0)
    = (R200 res, w', stats')
    /\ total_accounts res = 3
    /\ failed_accounts res = 1
    /\ successful_accounts res = 2
    /\ errors res = ["Error fetching from b@example.com: Failed to connect to email account: connection refused"].
Proof.
  destruct (every_account_is_attempted (Some 50)
              (mkAccount "a@example.com" true (Search true [Some (of_typed (greeting 1 None))]))
              [ mkAccount "b@example.com" true (ImapError "connection refused");
                mkAccount "c@example.com" true (Search true []) ]
              three_accounts_world (mkStats [] [] 0))
    as [(res & w' & stats' & E & T & F & S & Er & _) _].
  exists res, w', stats'. split; [exact E|]. split; [exact T|].
  split; [exact F|]. split; [exact S|exact Er].
Defined.

End OrchestratorProps.

(** ** The store: what its operations keep and give back *)

Module StoreProps.
Import PyStr Codec Store Pipeline StoreOps PipelineProps.
Local Open Scope list_scope.

(** *** What a save leaves alone *)

(** The columns no statement of the store assigns after the insert. *)
Definition fixed_columns (r : row) : text * string * string * string * string * string :=
  (r_id r, r_account_email r, r_subject r, r_sender r, r_date r, r_body r).

Lemma upsert_fixed (r : row) (rows : list row) :
  exists added, map fixed_columns (upsert r rows) = map fixed_columns rows ++ added
                /\ List.length added <= 1.
Proof.
  induction rows as [|x rest [added [IH L]]]; simpl.
  - exists [fixed_columns r]. split; [reflexivity|simpl; lia].
  - destruct (text_eqb (r_id x) (r_id r)); simpl.
    + exists []. rewrite app_nil_r. split; [reflexivity|simpl; lia].
    + exists added. rewrite IH. split; [reflexivity|assumption].
Qed.

Lemma get_connection_store (w : world) :
  accounts (snd (get_connection w)) = accounts w
  /\ emails (snd (get_connection w)) = emails w
  /\ now (snd (get_connection w)) = now w.
Proof. unfold get_connection. destruct (conns w); simpl; auto. Qed.

(** The result of [save_email] in terms of the three things that can go
    wrong. *)
Lemma save_email_cases (w : world) (e : Email) :
  (fst (save_email w e) = false
   /\ emails (snd (save_email w e)) = emails w
   /\ accounts (snd (save_email w e)) = accounts w)
  \/ (exists i, clean_id (id e) = Ok i
        /\ mem_str (account_email e) (accounts w) = true
        /\ fst (save_email w e) = true
        /\ emails (snd (save_email w e))
           = upsert (row_of (snd (get_connection w)) i e) (emails w)
        /\ accounts (snd (save_email w e)) = accounts w).
Proof.
  unfold save_email.
  destruct (get_connection_store w) as (Ha & He & _).
  destruct (get_connection w) as [[[]|ex] w1]; simpl in *.
  - destruct (mem_str (account_email e) (accounts w1)) eqn:Em; simpl.
    + destruct (clean_id (id e)) as [i|ex]; simpl.
      * right. exists i. rewrite <- Ha, He. auto.
      * left. auto.
    + left. auto.
  - left. auto.
Qed.

(** X1: whatever the state of the connection, the account table and the
    message, [save_email] changes no account, removes and reorders no
    stored message, leaves the id, account, subject, sender, date and body
    of every stored message as they are, adds at most one message, and
    changes nothing at all when it returns [False]. *)
Theorem save_email_keeps_rows (w : world) (e : Email) :
  let ok := fst (save_email w e) in
  let w' := snd (save_email w e) in
  accounts w' = accounts w
  /\ (exists added,
        map fixed_columns (emails w') = map fixed_columns (emails w) ++ added
        /\ List.length added <= 1)
  /\ (ok = false -> emails w' = emails w).
Proof.
  cbv zeta.
  destruct (save_email_cases w e) as [(Hok & He & Ha)|(i & _ & _ & Hok & He & Ha)].
  - split; [assumption|]. split; [|auto].
    exists []. rewrite He, app_nil_r. split; [reflexivity|simpl; lia].
  - split; [assumption|]. split.
    + rewrite He. apply upsert_fixed.
    + rewrite Hok. discriminate.
Qed.

(** *** Consistency of the store *)

(** The primary key of [emails] and its foreign key to [email_accounts]. *)
Definition registered (accs : list string) (r : row) : Prop :=
  mem_str (r_account_email r) accs = true.

Definition consistent (w : world) : Prop :=
  NoDup (map r_id (emails w)) /\ Forall (registered (accounts w)) (emails w).

Lemma upsert_ids (r : row) (rows : list row) :
  map r_id (upsert r rows)
  = if has_id (r_id r) rows then map r_id rows else map r_id rows ++ [r_id r].
Proof.
  induction rows as [|x rest IH]; simpl; [reflexivity|].
  unfold has_id in *. simpl.
  destruct (text_eqb (r_id x) (r_id r)) eqn:E; simpl; [reflexivity|].
  rewrite IH. now destruct (existsb _ rest).
Qed.

Lemma has_id_map (i : text) (rows : list row) :
  has_id i rows = false -> ~ In i (map r_id rows).
Proof.
  intros H Hin. apply in_map_iff in Hin as (r & Hr & Hin).
  assert (has_id i rows = true) by (apply has_id_in; eauto). congruence.
Qed.

Lemma upsert_nodup (r : row) (rows : list row) :
  NoDup (map r_id rows) -> NoDup (map r_id (upsert r rows)).
Proof.
  intros H. rewrite upsert_ids. destruct (has_id (r_id r) rows) eqn:E; [assumption|].
  apply NoDup_app; [assumption|repeat constructor; intros []|].
  intros x Hx [<-|[]]. now apply has_id_map in E.
Qed.

Lemma upsert_registered (accs : list string) (r : row) (rows : list row) :
  registered accs r -> Forall (registered accs) rows ->
  Forall (registered accs) (upsert r rows).
Proof.
  intros Hr. induction 1 as [|x rest Hx Hrest IH]; simpl.
  - repeat constructor. assumption.
  - destruct (text_eqb (r_id x) (r_id r)); constructor; auto.
Qed.

Lemma save_email_consistent (w : world) (e : Email) :
  consistent w -> consistent (snd (save_email w e)).
Proof.
  intros [Hn Hr]. unfold consistent.
  destruct (save_email_cases w e) as [(_ & He & Ha)|(i & _ & Hm & _ & He & Ha)];
    rewrite He, Ha.
  - split; assumption.
  - split; [now apply upsert_nodup|].
    apply upsert_registered; [exact Hm|assumption].
Qed.

Lemma filter_nodup_ids (f : row -> bool) (rows : list row) :
  NoDup (map r_id rows) -> NoDup (map r_id (filter f rows)).
Proof.
  induction rows as [|x rest IH]; simpl; [auto|].
  intros H. inversion H as [|? ? Hx Hrest]; subst.
  destruct (f x); simpl; [|auto].
  constructor; [|auto].
  intros Hin. apply Hx. apply in_map_iff in Hin as (r & Hr & Hin).
  apply filter_In in Hin as [Hin _]. apply in_map_iff. eauto.
Qed.

Lemma filter_registered (accs : list string) (f : row -> bool) (rows : list row) :
  Forall (registered accs) rows -> Forall (registered accs) (filter f rows).
Proof.
  rewrite !Forall_forall. intros H r Hin. apply filter_In in Hin as [Hin _]. auto.
Qed.

Lemma delete_email_consistent (w : world) (i : text) :
  consistent w -> consistent (snd (delete_email w i)).
Proof.
  intros [Hn Hr]. unfold consistent, delete_email.
  destruct (get_connection_store w) as (Ha & He & _).
  destruct (get_connection w) as [[[]|ex] w1]; simpl in *; rewrite ?Ha, ?He.
  - split; [now apply filter_nodup_ids|now apply filter_registered].
  - split; assumption.
Qed.

Lemma mem_str_filter (a b : string) (accs : list string) :
  mem_str a accs = true -> String.eqb a b = false ->
  mem_str a (filter (fun x => negb (String.eqb x b)) accs) = true.
Proof.
  unfold mem_str. rewrite !existsb_exists. intros (x & Hin & Hx) Hab.
  apply String.eqb_eq in Hx. subst x.
  exists a. split; [|apply String.eqb_refl].
  apply filter_In. split; [assumption|]. now rewrite Hab.
Qed.

Lemma mem_str_removed (b : string) (accs : list string) :
  mem_str b (filter (fun x => negb (String.eqb x b)) accs) = false.
Proof.
  unfold mem_str. destruct (existsb _ _) eqn:E; [|reflexivity].
  apply existsb_exists in E as (x & Hin & Hx).
  apply filter_In in Hin as [_ Hn]. apply String.eqb_eq in Hx. subst x.
  now rewrite String.eqb_refl in Hn.
Qed.

Lemma count_mem (b : string) (accs : list string) :
  Nat.eqb (List.length (filter (fun a => String.eqb a b) accs)) 0 = negb (mem_str b accs).
Proof.
  unfold mem_str. induction accs as [|x rest IH]; simpl; [reflexivity|].
  rewrite (String.eqb_sym b x). destruct (String.eqb x b); simpl; [reflexivity|assumption].
Qed.

(** The result of [delete_email_account] with a working connection. *)
Lemma delete_email_account_healthy (w : world) (a : string) :
  conns w = [] ->
  fst (delete_email_account w a) = mem_str a (accounts w)
  /\ emails (snd (delete_email_account w a))
     = (if mem_str a (accounts w)
        then filter (fun r => negb (String.eqb (r_account_email r) a)) (emails w)
        else emails w)
  /\ accounts (snd (delete_email_account w a))
     = filter (fun x => negb (String.eqb x a)) (accounts w)
  /\ conns (snd (delete_email_account w a)) = [].
Proof.
  intros Hc. unfold delete_email_account, get_connection. rewrite Hc.
  rewrite count_mem. destruct (mem_str a (accounts w)) eqn:Em; simpl.
  - pose proof (count_mem a (accounts w)) as Hcount. rewrite Em in Hcount. simpl in Hcount.
    destruct (List.length (filter (fun a0 => String.eqb a0 a) (accounts w))) eqn:El;
      [discriminate|]. simpl. auto.
  - repeat split; auto.
    symmetry. apply forallb_filter_id.
    apply forallb_forall. intros x Hin.
    destruct (String.eqb x a) eqn:E; [|reflexivity].
    apply String.eqb_eq in E. subst x.
    assert (mem_str a (accounts w) = true); [|congruence].
    unfold mem_str. apply existsb_exists. exists a. split; [assumption|apply String.eqb_refl].
Qed.

Lemma delete_email_account_consistent (w : world) (a : string) :
  consistent w -> consistent (snd (delete_email_account w a)).
Proof.
  intros [Hn Hr]. unfold consistent, delete_email_account.
  destruct (get_connection_store w) as (Ha & He & _).
  destruct (get_connection w) as [[[]|ex] w1]; simpl in *.
  - destruct (Nat.eqb _ 0); simpl; [now rewrite Ha, He|].
    assert (H : NoDup (map r_id
                  (filter (fun r => negb (String.eqb (r_account_email r) a)) (emails w1)))
                /\ Forall (registered (filter (fun x => negb (String.eqb x a)) (accounts w1)))
                     (filter (fun r => negb (String.eqb (r_account_email r) a)) (emails w1))).
    { rewrite Ha, He. split; [now apply filter_nodup_ids|].
      rewrite Forall_forall in *. intros r Hin. apply filter_In in Hin as [Hin Hx].
      apply negb_true_iff in Hx. unfold registered. apply mem_str_filter; auto.
      now apply Hr. }
    destruct (Nat.ltb 0 _); simpl; exact H.
  - now rewrite Ha, He.
Qed.

Lemma mem_str_app (a : string) (l1 l2 : list string) :
  mem_str a (l1 ++ l2) = mem_str a l1 || mem_str a l2.
Proof. unfold mem_str. apply existsb_app. Qed.

Lemma add_email_account_consistent (w : world) (a : string) :
  consistent w -> consistent (snd (add_email_account w a)).
Proof.
  intros [Hn Hr]. unfold consistent, add_email_account.
  destruct (get_connection_store w) as (Ha & He & _).
  destruct (get_connection w) as [[[]|ex] w1]; simpl in *; rewrite ?Ha, ?He.
  - split; [assumption|].
    destruct (mem_str a (accounts w)); [assumption|].
    eapply Forall_impl; [|exact Hr]. intros r H. unfold registered in *.
    rewrite mem_str_app, H. reflexivity.
  - split; assumption.
Qed.

Lemma mark_all_emails_read_consistent (w : world) :
  consistent w -> consistent (snd (mark_all_emails_read w)).
Proof.
  intros [Hn Hr]. unfold consistent, mark_all_emails_read.
  destruct (get_connection_store w) as (Ha & He & _).
  destruct (get_connection w) as [[[]|ex] w1]; simpl in *; rewrite ?Ha, ?He.
  - split.
    + rewrite map_map. simpl. assumption.
    + rewrite Forall_map. simpl. assumption.
  - split; assumption.
Qed.

Lemma get_email_by_id_store (w : world) (i : text) :
  accounts (snd (get_email_by_id w i)) = accounts w
  /\ emails (snd (get_email_by_id w i)) = emails w.
Proof.
  unfold get_email_by_id.
  destruct (get_connection_store w) as (Ha & He & _).
  destruct (get_connection w) as [[[]|ex] w1]; simpl in *.
  - destruct (find _ _); simpl; auto.
  - auto.
Qed.

Lemma consistent_same (w w' : world) :
  accounts w' = accounts w -> emails w' = emails w -> consistent w -> consistent w'.
Proof. unfold consistent. intros -> ->. auto. Qed.

Lemma mark_email_read_consistent (w : world) (i : text) :
  consistent w -> consistent (snd (mark_email_read w i)).
Proof.
  intros H. unfold mark_email_read.
  destruct (get_email_by_id_store w i) as (Ha & He).
  destruct (get_email_by_id w i) as [[email|] w1]; simpl in *.
  - pose proof (save_email_consistent w1 (set_is_read email true)
                  (consistent_same _ _ Ha He H)) as H1.
    destruct (save_email w1 _) as [ok w2]. exact H1.
  - exact (consistent_same _ _ Ha He H).
Qed.

Lemma mark_email_unread_consistent (w : world) (i : text) :
  consistent w -> consistent (snd (mark_email_unread w i)).
Proof.
  intros H. unfold mark_email_unread.
  destruct (get_email_by_id_store w i) as (Ha & He).
  destruct (get_email_by_id w i) as [[email|] w1]; simpl in *.
  - pose proof (save_email_consistent w1 (set_is_read email false)
                  (consistent_same _ _ Ha He H)) as H1.
    destruct (save_email w1 _) as [ok w2]. exact H1.
  - exact (consistent_same _ _ Ha He H).
Qed.

(** X2: the operations of the store keep it consistent: when the ids of
    the stored messages are pairwise distinct and every stored message
    belongs to a registered account, the same holds after [save_email],
    [delete_email], [delete_email_account] (which removes the messages of the
    account before the account), [add_email_account], [mark_all_emails_read]
    and the routes [mark_email_read] and [mark_email_unread], whether they
    succeed or fail. *)
Theorem store_operations_keep_consistency (w : world) (e : Email) (i : text) (a : string) :
  consistent w ->
  consistent (snd (save_email w e))
  /\ consistent (snd (delete_email w i))
  /\ consistent (snd (delete_email_account w a))
  /\ consistent (snd (add_email_account w a))
  /\ consistent (snd (mark_all_emails_read w))
  /\ consistent (snd (mark_email_read w i))
  /\ consistent (snd (mark_email_unread w i)).
Proof.
  intros H.
  split; [now apply save_email_consistent|].
  split; [now apply delete_email_consistent|].
  split; [now apply delete_email_account_consistent|].
  split; [now apply add_email_account_consistent|].
  split; [now apply mark_all_emails_read_consistent|].
  split; [now apply mark_email_read_consistent|now apply mark_email_unread_consistent].
Qed.

Definition consistent_example : world :=
  mkWorld ["me@example.com"]
          [mkRow [55%N] "me@example.com" "Hello" "bob@x.org" "2024-01-01 10:00:00" "hi"
                 "general_bob" "general" "bob" false EmptyString "<a@x>"]
          [] "2024-06-01 12:00:00" [] [].

(** A message whose id is spelled as the text of a [bytes] value. *)
Definition reply : Email :=
  mkEmail (IdStr [98; 39; 56; 39]%N) "me@example.com" "Re: Hello" "carol@x.org" None "ok"
          "general_carol" "general" "carol" true None (Some "<b@x>").

Lemma consistent_example_ok : consistent consistent_example.
Proof.
  split.
  - repeat constructor. intros [].
  - repeat constructor.
Qed.

Lemma store_operations_keep_consistency_witness :
  consistent (snd (mark_email_read consistent_example [55%N]))
  /\ consistent (snd (delete_email_account consistent_example "me@example.com")).
Proof.
  pose proof (store_operations_keep_consistency consistent_example reply
                [55%N] "me@example.com" consistent_example_ok)
    as (_ & _ & H3 & _ & _ & H6 & _).
  split; [exact H6|exact H3].
Defined.

(** *** Round trips *)

Definition by_id (i : text) (r : row) : bool := text_eqb (r_id r) i.

Lemma healthy_save (w : world) (e : Email) (i : text) :
  conns w = [] -> mem_str (account_email e) (accounts w) = true ->
  clean_id (id e) = Ok i ->
  fst (save_email w e) = true
  /\ emails (snd (save_email w e)) = upsert (row_of w i e) (emails w)
  /\ accounts (snd (save_email w e)) = accounts w
  /\ conns (snd (save_email w e)) = []
  /\ now (snd (save_email w e)) = now w.
Proof.
  intros Hc Ha Hi. rewrite (save_email_healthy w e i Hc Ha Hi). simpl. auto.
Qed.

Lemma find_upsert_match (f : row -> bool) (r : row) (rows : list row) :
  f r = true ->
  (forall x, f (update_row x r) = f r) ->
  (forall x, In x rows -> f x = true -> r_id x = r_id r) ->
  option_map r_id (find f (upsert r rows)) = Some (r_id r).
Proof.
  intros Hr Hu. induction rows as [|x rest IH]; intros Hrows; simpl.
  - now rewrite Hr.
  - destruct (text_eqb (r_id x) (r_id r)) eqn:E; simpl.
    + rewrite Hu, Hr. simpl. f_equal. now apply text_eqb_eq.
    + destruct (f x) eqn:Ex.
      * assert (r_id x = r_id r) as Heq by (apply Hrows; simpl; auto).
        apply text_eqb_eq in Heq. congruence.
      * apply IH. intros y Hy. apply Hrows. simpl. auto.
Qed.

(** X3: with a working connection, a message that [save_email] accepts
    and that carries a message identifier or a content hash is found again by
    [email_exists] under the id it was saved with, provided no stored message
    with another id already answers the query (the message identifier when
    there is one, the hash otherwise). *)
Theorem saved_email_is_found (w : world) (e : Email) (i : text) :
  conns w = [] -> mem_str (account_email e) (accounts w) = true ->
  clean_id (id e) = Ok i ->
  truthy (message_id e) || truthy (email_hash e) = true ->
  (forall r, In r (emails w) ->
             row_matches (message_id e) (or_empty (email_hash e)) r = true -> r_id r = i) ->
  fst (save_email w e) = true
  /\ fst (email_exists (snd (save_email w e)) (message_id e) (email_hash e)) = Some i.
Proof.
  intros Hc Ha Hi Ht Hrows.
  destruct (healthy_save w e i Hc Ha Hi) as (Hok & He & _ & Hc' & _).
  split; [assumption|].
  unfold email_exists, get_connection. rewrite Hc'.
  assert (Hg : negb (truthy (message_id e)) && negb (truthy (email_hash e)) = false).
  { destruct (truthy (message_id e)); [reflexivity|]. simpl in *. now rewrite Ht. }
  rewrite Hg. cbn [fst]. rewrite He.
  pose proof (find_upsert_match
                (row_matches (message_id e) (or_empty (email_hash e)))
                (row_of w i e) (emails w)) as Hf.
  cbn [r_id row_of] in Hf.
  assert (Hfind : forall rows,
             match message_id e, email_hash e with
             | Some (String c m), _ =>
                 find (fun r => String.eqb (r_message_id r) (String c m)) rows
             | _, Some h => find (fun r => String.eqb (r_email_hash r) h) rows
             | _, None => None
             end = find (row_matches (message_id e) (or_empty (email_hash e))) rows).
  { intros rows. unfold row_matches.
    destruct (message_id e) as [[|c m]|]; destruct (email_hash e) as [h|];
      simpl in *; try reflexivity; discriminate. }
  rewrite Hfind. apply Hf.
  - unfold row_matches, row_of. cbn [r_message_id r_email_hash].
    destruct (message_id e) as [[|c m]|]; cbn [or_empty]; apply String.eqb_refl.
  - intros x. unfold row_matches, update_row, row_of.
    cbn [r_message_id r_email_hash]. reflexivity.
  - exact Hrows.
Qed.

Lemma saved_email_is_found_witness :
  fst (save_email consistent_example reply) = true
  /\ fst (email_exists (snd (save_email consistent_example reply)) (Some "<b@x>") None)
     = Some [56%N].
Proof.
  apply (saved_email_is_found consistent_example reply [56%N]); try reflexivity.
  intros r [<-|[]] H; vm_compute in H; discriminate.
Defined.

Lemma find_upsert_id (r : row) (rows : list row) :
  find (by_id (r_id r)) (upsert r rows)
  = Some (match find (by_id (r_id r)) rows with
          | Some old => update_row old r
          | None => r
          end).
Proof.
  unfold by_id. induction rows as [|x rest IH]; simpl.
  - now rewrite text_eqb_refl.
  - destruct (text_eqb (r_id x) (r_id r)) eqn:E; simpl.
    + now rewrite E.
    + now rewrite E.
Qed.

(** X4: with a working connection, after [save_email] has accepted a
    message, [get_email_by_id] under the cleaned id returns a message with
    that id whose read flag, hash and message identifier are the ones saved
    (an absent hash or identifier is read back as the empty string) and whose
    categories are the ones saved, an empty category being read back as
    'general'; its account, subject, sender and body are the saved ones when
    the id was new, and the ones already stored when the id was taken. *)
Theorem saved_email_is_read_back (w : world) (e : Email) (i : text) :
  conns w = [] -> mem_str (account_email e) (accounts w) = true ->
  clean_id (id e) = Ok i ->
  exists e',
    fst (get_email_by_id (snd (save_email w e)) i) = Some e'
    /\ id e' = IdStr i
    /\ is_read e' = is_read e
    /\ category e' = or_general (category e)
    /\ main_category e' = or_general (main_category e)
    /\ sub_category e' = or_general (sub_category e)
    /\ email_hash e' = Some (or_empty (email_hash e))
    /\ message_id e' = Some (or_empty (message_id e))
    /\ match find (by_id i) (emails w) with
       | None =>
           account_email e' = account_email e /\ subject e' = subject e
           /\ sender e' = sender e /\ body e' = body e
       | Some old =>
           account_email e' = r_account_email old /\ subject e' = r_subject old
           /\ sender e' = r_sender old /\ body e' = r_body old
       end.
Proof.
  intros Hc Ha Hi.
  destruct (healthy_save w e i Hc Ha Hi) as (_ & He & _ & Hc' & _).
  unfold get_email_by_id, get_connection. rewrite Hc', He.
  pose proof (find_upsert_id (row_of w i e) (emails w)) as Hf.
  cbn [r_id row_of] in Hf. unfold by_id in *. fold (row_of w i e) in Hf. rewrite Hf.
  eexists. split; [reflexivity|].
  destruct (find _ (emails w)) as [old|] eqn:Eo; cbn.
  - apply find_some in Eo as [_ Eo]. apply text_eqb_eq in Eo. rewrite Eo. repeat split.
  - repeat split.
Qed.

Lemma saved_email_is_read_back_witness :
  exists e',
    fst (get_email_by_id (snd (save_email consistent_example reply)) [56%N]) = Some e'
    /\ id e' = IdStr [56%N] /\ is_read e' = true.
Proof.
  destruct (saved_email_is_read_back consistent_example reply [56%N]
              eq_refl eq_refl eq_refl) as (e' & H1 & H2 & H3 & _).
  exists e'. split; [exact H1|]. split; [exact H2|exact H3].
Defined.

Lemma filter_none (f : row -> bool) (rows : list row) :
  (forall r, In r rows -> f r = true) -> filter f rows = rows.
Proof.
  intros H. apply forallb_filter_id. apply forallb_forall. exact H.
Qed.

(** X5: with a working connection, saving a message under an id that is
    not yet stored and then deleting that id gives back the stored messages
    as they were, and [delete_email] reports that it deleted something. *)
Theorem save_then_delete_restores (w : world) (e : Email) (i : text) :
  conns w = [] -> mem_str (account_email e) (accounts w) = true ->
  clean_id (id e) = Ok i -> has_id i (emails w) = false ->
  fst (delete_email (snd (save_email w e)) i) = true
  /\ emails (snd (delete_email (snd (save_email w e)) i)) = emails w.
Proof.
  intros Hc Ha Hi Hn.
  destruct (healthy_save w e i Hc Ha Hi) as (_ & He & _ & Hc' & _).
  unfold delete_email, get_connection. rewrite Hc', He. cbn [fst snd emails set_emails].
  rewrite upsert_absent by exact Hn.
  rewrite !filter_app. cbn [filter r_id row_of]. rewrite text_eqb_refl. cbn [negb].
  assert (Hx : forall r, In r (emails w) -> text_eqb (r_id r) i = false).
  { intros r Hin. destruct (text_eqb (r_id r) i) eqn:E; [|reflexivity].
    assert (has_id i (emails w) = true); [|congruence].
    apply has_id_in. exists r. split; [assumption|now apply text_eqb_eq]. }
  split.
  - rewrite length_app. simpl.
    destruct (List.length (filter _ (emails w)) + 1) eqn:El; [lia|reflexivity].
  - rewrite app_nil_r. apply filter_none. intros r Hin. now rewrite Hx.
Qed.

Lemma save_then_delete_restores_witness :
  fst (delete_email (snd (save_email consistent_example reply)) [56%N]) = true
  /\ emails (snd (delete_email (snd (save_email consistent_example reply)) [56%N]))
     = emails consistent_example.
Proof.
  apply (save_then_delete_restores consistent_example reply [56%N]); reflexivity.
Defined.

(** X6: with a working connection, [delete_email] returns [True] exactly
    when a message with the id is stored; afterwards no message has the id,
    [get_email_by_id] returns [None] for it, a second [delete_email] returns
    [False], and every message with another id is still stored, in the same
    order. *)
Theorem deleted_email_is_gone (w : world) (i : text) :
  conns w = [] ->
  let w' := snd (delete_email w i) in
  fst (delete_email w i) = has_id i (emails w)
  /\ has_id i (emails w') = false
  /\ fst (get_email_by_id w' i) = None
  /\ fst (delete_email w' i) = false
  /\ emails w' = filter (fun r => negb (by_id i r)) (emails w).
Proof.
  intros Hc. cbv zeta.
  assert (Hcount : forall rows,
             Nat.ltb 0 (List.length (filter (fun r => text_eqb (r_id r) i) rows))
             = has_id i rows).
  { unfold has_id. induction rows as [|x rest IH]; simpl; [reflexivity|].
    destruct (text_eqb (r_id x) i); simpl; [reflexivity|assumption]. }
  assert (Hd : forall v, conns v = [] ->
             delete_email v i
             = (has_id i (emails v),
                set_emails v (filter (fun r => negb (by_id i r)) (emails v)))).
  { intros v Hv. unfold delete_email, get_connection. rewrite Hv, Hcount.
    destruct v; reflexivity. }
  assert (Hgone : has_id i (filter (fun r => negb (by_id i r)) (emails w)) = false).
  { unfold has_id. destruct (existsb _ _) eqn:E; [|reflexivity].
    apply existsb_exists in E as (r & Hin & Hr).
    apply filter_In in Hin as [_ Hn]. unfold by_id in Hn. now rewrite Hr in Hn. }
  rewrite (Hd w Hc). cbn [fst snd].
  split; [reflexivity|]. split; [exact Hgone|]. split; [|split].
  - unfold get_email_by_id, get_connection. cbn [conns set_emails]. rewrite Hc.
    cbn [emails]. destruct (find _ _) as [r|] eqn:E; [|reflexivity].
    pose proof (find_some _ _ E) as [_ Hr]. apply text_eqb_eq in Hr.
    apply find_has_id in E. rewrite Hr in E. cbn [emails set_emails] in E. congruence.
  - rewrite Hd by exact Hc. exact Hgone.
  - reflexivity.
Qed.

Lemma deleted_email_is_gone_witness :
  fst (delete_email consistent_example [55%N]) = true
  /\ fst (get_email_by_id (snd (delete_email consistent_example [55%N])) [55%N]) = None.
Proof.
  pose proof (deleted_email_is_gone consistent_example [55%N] eq_refl) as H.
  cbv zeta in H. destruct H as (H1 & _ & H3 & _).
  split; [exact H1|exact H3].
Defined.


(** *** Deleting an account *)

Lemma filter_twice (f : row -> bool) (rows : list row) :
  filter f (filter f rows) = filter f rows.
Proof.
  apply forallb_filter_id. apply forallb_forall. intros r Hin.
  now apply filter_In in Hin.
Qed.

(** X7: with a working connection, [delete_email_account] returns [True]
    exactly when the account is registered; afterwards the account is not
    registered, the messages of the other accounts are the ones stored
    before, a successful deletion has left no message of the account, and
    [save_email] refuses every message of the account and stores nothing. *)
Theorem deleted_account_refuses_messages (w : world) (a : string) (e : Email) :
  conns w = [] -> account_email e = a ->
  let other := fun r => negb (String.eqb (r_account_email r) a) in
  let w' := snd (delete_email_account w a) in
  fst (delete_email_account w a) = mem_str a (accounts w)
  /\ mem_str a (accounts w') = false
  /\ filter other (emails w') = filter other (emails w)
  /\ (fst (delete_email_account w a) = true -> emails w' = filter other (emails w))
  /\ fst (save_email w' e) = false
  /\ emails (snd (save_email w' e)) = emails w'.
Proof.
  intros Hc Ha. cbv zeta.
  destruct (delete_email_account_healthy w a Hc) as (Hok & He & Hacc & Hc').
  split; [assumption|].
  assert (Hm : mem_str a (accounts (snd (delete_email_account w a))) = false).
  { rewrite Hacc. apply mem_str_removed. }
  split; [assumption|]. split; [|split].
  - rewrite He. destruct (mem_str a (accounts w)); [apply filter_twice|reflexivity].
  - rewrite Hok, He. now intros ->.
  - unfold save_email, get_connection. rewrite Hc', Ha, Hm. simpl. auto.
Qed.

Lemma deleted_account_refuses_messages_witness :
  fst (delete_email_account consistent_example "me@example.com") = true
  /\ fst (save_email (snd (delete_email_account consistent_example "me@example.com")) reply)
     = false.
Proof.
  pose proof (deleted_account_refuses_messages consistent_example "me@example.com" reply
                eq_refl eq_refl) as H.
  cbv zeta in H. destruct H as (H1 & _ & _ & _ & H5 & _).
  split; [exact H1|exact H5].
Defined.

(** *** The read flag *)

(** A row after one of the two routes has gone over it. *)
Definition marked (b : bool) (r : row) : row :=
  mkRow (r_id r) (r_account_email r) (r_subject r) (r_sender r) (r_date r) (r_body r)
        (or_general (r_category r)) (or_general (r_main_category r))
        (or_general (r_sub_category r)) b (r_email_hash r) (r_message_id r).

Lemma get_email_by_id_healthy (w : world) (i : text) :
  conns w = [] ->
  get_email_by_id w i = (option_map (email_of_row w) (find (by_id i) (emails w)), w).
Proof.
  intros Hc. unfold get_email_by_id, get_connection, by_id. rewrite Hc.
  now destruct (find _ _).
Qed.

Lemma mark_row (w : world) (i : text) (b : bool) (r : row) :
  conns w = [] -> consistent w -> plain i = true ->
  find (by_id i) (emails w) = Some r ->
  emails (snd (save_email w (set_is_read (email_of_row w r) b)))
  = map (fun x => if by_id i x then marked b x else x) (emails w).
Proof.
  intros Hc [Hn Hr] Hp Hf.
  pose proof (find_some _ _ Hf) as [Hin Hid]. unfold by_id in Hid.
  apply text_eqb_eq in Hid.
  assert (Ha : mem_str (account_email (set_is_read (email_of_row w r) b)) (accounts w) = true).
  { rewrite Forall_forall in Hr. exact (Hr r Hin). }
  assert (Hi : clean_id (id (set_is_read (email_of_row w r) b)) = Ok i).
  { cbn [id set_is_read email_of_row]. rewrite Hid. now apply clean_plain. }
  destruct (healthy_save w _ i Hc Ha Hi) as (_ & He & _).
  rewrite He. rewrite upsert_map; [|assumption|].
  - apply map_ext_in. intros x Hx. unfold replace_row, by_id. cbn [r_id row_of].
    destruct (text_eqb (r_id x) i) eqn:E; [|reflexivity].
    apply text_eqb_eq in E.
    assert (x = r) as -> by (apply (unique_row (emails w)); auto; congruence).
    reflexivity.
  - cbn [r_id row_of]. apply has_id_in. eauto.
Qed.

(** X8: with a working connection, a consistent store and an id that
    [save_email] stores as it is: when a message has the id, the routes
    [mark_email_read] and [mark_email_unread] answer 200 with that message,
    its flag set resp. cleared, and store the flag on that message, on which
    an empty category is replaced by 'general', every other column and every
    other message being left as it was; when no message has the id they
    answer 404 and change nothing. *)
Theorem mark_routes_set_the_flag (w : world) (i : text) :
  conns w = [] -> consistent w -> plain i = true ->
  match find (by_id i) (emails w) with
  | Some r =>
      fst (mark_email_read w i) = E200 (set_is_read (email_of_row w r) true)
      /\ emails (snd (mark_email_read w i))
         = map (fun x => if by_id i x then marked true x else x) (emails w)
      /\ fst (mark_email_unread w i) = E200 (set_is_read (email_of_row w r) false)
      /\ emails (snd (mark_email_unread w i))
         = map (fun x => if by_id i x then marked false x else x) (emails w)
  | None =>
      fst (mark_email_read w i) = E404 /\ emails (snd (mark_email_read w i)) = emails w
      /\ fst (mark_email_unread w i) = E404 /\ emails (snd (mark_email_unread w i)) = emails w
  end.
Proof.
  intros Hc Hcons Hp.
  unfold mark_email_read, mark_email_unread. rewrite get_email_by_id_healthy by exact Hc.
  destruct (find (by_id i) (emails w)) as [r|] eqn:Hf; cbn [option_map].
  - pose proof (mark_row w i true r Hc Hcons Hp Hf) as H1.
    pose proof (mark_row w i false r Hc Hcons Hp Hf) as H2.
    destruct (save_email w (set_is_read (email_of_row w r) true)) as [ok1 w1].
    destruct (save_email w (set_is_read (email_of_row w r) false)) as [ok2 w2].
    cbn [fst snd emails add_log] in *. auto.
  - cbn [fst snd]. auto.
Qed.

Lemma mark_routes_set_the_flag_witness :
  exists e,
    fst (mark_email_read consistent_example [55%N]) = E200 e /\ is_read e = true
    /\ map r_is_read (emails (snd (mark_email_read consistent_example [55%N]))) = [true].
Proof.
  pose proof (mark_routes_set_the_flag consistent_example [55%N]
                eq_refl consistent_example_ok eq_refl) as H.
  cbn [find by_id emails consistent_example] in H.
  destruct H as (H1 & H2 & _).
  eexists. split; [exact H1|]. split; [reflexivity|]. rewrite H2. reflexivity.
Defined.

(** *** The spellings of an id *)

Definition byte_of (c : N) : Byte.byte :=
  match Byte.of_N c with Some b => b | None => Byte.x00 end.

Lemma byte_of_to_N (c : N) : (c < 256)%N -> Byte.to_N (byte_of c) = c.
Proof.
  intros H. unfold byte_of. destruct (Byte.of_N c) as [b|] eqn:E.
  - now apply Byte.to_of_N.
  - apply Byte.of_N_None_iff in E. lia.
Qed.

Definition seven_bit (c : N) : Prop := (c < 128)%N.

Lemma feed_seven_bit (h : errors) (t : text) (o : list N) (b : bool) :
  Forall seven_bit t ->
  fold_left (feed h) (map byte_of t) (mkD [] o b) = mkD [] (rev t ++ o) b.
Proof.
  intros H. revert o. induction H as [|c r Hc _ IH]; intros o; simpl; [reflexivity|].
  unfold feed at 2. cbn [pending]. unfold start.
  rewrite byte_of_to_N by (unfold seven_bit in Hc; lia).
  assert (E : (c <? 128)%N = true) by (apply N.ltb_lt; exact Hc).
  rewrite E. cbn [out bad]. rewrite IH. now rewrite <- app_assoc.
Qed.

Lemma decode_seven_bit (t : text) :
  Forall seven_bit t -> decode_utf8 Strict (map byte_of t) = Ok t.
Proof.
  intros H. unfold decode_utf8. rewrite feed_seven_bit by exact H.
  cbn. now rewrite app_nil_r, rev_involutive.
Qed.

Lemma strip_wrapper (t : text) : clean_id (IdStr ([98; 39] ++ t ++ [39]))%N = Ok t.
Proof.
  unfold clean_id.
  assert (Hl : last ([98; 39] ++ t ++ [39])%N 0%N = 39%N).
  { change ([98; 39] ++ t ++ [39])%N with (([98; 39] ++ t) ++ [39])%N at 1.
    apply last_last. }
  rewrite Hl. cbn [starts_with app N.eqb Pos.eqb andb].
  cbn [List.length skipn].
  rewrite length_app. cbn [List.length].
  replace (Datatypes.S (Datatypes.S (List.length t + 1)) - 3) with (List.length t) by lia.
  rewrite firstn_app, Nat.sub_diag, firstn_all. cbn [firstn]. now rewrite app_nil_r.
Qed.

(** X9: [save_email] reads the three spellings of an id as the same key:
    for every id of 7-bit characters that is not empty and not of the form
    b'...', the id itself, the same id as [bytes] and the text b'...'
    around it (the [str()] of those bytes) are all cleaned to the id, so
    that a message saved under any of them lands on the same stored
    message. *)
Theorem id_spellings_agree (w : world) (e : Email) (t : text) :
  Forall seven_bit t -> plain t = true ->
  let with_id := fun i =>
    mkEmail i (account_email e) (subject e) (sender e) (date e) (body e)
            (category e) (main_category e) (sub_category e) (is_read e)
            (email_hash e) (message_id e) in
  clean_id (IdStr t) = Ok t
  /\ clean_id (IdBytes (map byte_of t)) = Ok t
  /\ clean_id (IdStr ([98; 39] ++ t ++ [39]))%N = Ok t
  /\ save_email w (with_id (IdBytes (map byte_of t))) = save_email w (with_id (IdStr t))
  /\ save_email w (with_id (IdStr ([98; 39] ++ t ++ [39]))%N) = save_email w (with_id (IdStr t)).
Proof.
  intros Hs Hp. cbv zeta.
  pose proof (clean_plain t Hp) as H1.
  pose proof (decode_seven_bit t Hs) as H2.
  pose proof (strip_wrapper t) as H3.
  split; [assumption|]. split; [exact H2|]. split; [assumption|].
  assert (H2' : clean_id (IdBytes (map byte_of t)) = Ok t) by exact H2.
  unfold save_email, row_of.
  cbn [id account_email subject sender date body category main_category sub_category
       is_read email_hash message_id].
  rewrite H1, H2', H3. split; reflexivity.
Qed.

Lemma id_spellings_agree_witness :
  clean_id (IdBytes [Byte.x38]) = Ok [56%N]
  /\ clean_id (IdStr [98; 39; 56; 39]%N) = Ok [56%N].
Proof.
  pose proof (id_spellings_agree consistent_example reply [56%N]
                ltac:(repeat constructor) eq_refl) as H.
  cbv zeta in H. destruct H as (_ & H2 & H3 & _).
  split; [exact H2|exact H3].
Defined.

End StoreProps.

(** ** The fetch and the store *)

Module FetchProps.
Import PyStr Codec Store Pipeline Orchestrator StoreOps PipelineProps StoreProps.
Local Open Scope list_scope.

(** *** What a fetch leaves alone *)

(** The accounts are the same and the stored messages are still there, in
    their places, with their fixed columns. *)
Definition keeps (w w' : world) : Prop :=
  accounts w' = accounts w
  /\ exists added,
       map fixed_columns (emails w') = map fixed_columns (emails w) ++ added.

Lemma keeps_refl (w : world) : keeps w w.
Proof. split; [reflexivity|]. exists []. now rewrite app_nil_r. Qed.

Lemma keeps_trans (w1 w2 w3 : world) : keeps w1 w2 -> keeps w2 w3 -> keeps w1 w3.
Proof.
  intros [A1 [x1 E1]] [A2 [x2 E2]]. split; [congruence|].
  exists (x1 ++ x2). now rewrite E2, E1, app_assoc.
Qed.

Lemma keeps_same (w w' : world) :
  accounts w' = accounts w -> emails w' = emails w -> keeps w w'.
Proof.
  intros Ha He. split; [assumption|]. exists []. now rewrite He, app_nil_r.
Qed.

Lemma email_exists_store (w : world) (mid h : option string) :
  accounts (snd (email_exists w mid h)) = accounts w
  /\ emails (snd (email_exists w mid h)) = emails w.
Proof.
  unfold email_exists.
  destruct (negb (truthy mid) && negb (truthy h)); [auto|].
  destruct (get_connection_store w) as (Ha & He & _).
  destruct (get_connection w) as [[[]|ex] w1]; simpl in *; auto.
Qed.

Lemma email_exists_sound (w : world) (mid h : option string) (i : text) :
  fst (email_exists w mid h) = Some i -> has_id i (emails w) = true.
Proof.
  unfold email_exists.
  destruct (negb (truthy mid) && negb (truthy h)); [discriminate|].
  destruct (get_connection_store w) as (_ & He & _).
  destruct (get_connection w) as [[[]|ex] w1]; simpl in *; [|discriminate].
  rewrite <- He.
  destruct mid as [[|c m]|]; destruct h as [h|]; simpl;
    try discriminate;
    match goal with
    | |- option_map r_id (find ?f ?l) = Some i -> _ =>
        destruct (find f l) as [r|] eqn:E; simpl; [|discriminate];
        intros H; injection H as <-; now apply find_has_id in E
    end.
Qed.

Lemma keeps_save_email (w : world) (e : Email) : keeps w (snd (save_email w e)).
Proof.
  destruct (save_email_cases w e) as [(_ & He & Ha)|(i & _ & _ & _ & He & Ha)].
  - now apply keeps_same.
  - split; [assumption|]. rewrite He.
    destruct (upsert_fixed (row_of (snd (get_connection w)) i e) (emails w)) as (x & E & _).
    eauto.
Qed.

Lemma keeps_process_candidate (st : world * list Email) (e : Email) :
  keeps (fst st) (fst (process_candidate st e)).
Proof.
  destruct st as [w es]. unfold process_candidate.
  destruct (generate_email_hash (now w) e) as [h|ex]; [|now apply keeps_same].
  destruct (email_exists_store w (message_id (prepare e h)) (email_hash (prepare e h)))
    as (Ha & He).
  destruct (email_exists w _ _) as [existing w1]. cbn [fst snd] in *.
  match goal with
  | |- context [save_email w1 ?c] =>
      pose proof (keeps_save_email w1 c) as H2; destruct (save_email w1 c) as [ok w2]
  end.
  cbn [snd] in H2.
  assert (H : keeps w w2).
  { eapply keeps_trans; [|exact H2]. now apply keeps_same. }
  destruct (found existing); cbn [fst];
    (eapply keeps_trans; [exact H|]; now apply keeps_same).
Qed.

Lemma keeps_process_fetched (account : string) (st : world * list Email)
      (m : option fetched_message) :
  keeps (fst st) (fst (process_fetched account st m)).
Proof.
  destruct (process_fetched_cases account st m) as [->|[->|[t ->]]].
  - apply keeps_refl.
  - now apply keeps_same.
  - unfold process_message. cbn [_fetch_single_email]. apply keeps_process_candidate.
Qed.

Lemma keeps_fold (account : string) (l : list (option fetched_message))
      (st : world * list Email) :
  keeps (fst st) (fst (fold_left (process_fetched account) l st)).
Proof.
  revert st. induction l as [|m rest IH]; intros st; simpl; [apply keeps_refl|].
  eapply keeps_trans; [|apply IH]. apply keeps_process_fetched.
Qed.

(** X10: whatever the server, the mailbox, the stored messages and the
    state of the database connection, [fetch_emails_from_account] changes no
    account, removes and reorders no stored message and leaves the id,
    account, subject, sender, date and body of every stored message as they
    are; when it raises, it has changed no stored message at all. *)
Theorem fetch_keeps_stored_content (w : world) (account : string) (limit : option nat)
        (s : session) :
  let r := fetch_emails_from_account w account limit s in
  accounts (snd r) = accounts w
  /\ (exists added,
        map fixed_columns (emails (snd r)) = map fixed_columns (emails w) ++ added)
  /\ match fst r with
     | Raise _ => emails (snd r) = emails w
     | Ok _ => True
     end.
Proof.
  cbv zeta. unfold fetch_emails_from_account.
  destruct s as [msg|msg|[|] messages]; cbn [fst snd].
  - split; [reflexivity|]. split; [|reflexivity]. exists []. now rewrite app_nil_r.
  - split; [reflexivity|]. split; [|reflexivity]. exists []. now rewrite app_nil_r.
  - pose proof (keeps_fold account (apply_limit limit messages) (add_connect w account, []))
      as [Ha Hx].
    destruct (fold_left _ _ _) as [w' es]. cbn [fst snd] in *. auto.
  - split; [reflexivity|]. split; [|exact I]. exists []. now rewrite app_nil_r.
Qed.

(** *** Consistency across the passes *)

Lemma consistent_process_candidate (st : world * list Email) (e : Email) :
  consistent (fst st) -> consistent (fst (process_candidate st e)).
Proof.
  destruct st as [w es]. cbn [fst]. intros H. unfold process_candidate.
  destruct (generate_email_hash (now w) e) as [h|ex]; [|exact H].
  destruct (email_exists_store w (message_id (prepare e h)) (email_hash (prepare e h)))
    as (Ha & He).
  destruct (email_exists w _ _) as [existing w1]. cbn [fst snd] in *.
  pose proof (consistent_same _ _ Ha He H) as H1.
  match goal with
  | |- context [save_email w1 ?c] =>
      pose proof (save_email_consistent w1 c H1) as H2; destruct (save_email w1 c) as [ok w2]
  end.
  cbn [snd] in H2. destruct (found existing); exact H2.
Qed.

Lemma consistent_fold (account : string) (l : list (option fetched_message))
      (st : world * list Email) :
  consistent (fst st) -> consistent (fst (fold_left (process_fetched account) l st)).
Proof.
  revert st. induction l as [|m rest IH]; intros st H; simpl; [assumption|].
  apply IH. destruct (process_fetched_cases account st m) as [->|[->|[t ->]]].
  - assumption.
  - exact H.
  - unfold process_message. cbn [_fetch_single_email].
    now apply consistent_process_candidate.
Qed.

Lemma consistent_fetch (w : world) (account : string) (limit : option nat) (s : session) :
  consistent w -> consistent (snd (fetch_emails_from_account w account limit s)).
Proof.
  intros H. unfold fetch_emails_from_account.
  destruct s as [msg|msg|[|] messages]; cbn [snd]; try exact H.
  pose proof (consistent_fold account (apply_limit limit messages)
                (add_connect w account, []) H) as H1.
  destruct (fold_left _ _ _) as [w' es]. exact H1.
Qed.

Lemma consistent_save_all (es : list Email) (w : world) :
  consistent w -> consistent (save_all w es).
Proof.
  unfold save_all. revert w. induction es as [|e rest IH]; intros w H; simpl; [assumption|].
  apply IH. now apply save_email_consistent.
Qed.

Lemma consistent_route_body (limit : option nat) (a : account_env) (st : state) :
  consistent (fst (fst st)) -> consistent (fst (fst (snd (route_body limit a st)))).
Proof.
  destruct st as [[w res] stats]. cbn [fst]. intros H. unfold route_body.
  unfold test_account_connection.
  destruct (test_ok a); cbn [negb fst snd].
  - pose proof (consistent_fetch
                  (add_connect (add_log w (LogInfo "Fetching emails from")) (acc_email a))
                  (acc_email a) limit (acc_session a) H) as H1.
    destruct (fetch_emails_from_account _ _ _ _) as [[es|ex] w1]; cbn [fst snd] in *.
    + now apply (consistent_save_all es w1).
    + exact H1.
  - exact H.
Qed.

Lemma consistent_route_loop (limit : option nat) (l : list account_env) (st : state) :
  consistent (fst (fst st)) -> consistent (fst (fst (route_loop limit l st))).
Proof.
  revert st. induction l as [|a rest IH]; intros st H; simpl; [assumption|].
  pose proof (consistent_route_body limit a st H) as H1.
  destruct (route_body limit a st) as [[[]|ex] st']; cbn [snd] in H1.
  - now apply IH.
  - apply IH. destruct st' as [[w res] stats]. exact H1.
Qed.

Lemma consistent_background_loop (l : list account_env) (w : world) :
  consistent w -> consistent (background_loop l w).
Proof.
  revert w. induction l as [|a rest IH]; intros w H; simpl; [assumption|].
  pose proof (consistent_fetch w (acc_email a) None (acc_session a) H) as H1.
  destruct (fetch_emails_from_account _ _ _ _) as [[es|ex] w1]; cbn [snd] in H1.
  - now apply IH.
  - apply IH. exact H1.
Qed.

(** X11: the passes keep the store consistent: when the ids of the stored
    messages are pairwise distinct and every stored message belongs to a
    registered account, the same holds after [fetch_emails_from_account],
    after the route [fetch_emails] (which fetches every account and saves the
    new messages once more) and after the background pass [_fetch_emails],
    whatever the servers and the database connection do. *)
Theorem passes_keep_consistency (w : world) (account : string) (limit : option nat)
        (s : session) (user_found : bool) (accs : list account_env) (stats : email_stats_t) :
  consistent w ->
  consistent (snd (fetch_emails_from_account w account limit s))
  /\ consistent (snd (fst (fetch_emails user_found limit accs w stats)))
  /\ consistent (_fetch_emails accs w).
Proof.
  intros H. split; [now apply consistent_fetch|]. split.
  - unfold fetch_emails. destruct user_found; cbn [negb]; [|exact H].
    destruct accs as [|a rest]; [exact H|].
    pose proof (consistent_route_loop limit (a :: rest)
                  (w, mkResults (List.length (a :: rest)) 0 0 0 [], stats) H) as H1.
    destruct (route_loop _ _ _) as [[w1 res] stats1]. cbn [fst] in H1.
    unfold get_email_stats.
    destruct (get_connection_store w1) as (Ha & He & _).
    destruct (get_connection w1) as [[[]|ex] w2]; cbn [fst snd] in *;
      exact (consistent_same _ _ Ha He H1).
  - unfold _fetch_emails. destruct accs as [|a rest]; [exact H|].
    now apply consistent_background_loop.
Qed.


Lemma passes_keep_consistency_witness :
  consistent (snd (fetch_emails_from_account consistent_example "me@example.com" (Some 5)
                     (Search true [Some (of_typed (greeting 7 (Some "<a@x>"))); None;
                                   Some (of_typed (greeting 8 None))]))).
Proof.
  exact (proj1 (passes_keep_consistency consistent_example "me@example.com" (Some 5)
                  (Search true [Some (of_typed (greeting 7 (Some "<a@x>"))); None;
                                Some (of_typed (greeting 8 None))])
                  true [] (mkStats [] [] 0) consistent_example_ok)).
Defined.

(** *** New rows and new messages *)

Lemma upsert_length (r : row) (rows : list row) :
  List.length rows <= List.length (upsert r rows) <= Datatypes.S (List.length rows).
Proof.
  destruct (upsert_fixed r rows) as (added & E & L).
  apply (f_equal (@List.length _)) in E. rewrite length_app, !length_map in E. lia.
Qed.

Lemma plain_in (rows : list row) (i : text) :
  plain_rows rows -> has_id i rows = true -> plain i = true.
Proof.
  intros Hp Hi. apply has_id_in in Hi as (r & Hin & <-).
  unfold plain_rows in Hp. rewrite Forall_forall in Hp. auto.
Qed.

(** One candidate with a plain id of its own, whatever the connection
    does: at most one row and at most one report more, and never a row
    without a report. *)
Lemma candidate_step (w : world) (es : list Email) (e : Email) (j : text) :
  id e = IdStr j -> plain j = true -> plain_rows (emails w) ->
  plain_rows (emails (fst (process_candidate (w, es) e)))
  /\ List.length (emails (fst (process_candidate (w, es) e))) + List.length es
     <= List.length (emails w) + List.length (snd (process_candidate (w, es) e))
  /\ List.length es <= List.length (snd (process_candidate (w, es) e))
     <= Datatypes.S (List.length es).
Proof.
  intros Hid Hj Hp. unfold process_candidate.
  destruct (generate_email_hash (now w) e) as [h|ex]; cbn [fst snd emails add_log];
    [|split; [assumption|lia]].
  destruct (prepare_fields e h) as (Hpid & _).
  pose proof (email_exists_store w (message_id (prepare e h)) (email_hash (prepare e h)))
    as (_ & He).
  pose proof (email_exists_sound w (message_id (prepare e h)) (email_hash (prepare e h)))
    as Hs.
  destruct (email_exists w _ _) as [existing w1]. cbn [fst snd] in *.
  destruct existing as [[|c i]|].
  - (* a stored id that is empty: not among plain rows *)
    pose proof (plain_in _ _ Hp (Hs [] eq_refl)) as Hx. discriminate.
  - pose proof (plain_in _ _ Hp (Hs (c :: i) eq_refl)) as Hx.
    destruct (save_email_cases w1 (set_id (prepare e h) (c :: i)))
      as [(_ & He2 & _)|(i' & Hc & _ & _ & He2 & _)];
      destruct (save_email w1 _) as [ok w2]; cbn [fst snd found emails add_log] in *.
    + rewrite He2, He. split; [assumption|lia].
    + unfold set_id in Hc. cbn [id] in Hc.
      rewrite (clean_plain _ Hx) in Hc. injection Hc as <-.
      rewrite He2, He. split.
      * apply upsert_plain; [exact Hx|assumption].
      * rewrite upsert_present; [lia|]. cbn [r_id row_of]. now apply Hs.
  - destruct (save_email_cases w1 (prepare e h))
      as [(_ & He2 & _)|(i' & Hc & _ & _ & He2 & _)];
      destruct (save_email w1 _) as [ok w2]; cbn [fst snd found emails add_log] in *;
      rewrite length_app; cbn [List.length].
    + rewrite He2, He. split; [assumption|lia].
    + rewrite Hpid, Hid, (clean_plain _ Hj) in Hc. injection Hc as <-.
      rewrite He2, He. split.
      * apply upsert_plain; [exact Hj|assumption].
      * pose proof (upsert_length (row_of (snd (get_connection w1)) j (prepare e h))
                      (emails w)). lia.
Qed.

Lemma message_step (account : string) (w : world) (es : list Email)
      (m : option raw_message) :
  plain_rows (emails w) ->
  plain_rows (emails (fst (process_message account (w, es) m)))
  /\ List.length (emails (fst (process_message account (w, es) m))) + List.length es
     <= List.length (emails w) + List.length (snd (process_message account (w, es) m))
  /\ List.length es <= List.length (snd (process_message account (w, es) m))
     <= Datatypes.S (List.length es).
Proof.
  intros Hp. unfold process_message. cbn [fst].
  destruct m as [m|]; cbn [_fetch_single_email].
  - apply candidate_step with (j := decimal (seq m));
      [reflexivity|apply decimal_plain|assumption].
  - cbn [fst snd]. split; [assumption|lia].
Qed.

Lemma fetched_step (account : string) (w : world) (es : list Email)
      (m : option fetched_message) :
  plain_rows (emails w) ->
  plain_rows (emails (fst (process_fetched account (w, es) m)))
  /\ List.length (emails (fst (process_fetched account (w, es) m))) + List.length es
     <= List.length (emails w) + List.length (snd (process_fetched account (w, es) m))
  /\ List.length es <= List.length (snd (process_fetched account (w, es) m))
     <= Datatypes.S (List.length es).
Proof.
  intros Hp.
  destruct (process_fetched_cases account (w, es) m) as [->|[->|[t ->]]];
    cbn [fst snd emails add_log].
  - split; [assumption|lia].
  - split; [assumption|lia].
  - now apply message_step.
Qed.

Lemma fold_step (account : string) (l : list (option fetched_message)) (w : world)
      (es : list Email) :
  plain_rows (emails w) ->
  let st' := fold_left (process_fetched account) l (w, es) in
  plain_rows (emails (fst st'))
  /\ List.length (emails (fst st')) + List.length es
     <= List.length (emails w) + List.length (snd st')
  /\ List.length es <= List.length (snd st') <= List.length es + List.length l.
Proof.
  revert w es. induction l as [|m rest IH]; intros w es Hp; cbn [fold_left fst snd].
  - split; [assumption|]. simpl. lia.
  - destruct (fetched_step account w es m Hp) as (H1 & H2 & H3).
    destruct (process_fetched account (w, es) m) as [w1 es1]. cbn [fst snd] in *.
    destruct (IH w1 es1 H1) as (H4 & H5 & H6). cbv zeta in *.
    split; [assumption|]. cbn [List.length]. lia.
Qed.

Lemma apply_limit_length {A : Type} (limit : option nat) (l : list A) :
  List.length (apply_limit limit l) <= List.length l
  /\ match limit with
     | Some (Datatypes.S n) => List.length (apply_limit limit l) <= Datatypes.S n
     | _ => True
     end.
Proof.
  unfold apply_limit. destruct limit as [[|n]|]; try (split; [lia|exact I]).
  rewrite length_skipn. split; lia.
Qed.

(** X12: when the stored ids are ids that [save_email] stores as they are,
    what [fetch_emails_from_account] returns bounds what it stores: the
    number of messages it adds to the store is at most the number of messages
    it reports as new, which is at most the number of messages of the mailbox
    and, under a positive limit, at most the limit; the stored ids are still
    of that kind afterwards. *)
Theorem fetch_adds_at_most_reported (w : world) (account : string) (limit : option nat)
        (s : session) :
  plain_rows (emails w) ->
  let r := fetch_emails_from_account w account limit s in
  plain_rows (emails (snd r))
  /\ match fst r, s with
     | Ok es, Search _ messages =>
         List.length (emails (snd r)) <= List.length (emails w) + List.length es
         /\ List.length es <= List.length messages
         /\ match limit with
            | Some (Datatypes.S n) => List.length es <= Datatypes.S n
            | _ => True
            end
     | Ok es, _ => False
     | Raise _, _ => emails (snd r) = emails w
     end.
Proof.
  intros Hp. cbv zeta. unfold fetch_emails_from_account.
  destruct s as [msg|msg|[|] messages]; cbn [fst snd emails add_log add_connect].
  - split; [assumption|reflexivity].
  - split; [assumption|reflexivity].
  - pose proof (fold_step account (apply_limit limit messages) (add_connect w account) []
                  Hp) as H.
    cbv zeta in H. destruct (fold_left _ _ _) as [w' es]. cbn [fst snd] in *.
    destruct H as (H1 & H2 & H3).
    destruct (apply_limit_length limit messages) as (L1 & L2).
    cbn [List.length emails add_connect] in *.
    split; [assumption|]. split; [lia|]. split; [lia|].
    destruct limit as [[|n]|]; try exact I. lia.
  - split; [assumption|]. simpl. split; [lia|]. split; [lia|].
    destruct limit as [[|n]|]; try exact I. lia.
Qed.

Lemma fetch_adds_at_most_reported_witness :
  match fst (fetch_emails_from_account consistent_example "me@example.com" (Some 1)
               (Search true (inbox [greeting 7 (Some "<a@x>"); greeting 8 None]))) with
  | Ok es => List.length es <= 1
  | Raise _ => False
  end.
Proof.
  pose proof (fetch_adds_at_most_reported consistent_example "me@example.com" (Some 1)
                (Search true (inbox [greeting 7 (Some "<a@x>"); greeting 8 None]))
                ltac:(repeat constructor)) as H.
  cbv zeta in H. destruct H as (_ & H).
  destruct (fst (fetch_emails_from_account _ _ _ _)) as [es|ex].
  - destruct H as (_ & _ & H). exact H.
  - vm_compute in H. discriminate H.
Defined.


(** *** The second save of the route *)

Lemma has_id_ids (j : text) (rows : list row) :
  has_id j rows = true <-> In j (map r_id rows).
Proof.
  rewrite has_id_in, in_map_iff. split; intros (r & H1 & H2); exists r; auto.
Qed.

Lemma has_id_upsert_self (r : row) (rows : list row) :
  has_id (r_id r) (upsert r rows) = true.
Proof.
  apply has_id_ids. rewrite upsert_ids.
  destruct (has_id (r_id r) rows) eqn:E; [now apply has_id_ids|].
  apply in_or_app. right. simpl. auto.
Qed.

Lemma has_id_upsert_mono (j : text) (r : row) (rows : list row) :
  has_id j rows = true -> has_id j (upsert r rows) = true.
Proof.
  intros H. apply has_id_ids. rewrite upsert_ids. apply has_id_ids in H.
  destruct (has_id (r_id r) rows); [assumption|]. apply in_or_app. now left.
Qed.

Lemma upsert_present_fixed (r : row) (rows : list row) :
  has_id (r_id r) rows = true ->
  map fixed_columns (upsert r rows) = map fixed_columns rows.
Proof.
  induction rows as [|x rest IH]; simpl; [discriminate|].
  unfold has_id in *. simpl.
  destruct (text_eqb (r_id x) (r_id r)) eqn:E; simpl; [reflexivity|].
  intros H. now rewrite IH.
Qed.

(** A reported message: of the account, under a sequence number that has
    its row. *)
Definition reported (account : string) (rows : list row) (e : Email) : Prop :=
  account_email e = account
  /\ exists n, id e = IdStr (decimal n) /\ has_id (decimal n) rows = true.

Definition healthy (account : string) (st : world * list Email) : Prop :=
  conns (fst st) = [] /\ mem_str account (accounts (fst st)) = true
  /\ plain_rows (emails (fst st))
  /\ Forall (reported account (emails (fst st))) (snd st).

Lemma reported_upsert (account : string) (r : row) (rows : list row) (es : list Email) :
  Forall (reported account rows) es -> Forall (reported account (upsert r rows)) es.
Proof.
  apply Forall_impl. intros e (Ha & n & Hi & Hh). split; [assumption|].
  exists n. split; [assumption|]. now apply has_id_upsert_mono.
Qed.

Lemma healthy_step (account : string) (st : world * list Email) (m : option raw_message) :
  healthy account st -> healthy account (process_message account st m).
Proof.
  destruct st as [w es]. intros (Hc & Ha & Hp & Hr). cbn [fst snd] in *.
  destruct m as [m|]; [|repeat split; assumption].
  destruct (find (row_matches (raw_message_id m) (content_hash account m)) (emails w))
    as [r0|] eqn:Hf.
  - assert (Hr0 : plain (r_id r0) = true).
    { apply find_some in Hf as [Hin _].
      unfold plain_rows in Hp. rewrite Forall_forall in Hp. auto. }
    rewrite (step_found w account es m r0 Hc Ha Hf Hr0).
    unfold healthy, saved. cbn [fst snd conns accounts emails add_log set_emails].
    split; [assumption|]. split; [assumption|]. split.
    + apply upsert_plain; [|assumption]. exact Hr0.
    + now apply reported_upsert.
  - rewrite (step_new w account es m Hc Ha Hf).
    unfold healthy, saved. cbn [fst snd conns accounts emails add_log set_emails].
    split; [assumption|]. split; [assumption|]. split.
    + apply upsert_plain; [|assumption]. cbn [r_id row_of]. apply decimal_plain.
    + apply Forall_app. split; [now apply reported_upsert|].
      constructor; [|constructor].
      destruct (prepared_fields account m) as (Hid & Hacc & _).
      split; [assumption|]. exists (seq m). split; [assumption|].
      apply (has_id_upsert_self (row_of w (decimal (seq m)) (prepared account m))).
Qed.

Lemma healthy_fold (account : string) (l : list (option fetched_message))
      (st : world * list Email) :
  healthy account st -> healthy account (fold_left (process_fetched account) l st).
Proof.
  revert st. induction l as [|m rest IH]; intros st H; simpl; [assumption|].
  apply IH. destruct (process_fetched_cases account st m) as [->|[->|[t ->]]].
  - assumption.
  - destruct st as [w es]. exact H.
  - now apply healthy_step.
Qed.

Lemma resave (account : string) (es : list Email) (w : world) :
  conns w = [] -> mem_str account (accounts w) = true ->
  Forall (reported account (emails w)) es ->
  map fixed_columns (emails (save_all w es)) = map fixed_columns (emails w).
Proof.
  unfold save_all. revert w.
  induction es as [|e rest IH]; intros w Hc Ha Hr; simpl; [reflexivity|].
  inversion Hr as [|? ? (Hacc & n & Hid & Hh) Hrest]; subst.
  assert (Hi : clean_id (id e) = Ok (decimal n)).
  { rewrite Hid. apply clean_plain, decimal_plain. }
  assert (Ha' : mem_str (account_email e) (accounts w) = true) by assumption.
  destruct (healthy_save w e (decimal n) Hc Ha' Hi) as (_ & He & Hacc' & Hc' & _).
  rewrite IH.
  - rewrite He. now apply upsert_present_fixed.
  - assumption.
  - now rewrite Hacc'.
  - rewrite He. now apply reported_upsert.
Qed.

(** X13: with a working connection, a registered account and stored ids
    that [save_email] stores as they are, whatever the messages of the
    mailbox, the fetch returns a list and the second save the route
    [fetch_emails] gives the messages of that list adds no message to the
    store and changes no id, account, subject, sender, date or body. *)
Theorem resave_adds_no_row (w : world) (account : string) (limit : option nat)
        (messages : list (option fetched_message)) :
  conns w = [] -> mem_str account (accounts w) = true -> plain_rows (emails w) ->
  let r := fetch_emails_from_account w account limit (Search true messages) in
  match fst r with
  | Ok es =>
      map fixed_columns (emails (save_all (snd r) es)) = map fixed_columns (emails (snd r))
  | Raise _ => False
  end.
Proof.
  intros Hc Ha Hp. cbv zeta. unfold fetch_emails_from_account.
  pose proof (healthy_fold account (apply_limit limit messages) (add_connect w account, []))
    as H.
  destruct (fold_left _ _ _) as [w' es]. cbn [fst snd].
  destruct H as (Hc' & Ha' & Hp' & Hr').
  { repeat split; try assumption. constructor. }
  cbn [fst snd] in *.
  now apply (resave account).
Qed.

Lemma resave_adds_no_row_witness :
  let r := fetch_emails_from_account consistent_example "me@example.com" None
             (Search true (inbox [greeting 7 (Some "<a@x>"); greeting 8 None])) in
  match fst r with
  | Ok es => List.length (emails (save_all (snd r) es)) = List.length (emails (snd r))
  | Raise _ => False
  end.
Proof.
  pose proof (resave_adds_no_row consistent_example "me@example.com" None
                (inbox [greeting 7 (Some "<a@x>"); greeting 8 None])
                eq_refl eq_refl ltac:(repeat constructor)) as H.
  cbv zeta in *.
  destruct (fst (fetch_emails_from_account _ _ _ _)) as [es|ex]; [|exact H].
  apply (f_equal (@List.length _)) in H.
  rewrite !length_map in H. exact H.
Defined.

(** *** C5: errors of the hash and of the lookup *)

Lemma typed_inv (m : fetched_message) (t : raw_message) :
  typed m = Some t -> m = of_typed t.
Proof.
  destruct m as [q su se d n b mid seen h]. unfold typed, of_typed.
  cbn [raw_subject raw_sender seq raw_date raw_now raw_body raw_message_id raw_seen raw_msg_hash].
  destruct su as [su| |]; try discriminate. destruct se as [se| |]; try discriminate.
  intros H. injection H as <-. reflexivity.
Qed.

(** The next connection works. *)
Definition connection_works (conns : list bool) : bool :=
  match conns with [] => true | ok :: _ => ok end.


(** The message whose [Subject] is the encoded word
    [=?raw-unicode-escape?q?=5Cud800?=]: it decodes to the lone surrogate
    U+D800. *)
Definition surrogate_subject : fetched_message :=
  mkRaw 1 (Surrogate [] 0 []) (Str "bob@x.org") (Some "2024-01-01 10:00:00") clock "hi"
        (Some "<s@x>") false EmptyString.

(** A world whose next connection, the one of the lookup, fails, and one
    whose next two connections fail. *)
Definition world_lookup_down : world := mkWorld [inbox_account] [] [false] clock [] [].

Definition world_down : world := mkWorld [inbox_account] [] [false; false] clock [] [].



(** The message whose [Subject] is the raw bytes [caf] and E9: the
    parser hands over a [Header] object, whose [str()] ends in U+FFFD.  Its
    hash is computed, the categorizer raises on it, and the candidate is
    dropped in the same way. *)
Definition eight_bit_subject : fetched_message :=
  mkRaw 1 (HeaderObject [99; 97; 102; 65533]%N) (Str "bob@x.org")
        (Some "2024-01-01 10:00:00") clock "hi" (Some "<h@x>") false EmptyString.

Lemma header_object_is_dropped :
  let r := fetch_emails_from_account empty_world inbox_account None
             (Search true [Some eight_bit_subject]) in
  generate_email_hash_raw eight_bit_subject = Ok "70c715f9496c9b99f2ffb79779a50107"
  /\ fst r = Ok []
  /\ emails (snd r) = []
  /\ log (snd r) = [LogError "Error fetching email"].
Proof. vm_compute. repeat split. Qed.

End FetchProps.

(** ** The statistics *)

Module StatsProps.
Import PyStr Codec Store Pipeline Orchestrator StoreOps PipelineProps StoreProps.
Local Open Scope list_scope.

(** *** Counting by key *)

Fixpoint total (d : list (string * nat)) : nat :=
  match d with
  | [] => 0
  | (_, n) :: rest => n + total rest
  end.

(** [d.get(k, 0)] *)
Fixpoint count_of (d : list (string * nat)) (k : string) : nat :=
  match d with
  | [] => 0
  | (k', n) :: rest => if String.eqb k' k then n else count_of rest k
  end.

Lemma total_dict_add (d : list (string * nat)) (k : string) (n : nat) :
  total (dict_add d k n) = total d + n.
Proof.
  induction d as [|[k' v] rest IH]; simpl; [lia|].
  destruct (String.eqb k' k); simpl; lia.
Qed.

Lemma count_of_dict_add (d : list (string * nat)) (k c : string) (n : nat) :
  count_of (dict_add d k n) c = count_of d c + (if String.eqb k c then n else 0).
Proof.
  induction d as [|[k' v] rest IH]; simpl.
  - destruct (String.eqb k c); lia.
  - destruct (String.eqb k' k) eqn:E; simpl.
    + apply String.eqb_eq in E. subst k'.
      destruct (String.eqb k c); lia.
    + destruct (String.eqb k' c) eqn:E2; [|exact IH].
      apply String.eqb_eq in E2. subst k'.
      rewrite String.eqb_sym, E. lia.
Qed.

Lemma keys_dict_add (d : list (string * nat)) (k : string) (n : nat) :
  NoDup (map fst d) -> NoDup (map fst (dict_add d k n))
  /\ forall x, In x (map fst (dict_add d k n)) -> x = k \/ In x (map fst d).
Proof.
  induction d as [|[k' v] rest IH]; simpl; intros H.
  - split; [repeat constructor; intros []|]. intros x [<-|[]]. now left.
  - inversion H as [|? ? Hk Hrest]; subst.
    destruct (String.eqb k' k) eqn:E; simpl.
    + split; [assumption|]. intros x Hx. now right.
    + destruct (IH Hrest) as (H1 & H2). split.
      * constructor; [|assumption]. intros Hin.
        destruct (H2 _ Hin) as [->|Hin']; [|contradiction].
        now rewrite String.eqb_refl in E.
      * intros x [<-|Hx]; [right; now left|].
        destruct (H2 _ Hx); [now left|right; now right].
Qed.

(** [SELECT key, COUNT( * ) ... GROUP BY key] over the rows. *)
Definition group_count (key : row -> string) (rows : list row) (d : list (string * nat))
  : list (string * nat) :=
  fold_left (fun d r => dict_add d (key r) 1) rows d.

Lemma group_count_spec (key : row -> string) (rows : list row) (d : list (string * nat)) :
  NoDup (map fst d) ->
  NoDup (map fst (group_count key rows d))
  /\ total (group_count key rows d) = total d + List.length rows
  /\ forall c, count_of (group_count key rows d) c
               = count_of d c + List.length (filter (fun r => String.eqb (key r) c) rows).
Proof.
  unfold group_count. revert d. induction rows as [|r rest IH]; intros d H; simpl.
  - split; [assumption|]. split; [lia|]. intros c. lia.
  - destruct (keys_dict_add d (key r) 1 H) as (H1 & _).
    destruct (IH _ H1) as (I1 & I2 & I3).
    split; [assumption|]. split.
    + rewrite I2, total_dict_add. lia.
    + intros c. rewrite I3, count_of_dict_add.
      destruct (String.eqb (key r) c); simpl; lia.
Qed.

(** The statistics of a store whose connection works. *)
Definition counted (rows : list row) (stats : email_stats_t) : Prop :=
  fetch_errors stats = 0
  /\ NoDup (map fst (emails_by_category stats))
  /\ NoDup (map fst (emails_by_account stats))
  /\ total (emails_by_category stats) = List.length rows
  /\ total (emails_by_account stats) = List.length rows
  /\ (forall c, count_of (emails_by_category stats) c
                = List.length (filter (fun r => String.eqb (r_category r) c) rows))
  /\ (forall a, count_of (emails_by_account stats) a
                = List.length (filter (fun r => String.eqb (r_account_email r) a) rows)).

Lemma get_email_stats_cases (w : world) :
  emails (snd (get_email_stats w)) = emails w
  /\ (fst (get_email_stats w) = mkStats [] [] 0
      \/ counted (emails w) (fst (get_email_stats w))).
Proof.
  unfold get_email_stats.
  destruct (get_connection_store w) as (_ & He & _).
  destruct (get_connection w) as [[[]|ex] w1]; cbn [fst snd emails add_log] in *.
  - split; [assumption|]. right. rewrite He.
    destruct (group_count_spec r_category (emails w) [] (NoDup_nil _)) as (C1 & C2 & C3).
    destruct (group_count_spec r_account_email (emails w) [] (NoDup_nil _)) as (A1 & A2 & A3).
    unfold counted, group_count in *. cbn [fetch_errors emails_by_category emails_by_account].
    simpl in C2, A2, C3, A3. repeat split; auto.
  - split; [assumption|]. now left.
Qed.

(** X14: [get_email_stats] counts the stored messages and changes none:
    when the connection fails every counter is empty, and otherwise every
    category and every account appears once, its count is the number of
    stored messages of that category resp. account, and the counts of the
    categories and those of the accounts each add up to the number of stored
    messages. *)
Theorem get_email_stats_counts (w : world) :
  let stats := fst (get_email_stats w) in
  emails (snd (get_email_stats w)) = emails w
  /\ match conns w with
     | false :: _ => stats = mkStats [] [] 0
     | _ => counted (emails w) stats
     end.
Proof.
  cbv zeta. split; [apply get_email_stats_cases|].
  unfold get_email_stats, get_connection.
  destruct (conns w) as [|[|] rest] eqn:Ec; cbn [fst snd emails];
    try reflexivity;
    (destruct (group_count_spec r_category (emails w) [] (NoDup_nil _)) as (C1 & C2 & C3);
     destruct (group_count_spec r_account_email (emails w) [] (NoDup_nil _))
       as (A1 & A2 & A3);
     unfold counted, group_count in *;
     cbn [fetch_errors emails_by_category emails_by_account];
     simpl in C2, A2, C3, A3; repeat split; auto).
Qed.

(** X15: when the route [fetch_emails] answers 200, the statistics of the
    module are the ones read from the database at the end of the pass, not
    the ones counted during the pass: the count of fetch errors is 0 however
    many accounts failed and whatever it was before, and the counts by
    category and by account are those of the messages now stored, or empty
    when the connection fails at that moment. *)
Theorem route_statistics_are_recounted (limit : option nat) (a : account_env)
        (rest : list account_env) (w : world) (stats : email_stats_t) :
  let r := fetch_emails true limit (a :: rest) w stats in
  fetch_errors (snd r) = 0
  /\ (snd r = mkStats [] [] 0 \/ counted (emails (snd (fst r))) (snd r)).
Proof.
  cbv zeta. unfold fetch_emails. cbn [negb].
  destruct (route_loop limit (a :: rest) _) as [[w1 res] stats1].
  destruct (get_email_stats_cases w1) as (He & H).
  destruct (get_email_stats w1) as [stats2 w2]. cbn [fst snd] in *.
  rewrite He. split; [|exact H].
  destruct H as [->|H]; [reflexivity|apply H].
Qed.

End StatsProps.

(** ** The hierarchical categorizer on every message *)

Module CategorizerProps.
Import PyStr Hier HierProps.

(** *** Every result is a pair of labels *)

(** A label: not empty, unchanged by lower-casing, made of alphanumeric
    characters and underscores. *)
Definition label (s : string) : Prop :=
  s <> EmptyString /\ lower s = s /\ forallb_str word_char s = true.

Definition main_categories : list string :=
  ["bank"; "company"; "support"; "newsletter"; "billing"; "order"; "social";
   "security"; "meeting"; "career"; "notification"; "general"].

Ltac fixed_label := split; [discriminate|split; reflexivity].

Lemma sender_name_label (sender : string) : label (_extract_sender_name sender).
Proof.
  split; [apply sender_name_nonempty|].
  split; [apply sender_name_lower|apply sender_name_word].
Qed.

Lemma bank_name_label (subject sender domain sender_name : string) :
  label sender_name -> label (_detect_bank_name_dynamic subject sender domain sender_name).
Proof.
  intros H. unfold _detect_bank_name_dynamic.
  destruct (find _ known_banks) as [kv|] eqn:E; [|assumption].
  apply find_some in E as [Hin _]. unfold known_banks in Hin. simpl in Hin.
  repeat (destruct Hin as [<-|Hin]; [fixed_label|]). destruct Hin.
Qed.

Lemma company_name_label (subject sender domain sender_name : string) :
  label sender_name ->
  label (_detect_company_name_dynamic subject sender domain sender_name).
Proof.
  intros H. unfold _detect_company_name_dynamic.
  destruct (has_char "." domain); [|assumption].
  cbv zeta.
  match goal with
  | |- context [is_empty ?x] => set (company_name := x)
  end.
  destruct (negb (is_empty company_name) && negb (String.eqb company_name "www")) eqn:E;
    [|assumption].
  apply andb_true_iff in E as [E _]. apply negb_true_iff in E.
  split; [|split].
  - apply lower_nonempty. destruct company_name; [discriminate|discriminate].
  - apply lower_idem.
  - apply (forallb_lower word_char); [apply lower_char_word|].
    apply (forallb_filter_self word_char).
Qed.

(** X16: for every message with subject, sender and body over the code
    points U+0000..U+00FF, the main category the hierarchical categorizer
    returns is one of its twelve category names, and the
    sub-category, whichever branch produced it (a fixed name, a bank name, a
    company name taken from the domain, or the sender name), is never empty,
    is unchanged by lower-casing and holds only alphanumeric characters and
    underscores. *)
Theorem categories_are_labels (e : Email) :
  In (fst (_enhanced_categorize_email e)) main_categories
  /\ label (snd (_enhanced_categorize_email e)).
Proof.
  pose proof (sender_name_label (sender e)) as Hs.
  unfold _enhanced_categorize_email. cbv zeta.
  destruct (_is_bank_email _ _ _).
  { split; [simpl; tauto|]. now apply bank_name_label. }
  destruct (_is_company_email _ _ _).
  { split; [simpl; tauto|]. now apply company_name_label. }
  destruct (_is_support_email _ _).
  { split; [simpl; tauto|]. cbn [snd]. unfold _detect_support_type.
    repeat match goal with |- context [if ?b then _ else _] => destruct b end;
      fixed_label. }
  destruct (_is_newsletter_email _ _).
  { split; [simpl; tauto|]. cbn [snd]. unfold _detect_newsletter_type.
    repeat match goal with |- context [if ?b then _ else _] => destruct b end;
      fixed_label. }
  destruct (_is_billing_email _ _).
  { split; [simpl; tauto|]. cbn [snd]. unfold _detect_billing_type.
    repeat match goal with |- context [if ?b then _ else _] => destruct b end;
      fixed_label. }
  destruct (_is_order_email _ _).
  { split; [simpl; tauto|]. cbn [snd]. unfold _detect_order_type.
    repeat match goal with |- context [if ?b then _ else _] => destruct b end;
      fixed_label. }
  destruct (_is_social_email _ _ _).
  { split; [simpl; tauto|]. cbn [snd]. unfold _detect_social_platform. cbv zeta.
    repeat match goal with |- context [if ?b then _ else _] => destruct b end;
      fixed_label. }
  destruct (_is_security_email _ _).
  { split; [simpl; tauto|]. cbn [snd]. unfold _detect_security_type.
    repeat match goal with |- context [if ?b then _ else _] => destruct b end;
      fixed_label. }
  destruct (_is_meeting_email _ _).
  { split; [simpl; tauto|]. cbn [snd]. unfold _detect_meeting_type.
    repeat match goal with |- context [if ?b then _ else _] => destruct b end;
      fixed_label. }
  destruct (_is_career_email _ _).
  { split; [simpl; tauto|]. cbn [snd]. unfold _detect_career_type.
    repeat match goal with |- context [if ?b then _ else _] => destruct b end;
      fixed_label. }
  destruct (_is_notification_email _ _).
  { split; [simpl; tauto|]. cbn [snd]. unfold _detect_notification_type.
    repeat match goal with |- context [if ?b then _ else _] => destruct b end;
      fixed_label. }
  split; [simpl; tauto|exact Hs].
Qed.

(** *** Keywords that an earlier predicate takes away *)

Lemma any_in_false (keywords : list string) (text k : string) :
  any_in keywords text = false -> In k keywords -> contains k text = false.
Proof.
  unfold any_in. intros H Hin.
  destruct (contains k text) eqn:E; [|reflexivity].
  assert (existsb (fun k => contains k text) keywords = true); [|congruence].
  apply existsb_exists. eauto.
Qed.

(** The chain up to a given predicate: what is known when a later branch
    is the one taken. *)
Lemma reaches_billing (e : Email) :
  fst (_enhanced_categorize_email e) = "billing" ->
  _is_company_email (lower (subject e)) (lower (sender e))
                    (_extract_domain (lower (sender e))) = false
  /\ _is_billing_email (lower (subject e)) (lower (sender e)) = true
  /\ snd (_enhanced_categorize_email e)
     = _detect_billing_type (lower (subject e)) (lower (body e)).
Proof.
  unfold _enhanced_categorize_email. cbv zeta.
  destruct (_is_bank_email _ _ _); [simpl; discriminate|].
  destruct (_is_company_email _ _ _); [simpl; discriminate|].
  destruct (_is_support_email _ _); [simpl; discriminate|].
  destruct (_is_newsletter_email _ _); [simpl; discriminate|].
  destruct (_is_billing_email _ _); [auto|].
  repeat match goal with
         | |- context [if ?b then _ else _] => destruct b; [simpl; discriminate|]
         end.
  simpl. discriminate.
Qed.

Lemma reaches_notification (e : Email) :
  fst (_enhanced_categorize_email e) = "notification" ->
  _is_newsletter_email (lower (subject e)) (lower (sender e)) = false
  /\ _is_notification_email (lower (subject e)) (lower (sender e)) = true.
Proof.
  unfold _enhanced_categorize_email. cbv zeta.
  destruct (_is_bank_email _ _ _); [simpl; discriminate|].
  destruct (_is_company_email _ _ _); [simpl; discriminate|].
  destruct (_is_support_email _ _); [simpl; discriminate|].
  destruct (_is_newsletter_email _ _); [simpl; discriminate|].
  destruct (_is_billing_email _ _); [simpl; discriminate|].
  destruct (_is_order_email _ _); [simpl; discriminate|].
  destruct (_is_social_email _ _ _); [simpl; discriminate|].
  destruct (_is_security_email _ _); [simpl; discriminate|].
  destruct (_is_meeting_email _ _); [simpl; discriminate|].
  destruct (_is_career_email _ _); [simpl; discriminate|].
  destruct (_is_notification_email _ _); [auto|].
  simpl. discriminate.
Qed.

(** X17: the order of the chain takes keywords away from the later
    predicates.  Whenever the main category is 'billing', the subject holds
    none of 'invoice', 'receipt' and 'statement' (the company predicate has
    taken them), so it holds 'payment', 'bill' or 'due', and the sub-category
    is 'payment' or 'billing', never 'invoice' or 'receipt'.  Whenever the
    main category is 'notification', the subject does not hold 'update' (the
    newsletter predicate has taken it), so it holds 'notification', 'alert'
    or 'reminder'. *)
Theorem shadowed_keywords (e : Email) :
  let s := lower (subject e) in
  (fst (_enhanced_categorize_email e) = "billing" ->
   contains "invoice" s = false /\ contains "receipt" s = false
   /\ contains "statement" s = false
   /\ contains "payment" s || contains "bill" s || contains "due" s = true
   /\ (snd (_enhanced_categorize_email e) = "payment"
       \/ snd (_enhanced_categorize_email e) = "billing"))
  /\ (fst (_enhanced_categorize_email e) = "notification" ->
      contains "update" s = false
      /\ contains "notification" s || contains "alert" s || contains "reminder" s = true).
Proof.
  cbv zeta. split.
  - intros H. destruct (reaches_billing e H) as (Hc & Hb & Hs).
    unfold _is_company_email in Hc.
    assert (H1 : contains "invoice" (lower (subject e)) = false)
      by (apply (any_in_false _ _ _ Hc); simpl; tauto).
    assert (H2 : contains "receipt" (lower (subject e)) = false)
      by (apply (any_in_false _ _ _ Hc); simpl; tauto).
    assert (H3 : contains "statement" (lower (subject e)) = false)
      by (apply (any_in_false _ _ _ Hc); simpl; tauto).
    split; [assumption|]. split; [assumption|]. split; [assumption|].
    unfold _is_billing_email, any_in in Hb. cbn [existsb] in Hb.
    rewrite H1, H2, H3 in Hb. cbn [orb] in Hb. rewrite orb_false_r in Hb.
    split.
    + destruct (contains "payment" _); [reflexivity|].
      destruct (contains "bill" _); [reflexivity|]. exact Hb.
    + rewrite Hs. unfold _detect_billing_type. rewrite H1, H2.
      destruct (contains "payment" _); auto.
  - intros H. destruct (reaches_notification e H) as (Hn & Hb).
    unfold _is_newsletter_email in Hn.
    assert (H1 : contains "update" (lower (subject e)) = false)
      by (apply (any_in_false _ _ _ Hn); simpl; tauto).
    split; [assumption|].
    unfold _is_notification_email, any_in in Hb. cbn [existsb] in Hb.
    rewrite H1 in Hb. rewrite !orb_false_r in Hb.
    destruct (contains "notification" _); [reflexivity|].
    destruct (contains "alert" _); [reflexivity|]. exact Hb.
Qed.

(** Both categories are reached. *)
Lemma shadowed_categories_reached :
  _enhanced_categorize_email (plain_email "Payment due" "a@b.org" EmptyString)
  = ("billing", "payment")
  /\ _enhanced_categorize_email (plain_email "Reminder" "a@b.org" EmptyString)
     = ("notification", "general").
Proof. split; reflexivity. Qed.


(** *** Upper and lower case *)

(** A character that [str.lower] neither changes nor produces. *)
Definition caseless (c : ascii) : Prop :=
  forall a, Ascii.eqb (lower_char a) c = Ascii.eqb a c.

Ltac caseless_char := intros a; by_cases_on_char a.

Lemma caseless_lt : caseless "<". Proof. caseless_char. Qed.
Lemma caseless_gt : caseless ">". Proof. caseless_char. Qed.
Lemma caseless_at : caseless "@". Proof. caseless_char. Qed.
Lemma caseless_dot : caseless ".". Proof. caseless_char. Qed.
Lemma caseless_dash : caseless "-". Proof. caseless_char. Qed.
Lemma caseless_space : caseless " ". Proof. caseless_char. Qed.
Lemma caseless_quote : caseless "'". Proof. caseless_char. Qed.
Lemma caseless_dquote : caseless dquote. Proof. caseless_char. Qed.

Lemma isspace_lower (a : ascii) : isspace (lower_char a) = isspace a.
Proof. by_cases_on_char a. Qed.

Lemma word_char_lower_eq (a : ascii) : word_char (lower_char a) = word_char a.
Proof. by_cases_on_char a. Qed.

Lemma is_empty_lower (s : string) : is_empty (lower s) = is_empty s.
Proof. now destruct s. Qed.

Lemma has_char_lower (c : ascii) (s : string) :
  caseless c -> has_char c (lower s) = has_char c s.
Proof.
  intros Hc. induction s as [|a r IH]; simpl; [reflexivity|]. now rewrite Hc, IH.
Qed.

Lemma split_first_lower (c : ascii) (s : string) :
  caseless c -> split_first c (lower s) = lower (split_first c s).
Proof.
  intros Hc. induction s as [|a r IH]; simpl; [reflexivity|].
  rewrite Hc. destruct (Ascii.eqb a c); simpl; [reflexivity|]. now rewrite IH.
Qed.

Lemma split_last_lower (c : ascii) (s : string) :
  caseless c -> split_last c (lower s) = lower (split_last c s).
Proof.
  intros Hc. induction s as [|a r IH]; simpl; [reflexivity|].
  rewrite has_char_lower by exact Hc. rewrite Hc.
  destruct (has_char c r); [assumption|].
  destruct (Ascii.eqb a c); reflexivity.
Qed.

Lemma lstrip_lower (s : string) : lstrip (lower s) = lower (lstrip s).
Proof.
  induction s as [|a r IH]; simpl; [reflexivity|].
  rewrite isspace_lower. destruct (isspace a); [assumption|reflexivity].
Qed.

Lemma rstrip_lower (s : string) : rstrip (lower s) = lower (rstrip s).
Proof.
  induction s as [|a r IH]; simpl; [reflexivity|].
  rewrite isspace_lower, IH, is_empty_lower.
  destruct (isspace a && is_empty (rstrip r)); reflexivity.
Qed.

Lemma strip_lower (s : string) : strip (lower s) = lower (strip s).
Proof. unfold strip. now rewrite lstrip_lower, rstrip_lower. Qed.

Lemma remove_char_lower (c : ascii) (s : string) :
  caseless c -> remove_char c (lower s) = lower (remove_char c s).
Proof.
  intros Hc. unfold remove_char. induction s as [|a r IH]; simpl; [reflexivity|].
  rewrite Hc. destruct (Ascii.eqb a c); simpl; [assumption|]. now rewrite IH.
Qed.

Lemma replace_char_lower (c d : ascii) (s : string) :
  caseless c -> lower_char d = d ->
  replace_char c d (lower s) = lower (replace_char c d s).
Proof.
  intros Hc Hd. induction s as [|a r IH]; simpl; [reflexivity|].
  rewrite Hc, IH. destruct (Ascii.eqb a c); [now rewrite Hd|reflexivity].
Qed.

Lemma filter_word_lower (s : string) :
  filter_str (fun c => isalnum c || Ascii.eqb c "_") (lower s)
  = lower (filter_str (fun c => isalnum c || Ascii.eqb c "_") s).
Proof.
  induction s as [|a r IH]; simpl; [reflexivity|].
  pose proof (word_char_lower_eq a) as H. unfold word_char in H. rewrite H.
  destruct (isalnum a || Ascii.eqb a "_"); simpl; now rewrite IH.
Qed.

Lemma extract_domain_lower (s : string) :
  _extract_domain (lower s) = lower (_extract_domain s).
Proof.
  unfold _extract_domain. rewrite has_char_lower by apply caseless_at.
  destruct (has_char "@" s); [|reflexivity].
  rewrite split_last_lower by apply caseless_at.
  rewrite split_first_lower by apply caseless_gt.
  apply strip_lower.
Qed.

Lemma name_part_lower (s : string) : name_part_of (lower s) = lower (name_part_of s).
Proof.
  unfold name_part_of.
  rewrite !has_char_lower by first [apply caseless_lt | apply caseless_gt | apply caseless_at].
  assert (H1 : (if has_char "<" s && has_char ">" s
                then strip (split_first "<" (lower s))
                else if has_char "@" s then split_first "@" (lower s) else lower s)
               = lower (if has_char "<" s && has_char ">" s
                        then strip (split_first "<" s)
                        else if has_char "@" s then split_first "@" s else s)).
  { destruct (has_char "<" s && has_char ">" s).
    - rewrite split_first_lower by apply caseless_lt. apply strip_lower.
    - destruct (has_char "@" s); [|reflexivity].
      apply split_first_lower, caseless_at. }
  rewrite H1.
  rewrite remove_char_lower by apply caseless_dquote.
  rewrite remove_char_lower by apply caseless_quote.
  rewrite strip_lower, is_empty_lower.
  rewrite has_char_lower by apply caseless_at.
  match goal with
  | |- context [is_empty ?x || has_char "@" ?x] => destruct (is_empty x || has_char "@" x)
  end; [|reflexivity].
  cbv zeta. rewrite extract_domain_lower.
  rewrite has_char_lower by apply caseless_dot.
  destruct (has_char "." (_extract_domain s)); [|reflexivity].
  apply split_first_lower, caseless_dot.
Qed.

Lemma folder_friendly_lower (s : string) :
  folder_friendly (lower s) = lower (folder_friendly s).
Proof.
  unfold folder_friendly.
  rewrite (replace_char_lower "-" "_") by (try apply caseless_dash; reflexivity).
  rewrite (replace_char_lower "." "_") by (try apply caseless_dot; reflexivity).
  rewrite (replace_char_lower " " "_") by (try apply caseless_space; reflexivity).
  apply filter_word_lower.
Qed.

Lemma sender_name_of_lower (s : string) :
  _extract_sender_name (lower s) = _extract_sender_name s.
Proof.
  rewrite !extract_sender_name_eq.
  rewrite name_part_lower, folder_friendly_lower, is_empty_lower.
  destruct (is_empty (folder_friendly (name_part_of s))); [reflexivity|].
  apply lower_idem.
Qed.

(** X18: the hierarchical categorizer reads the subject and the sender
    only, and reads them without regard to case: two messages whose subjects
    and whose senders are equal once lower-cased get the same main
    category and the same sub-category, whatever their bodies, ids, dates and
    other fields. *)
Theorem categorization_ignores_case (e1 e2 : Email) :
  lower (subject e1) = lower (subject e2) ->
  lower (sender e1) = lower (sender e2) ->
  _enhanced_categorize_email e1 = _enhanced_categorize_email e2.
Proof.
  intros Hs Hf.
  assert (Hn : _extract_sender_name (sender e1) = _extract_sender_name (sender e2)).
  { rewrite <- (sender_name_of_lower (sender e1)), <- (sender_name_of_lower (sender e2)).
    now rewrite Hf. }
  unfold _enhanced_categorize_email. cbv zeta. rewrite Hs, Hf, Hn.
  reflexivity.
Qed.

Lemma categorization_ignores_case_witness :
  _enhanced_categorize_email
    (plain_email "PAYMENT Due" "Jane Doe <Jane.Doe@Example.ORG>" "first body")
  = _enhanced_categorize_email
      (plain_email "payment due" "jane doe <jane.doe@example.org>" "another body").
Proof.
  apply (categorization_ignores_case
           (plain_email "PAYMENT Due" "Jane Doe <Jane.Doe@Example.ORG>" "first body")
           (plain_email "payment due" "jane doe <jane.doe@example.org>" "another body"));
    reflexivity.
Defined.

(** *** The domain of a sender *)

Lemma split_last_no_char (c : ascii) (s : string) :
  has_char c s = true -> has_char c (split_last c s) = false.
Proof.
  induction s as [|a r IH]; simpl; [discriminate|].
  destruct (has_char c r) eqn:E; [intros _; now apply IH|].
  rewrite orb_false_r. intros ->. exact E.
Qed.

Lemma split_first_no_char (c : ascii) (s : string) : has_char c (split_first c s) = false.
Proof.
  induction s as [|a r IH]; simpl; [reflexivity|].
  destruct (Ascii.eqb a c) eqn:E; simpl; [reflexivity|]. now rewrite E.
Qed.

Lemma has_char_forallb (c : ascii) (s : string) :
  has_char c s = negb (forallb_str (fun a => negb (Ascii.eqb a c)) s).
Proof.
  induction s as [|a r IH]; simpl; [reflexivity|].
  rewrite IH. now destruct (Ascii.eqb a c).
Qed.

Lemma no_char_forallb (c : ascii) (s : string) :
  has_char c s = false <-> forallb_str (fun a => negb (Ascii.eqb a c)) s = true.
Proof. rewrite has_char_forallb. now destruct (forallb_str _ s). Qed.

Lemma lstrip_head (s : string) :
  match lstrip s with String a _ => isspace a = false | EmptyString => True end.
Proof.
  induction s as [|a r IH]; simpl; [exact I|].
  destruct (isspace a) eqn:E; [assumption|exact E].
Qed.

Lemma rstrip_head (s : string) :
  match s with String a _ => isspace a = false | EmptyString => True end ->
  match rstrip s with String a _ => isspace a = false | EmptyString => True end.
Proof.
  destruct s as [|a r]; simpl; [auto|].
  intros H. rewrite H. simpl. exact H.
Qed.

(** The last character, when there is one. *)
Fixpoint last_char (s : string) : option ascii :=
  match s with
  | EmptyString => None
  | String a EmptyString => Some a
  | String _ r => last_char r
  end.

Lemma rstrip_last (s : string) :
  match last_char (rstrip s) with Some a => isspace a = false | None => True end.
Proof.
  induction s as [|a r IH]; simpl; [exact I|].
  destruct (rstrip r) as [|b r'] eqn:E.
  - rewrite andb_true_r. destruct (isspace a) eqn:Ea; simpl; [exact I|exact Ea].
  - rewrite andb_false_r. simpl. simpl in IH. exact IH.
Qed.

(** X19: the domain [_extract_domain] returns never holds an at sign;
    when the sender holds one, the domain is the text after the last at sign
    up to the first closing angle bracket, so it holds no closing angle
    bracket either and neither starts nor ends with white space; a sender
    without an at sign is returned as it is. *)
Theorem extracted_domain_is_clean (sender : string) :
  has_char "@" (_extract_domain sender) = false
  /\ (if has_char "@" sender
      then has_char ">" (_extract_domain sender) = false
           /\ match _extract_domain sender with
              | String a _ => isspace a = false
              | EmptyString => True
              end
           /\ match last_char (_extract_domain sender) with
              | Some a => isspace a = false
              | None => True
              end
      else _extract_domain sender = sender).
Proof.
  unfold _extract_domain. destruct (has_char "@" sender) eqn:E.
  - split; [|split; [|split]].
    + apply no_char_forallb, forallb_strip, forallb_split_first, no_char_forallb.
      now apply split_last_no_char.
    + apply no_char_forallb, forallb_strip, no_char_forallb, split_first_no_char.
    + unfold strip. apply rstrip_head, lstrip_head.
    + unfold strip. apply rstrip_last.
  - split; [assumption|reflexivity].
Qed.

End CategorizerProps.

(** ** The batch categorizer *)

Module BatchProps.
Import PyStr Codec Store Pipeline StoreOps Batch PipelineProps StoreProps FetchProps.
Local Open Scope list_scope.

(** The chain files the message under 'general'. *)
Definition is_general (e : Email) : bool :=
  String.eqb (fst (Hier._enhanced_categorize_email e)) "general".

Lemma batch_step_cases (res : batch_results) (w : world) (objects : list Email) (e : Email) :
  let st' := batch_step (res, w, objects) e in
  keeps w (snd (fst st'))
  /\ batch_errors (fst (fst st')) = batch_errors res
  /\ if is_general e
     then categorized (fst (fst st')) = categorized res
          /\ skipped (fst (fst st')) = Datatypes.S (skipped res)
          /\ snd (fst st') = w
          /\ snd st' = objects ++ [e]
     else categorized (fst (fst st')) = Datatypes.S (categorized res)
          /\ skipped (fst (fst st')) = skipped res
          /\ exists e', snd st' = objects ++ [e']
                        /\ main_category e' = fst (Hier._enhanced_categorize_email e)
                        /\ sub_category e' = snd (Hier._enhanced_categorize_email e).
Proof.
  cbv zeta. unfold batch_step, is_general.
  destruct (Hier._enhanced_categorize_email e) as [main sub]. cbn [fst snd].
  destruct (String.eqb main "general"); cbn [negb].
  - cbn [fst snd categorized skipped batch_errors].
    split; [apply keeps_refl|]. auto.
  - pose proof (keeps_save_email w (ensure_date w (set_categories e main sub))) as Hk.
    destruct (save_email w _) as [ok w1]. cbn [fst snd categorized skipped batch_errors] in *.
    split.
    + eapply keeps_trans; [exact Hk|]. now apply keeps_same.
    + split; [reflexivity|]. split; [reflexivity|]. split; [reflexivity|].
      eexists. split; [reflexivity|]. split; reflexivity.
Qed.

Lemma batch_fold (emails : list Email) (res : batch_results) (w : world)
      (objects : list Email) :
  let st' := fold_left batch_step emails (res, w, objects) in
  keeps w (snd (fst st'))
  /\ batch_errors (fst (fst st')) = batch_errors res
  /\ categorized (fst (fst st'))
     = categorized res + List.length (filter (fun e => negb (is_general e)) emails)
  /\ skipped (fst (fst st')) = skipped res + List.length (filter is_general emails)
  /\ List.length (snd st') = List.length objects + List.length emails
  /\ (forallb is_general emails = true ->
      snd (fst st') = w /\ snd st' = objects ++ emails).
Proof.
  revert res w objects. induction emails as [|e rest IH]; intros res w objects; cbn [fold_left].
  - cbn [fst snd filter List.length forallb]. split; [apply keeps_refl|].
    split; [reflexivity|]. split; [lia|]. split; [lia|]. split; [lia|].
    intros _. split; [reflexivity|]. now rewrite app_nil_r.
  - pose proof (batch_step_cases res w objects e) as H. cbv zeta in H.
    destruct (batch_step (res, w, objects) e) as [[res1 w1] objects1].
    cbn [fst snd] in H. destruct H as (Hk & He & Hc).
    specialize (IH res1 w1 objects1). cbv zeta in IH.
    destruct IH as (Ik & Ie & Ic & Is & Il & Ig).
    split; [eapply keeps_trans; eassumption|].
    split; [congruence|].
    cbn [filter forallb]. destruct (is_general e); cbn [negb].
    + destruct Hc as (C1 & C2 & C3 & C4).
      split; [rewrite Ic, C1; reflexivity|].
      split; [rewrite Is, C2; cbn [List.length]; lia|].
      split; [rewrite Il, C4, length_app; cbn [List.length]; lia|].
      cbn [andb]. intros Hg. destruct (Ig Hg) as (G1 & G2).
      split; [congruence|]. rewrite G2, C4, <- app_assoc. reflexivity.
    + destruct Hc as (C1 & C2 & e' & C4 & _).
      split; [rewrite Ic, C1; cbn [List.length]; lia|].
      split; [rewrite Is, C2; reflexivity|].
      split; [rewrite Il, C4, length_app; cbn [List.length]; lia|].
      cbn [andb]. discriminate.
Qed.

(** X20: [categorize_stored_emails_batch] sorts the messages it is given
    into two counts: 'categorized' is the number of messages the chain files
    under another main category than 'general', whether or not their save
    succeeds, 'skipped' the number of the others, the two add up to the
    number of messages and no error is recorded.  It changes no account,
    removes and reorders no stored message and leaves the id, account,
    subject, sender, date and body of every stored message as they are; and
    when every message is filed under 'general' it changes neither the store
    nor the messages, whatever categories they carried. *)
Theorem batch_counts_partition (w : world) (emails : list Email) :
  let r := categorize_stored_emails_batch w emails in
  let results := fst (fst r) in
  categorized results = List.length (filter (fun e => negb (is_general e)) emails)
  /\ skipped results = List.length (filter is_general emails)
  /\ categorized results + skipped results = List.length emails
  /\ batch_errors results = []
  /\ keeps w (snd (fst r))
  /\ (forallb is_general emails = true -> snd (fst r) = w /\ snd r = emails).
Proof.
  cbv zeta. unfold categorize_stored_emails_batch.
  pose proof (batch_fold emails (mkBatch 0 0 []) w []) as H. cbv zeta in H.
  destruct (fold_left batch_step emails _) as [[res w1] objects]. cbn [fst snd] in *.
  destruct H as (Hk & He & Hc & Hs & _ & Hg). cbn [categorized skipped batch_errors] in *.
  split; [assumption|]. split; [assumption|]. split.
  - rewrite Hc, Hs. clear. induction emails as [|e rest IH]; simpl; [reflexivity|].
    destruct (is_general e); simpl; lia.
  - split; [assumption|]. split; [assumption|exact Hg].
Qed.

End BatchProps.

(** ** The categorization service *)

Module ServiceProps.
Import PyStr Service StatsProps.
Local Open Scope list_scope.

Section EngineProps.
Variable regex : Type.
Variable compile_keyword : string -> regex.
Variable compile_sender : string -> option regex.
Variable score :
  patterns_t regex -> string -> string -> Flat.rules_t -> option PrimFloat.float.

Local Abbreviation service := (Service.service regex).
Local Abbreviation compile_category := (Service.compile_category compile_keyword compile_sender).
Local Abbreviation compile_loop := (Service.compile_loop compile_keyword compile_sender).
Local Abbreviation _compile_patterns := (Service._compile_patterns compile_keyword compile_sender).
Local Abbreviation update_category_rules :=
  (Service.update_category_rules compile_keyword compile_sender).
Local Abbreviation delete_category := (Service.delete_category compile_keyword compile_sender).
Local Abbreviation categorize_email := (Service.categorize_email score).
Local Abbreviation collect_scores := (Service.collect_scores score).
Local Abbreviation init := (Service.init compile_keyword compile_sender).

(** *** Dictionaries *)

Lemma has_key_in {V : Type} (d : Flat.dict V) (k : string) :
  has_key d k = true <-> In k (map fst d).
Proof.
  unfold has_key. induction d as [|[k' v] rest IH]; simpl; [split; [discriminate|tauto]|].
  destruct (String.eqb k' k) eqn:E.
  - apply String.eqb_eq in E. split; auto.
  - apply String.eqb_neq in E. rewrite IH. split; [auto|]. intros [H|H]; [contradiction|auto].
Qed.

Lemma has_key_false {V : Type} (d : Flat.dict V) (k : string) :
  has_key d k = false <-> ~ In k (map fst d).
Proof.
  rewrite <- has_key_in. destruct (has_key d k); split; congruence.
Qed.

Lemma dict_get_set {V : Type} (d : Flat.dict V) (k c : string) (v : V) :
  Flat.dict_get (dict_set d k v) c
  = if String.eqb k c then Some v else Flat.dict_get d c.
Proof.
  induction d as [|[k' v'] rest IH]; simpl.
  - reflexivity.
  - destruct (String.eqb k' k) eqn:E; simpl.
    + apply String.eqb_eq in E. subst k'. now destruct (String.eqb k c).
    + destruct (String.eqb k' c) eqn:E2; [|exact IH].
      apply String.eqb_eq in E2. subst k'. now rewrite String.eqb_sym, E.
Qed.

Lemma keys_dict_set {V : Type} (d : Flat.dict V) (k : string) (v : V) :
  map fst (dict_set d k v) = if has_key d k then map fst d else map fst d ++ [k].
Proof.
  unfold has_key. induction d as [|[k' v'] rest IH]; simpl; [reflexivity|].
  destruct (String.eqb k' k) eqn:E; simpl; [reflexivity|].
  rewrite IH. now destruct (Flat.dict_get rest k).
Qed.

Lemma nodup_dict_set {V : Type} (d : Flat.dict V) (k : string) (v : V) :
  NoDup (map fst d) -> NoDup (map fst (dict_set d k v)).
Proof.
  intros H. rewrite keys_dict_set. destruct (has_key d k) eqn:E; [assumption|].
  apply has_key_false in E.
  apply NoDup_app; [assumption|repeat constructor; intros []|].
  intros x Hx [<-|[]]. contradiction.
Qed.

Lemma keys_dict_del {V : Type} (d : Flat.dict V) (k : string) :
  NoDup (map fst d) ->
  map fst (dict_del d k) = filter (fun c => negb (String.eqb c k)) (map fst d).
Proof.
  induction d as [|[k' v'] rest IH]; simpl; [reflexivity|].
  intros H. inversion H as [|? ? Hk Hrest]; subst.
  destruct (String.eqb k' k) eqn:E; simpl.
  - apply String.eqb_eq in E. subst k'.
    symmetry. apply forallb_filter_id. apply forallb_forall. intros x Hx.
    destruct (String.eqb x k) eqn:E; [|reflexivity].
    apply String.eqb_eq in E. subst x. contradiction.
  - now rewrite IH.
Qed.

Lemma nodup_dict_del {V : Type} (d : Flat.dict V) (k : string) :
  NoDup (map fst d) -> NoDup (map fst (dict_del d k)).
Proof.
  intros H. rewrite keys_dict_del by exact H. now apply NoDup_filter.
Qed.

Lemma dict_get_del {V : Type} (d : Flat.dict V) (k c : string) :
  NoDup (map fst d) ->
  Flat.dict_get (dict_del d k) c = if String.eqb k c then None else Flat.dict_get d c.
Proof.
  induction d as [|[k' v'] rest IH]; simpl.
  - now destruct (String.eqb k c).
  - intros H. inversion H as [|? ? Hk Hrest]; subst.
    destruct (String.eqb k' k) eqn:E; simpl.
    + apply String.eqb_eq in E. subst k'.
      destruct (String.eqb k c) eqn:E2; [|reflexivity].
      apply String.eqb_eq in E2. subst c.
      destruct (Flat.dict_get rest k) eqn:G; [|reflexivity].
      exfalso. apply Hk. apply has_key_in. unfold has_key. now rewrite G.
    + rewrite IH by exact Hrest.
      destruct (String.eqb k' c) eqn:E2; [|reflexivity].
      apply String.eqb_eq in E2. subst c. now rewrite String.eqb_sym, E.
Qed.

Lemma dict_del_set {V : Type} (d : Flat.dict V) (k : string) (v : V) :
  has_key d k = false -> dict_del (dict_set d k v) k = d.
Proof.
  unfold has_key. induction d as [|[k' v'] rest IH]; simpl.
  - now rewrite String.eqb_refl.
  - destruct (String.eqb k' k) eqn:E; [discriminate|].
    simpl. rewrite E. intros H. now rewrite IH.
Qed.

(** *** Compiling the rule table *)

Definition compiles_one (rules : Flat.rules_t) : bool :=
  match compile_category rules with Some _ => true | None => false end.

(** Every category of the table compiles. *)
Definition compiles (table : Flat.dict Flat.rules_t) : bool :=
  forallb (fun cr => compiles_one (snd cr)) table.

(** The compiled patterns are those of the rule table. *)
Definition in_sync (s : service) : Prop :=
  map fst (compiled_patterns s) = map fst (category_rules s)
  /\ forall c rs, Flat.dict_get (category_rules s) c = Some rs ->
                  Flat.dict_get (compiled_patterns s) c = compile_category rs.

Lemma compile_loop_ok (table : Flat.dict Flat.rules_t) (acc : patterns_t regex) :
  fst (compile_loop table acc) = compiles table.
Proof.
  revert acc. induction table as [|[c r] rest IH]; intros acc; simpl; [reflexivity|].
  unfold compiles_one. destruct (compile_category r); simpl; [apply IH|reflexivity].
Qed.

Lemma compile_loop_keys (table : Flat.dict Flat.rules_t) (acc : patterns_t regex) :
  NoDup (map fst acc ++ map fst table) ->
  compiles table = true ->
  map fst (snd (compile_loop table acc)) = map fst acc ++ map fst table
  /\ (forall c, Flat.dict_get (snd (compile_loop table acc)) c
                = match Flat.dict_get table c with
                  | Some rs => compile_category rs
                  | None => Flat.dict_get acc c
                  end).
Proof.
  revert acc. induction table as [|[c r] rest IH]; intros acc Hn Hc; simpl.
  - rewrite app_nil_r. auto.
  - simpl in Hc. apply andb_true_iff in Hc as [Hr Hrest].
    unfold compiles_one in Hr. simpl in Hr.
    destruct (compile_category r) as [entry|] eqn:Ec; [|discriminate].
    assert (Hacc : has_key acc c = false).
    { apply has_key_false. intros Hin. apply NoDup_remove_2 in Hn.
      apply Hn. apply in_or_app. now left. }
    assert (Hk : map fst (dict_set acc c entry) = map fst acc ++ [c]).
    { rewrite keys_dict_set. now rewrite Hacc. }
    destruct (IH (dict_set acc c entry)) as (I1 & I2).
    + rewrite Hk, <- app_assoc. exact Hn.
    + exact Hrest.
    + split.
      * rewrite I1, Hk, <- app_assoc. reflexivity.
      * intros c'. rewrite I2. simpl.
        destruct (String.eqb c c') eqn:E.
        -- apply String.eqb_eq in E. subst c'.
           destruct (Flat.dict_get rest c) eqn:G.
           ++ exfalso. simpl in Hn. apply NoDup_app_remove_l in Hn.
              inversion Hn as [|? ? Hx _]; subst. apply Hx.
              apply has_key_in. unfold has_key. now rewrite G.
           ++ rewrite dict_get_set, String.eqb_refl. now rewrite Ec.
        -- destruct (Flat.dict_get rest c'); [reflexivity|].
           rewrite dict_get_set. now rewrite E.
Qed.

(** The compiled patterns are what compiling the rule table gives. *)
Definition compiled_from_table (s : service) : Prop :=
  compile_loop (category_rules s) [] = (true, compiled_patterns s).

Lemma compile_patterns_sync (s : service) :
  NoDup (map fst (category_rules s)) ->
  fst (_compile_patterns s) = compiles (category_rules s)
  /\ category_rules (snd (_compile_patterns s)) = category_rules s
  /\ categorization_stats (snd (_compile_patterns s)) = categorization_stats s
  /\ compiled_patterns (snd (_compile_patterns s)) = snd (compile_loop (category_rules s) [])
  /\ (compiles (category_rules s) = true ->
      in_sync (snd (_compile_patterns s))
      /\ compiled_from_table (snd (_compile_patterns s))).
Proof.
  intros Hn. unfold compiled_from_table, Service._compile_patterns.
  pose proof (compile_loop_ok (category_rules s) []) as Hok.
  pose proof (compile_loop_keys (category_rules s) [] Hn) as Hk.
  destruct (compile_loop (category_rules s) []) as [ok p] eqn:El. cbn [fst snd] in *.
  split; [assumption|]. split; [reflexivity|]. split; [reflexivity|]. split; [reflexivity|].
  intros Hc. destruct (Hk Hc) as (K1 & K2).
  split; [split; [exact K1|]|].
  - intros c rs Hg. cbn [compiled_patterns category_rules set_patterns] in *.
    now rewrite K2, Hg.
  - cbn [compiled_patterns category_rules set_patterns].
    rewrite El. rewrite <- Hok in Hc. now rewrite Hc.
Qed.

(** *** [update_category_rules] *)

(** The three checks of [update_category_rules]. *)
Definition valid_rules (rules : Flat.rules_t) : bool :=
  forallb (has_key rules) ["keywords"; "sender_patterns"; "priority"]
  && is_list (Flat.dict_get rules "keywords")
  && is_list (Flat.dict_get rules "sender_patterns")
  && is_priority (Flat.dict_get rules "priority").

(** The rules as they are stored: with the default weight when they have
    none. *)
Definition with_weight (rules : Flat.rules_t) : Flat.rules_t :=
  if has_key rules "weight" then rules
  else dict_set rules "weight" (Flat.VFloat 1.0%float).

(** X21: [update_category_rules] on a rule table with distinct category
    names.  It returns [True] exactly when the rules pass the three checks
    (the three fields are there, keywords and sender patterns are lists, here
    of strings, the priority is a non-negative integer) and every category of the table with
    the new rules compiles.  Rules that fail a check change neither the table
    nor the compiled patterns.  Rules that pass the checks are stored under
    the category, with the weight 1.0 when they carry none, the other
    categories keeping their rules and their places, and they stay stored
    when compiling fails and [False] is returned.  When [True] is returned
    the compiled patterns have the categories of the table, in its order,
    each with the patterns of its rules, as compiling the table gives them.
    The statistics are never changed. *)
Theorem update_category_rules_outcome (s : service) (category : string)
        (rules : Flat.rules_t) :
  NoDup (map fst (category_rules s)) ->
  let r := update_category_rules s category rules in
  let table := dict_set (category_rules s) category (with_weight rules) in
  fst r = valid_rules rules && compiles table
  /\ categorization_stats (snd r) = categorization_stats s
  /\ (valid_rules rules = false ->
      category_rules (snd r) = category_rules s
      /\ compiled_patterns (snd r) = compiled_patterns s)
  /\ (valid_rules rules = true ->
      category_rules (snd r) = table
      /\ Flat.dict_get (category_rules (snd r)) category = Some (with_weight rules)
      /\ (forall c, c <> category ->
                    Flat.dict_get (category_rules (snd r)) c
                    = Flat.dict_get (category_rules s) c)
      /\ NoDup (map fst (category_rules (snd r))))
  /\ (fst r = true -> in_sync (snd r) /\ compiled_from_table (snd r)).
Proof.
  intros Hn. cbv zeta. unfold Service.update_category_rules, valid_rules.
  destruct (forallb (has_key rules) _) eqn:E1; cbn [negb andb].
  2:{ cbn [fst snd]. split; [reflexivity|]. split; [reflexivity|].
      split; [auto|]. split; discriminate. }
  destruct (is_list (Flat.dict_get rules "keywords")) eqn:E2; cbn [negb andb orb].
  2:{ cbn [fst snd]. split; [reflexivity|]. split; [reflexivity|].
      split; [auto|]. split; discriminate. }
  destruct (is_list (Flat.dict_get rules "sender_patterns")) eqn:E3; cbn [negb andb orb].
  2:{ cbn [fst snd]. split; [reflexivity|]. split; [reflexivity|].
      split; [auto|]. split; discriminate. }
  destruct (is_priority (Flat.dict_get rules "priority")) eqn:E4; cbn [negb andb orb].
  2:{ cbn [fst snd]. split; [reflexivity|]. split; [reflexivity|].
      split; [auto|]. split; discriminate. }
  fold (with_weight rules).
  set (table := dict_set (category_rules s) category (with_weight rules)).
  assert (Hnt : NoDup (map fst table)) by (now apply nodup_dict_set).
  destruct (compile_patterns_sync (set_rules s table) Hnt) as (P1 & P2 & P3 & _ & P5).
  cbn [category_rules set_rules categorization_stats] in P1, P2, P3, P5.
  destruct (_compile_patterns (set_rules s table)) as [ok s1]. cbn [fst snd] in *.
  destruct ok; cbn [fst snd category_rules compiled_patterns categorization_stats log_entry_of].
  - split; [now rewrite <- P1|]. split; [assumption|]. split; [discriminate|].
    split.
    + intros _. rewrite P2. split; [reflexivity|]. split.
      * unfold table. now rewrite dict_get_set, String.eqb_refl.
      * split; [|assumption]. intros c Hc. unfold table. rewrite dict_get_set.
        destruct (String.eqb category c) eqn:E; [|reflexivity].
        apply String.eqb_eq in E. congruence.
    + intros _. exact (P5 (eq_sym P1)).
  - split; [now rewrite <- P1|]. split; [assumption|]. split; [discriminate|].
    split; [|discriminate].
    intros _. rewrite P2. split; [reflexivity|]. split.
    + unfold table. now rewrite dict_get_set, String.eqb_refl.
    + split; [|assumption]. intros c Hc. unfold table. rewrite dict_get_set.
      destruct (String.eqb category c) eqn:E; [|reflexivity].
      apply String.eqb_eq in E. congruence.
Qed.


(** *** [delete_category] *)

(** X22: [delete_category] on a rule table with distinct category names.
    The default category 'general' is never deleted, even when the table
    holds rules under that name, and a category that is not in the table is
    not deleted either: [False] is returned and the table and the compiled
    patterns are unchanged.  Any other category is removed from the table,
    the remaining categories keeping their rules and their order; then
    [True] is returned and the compiled patterns are those of the remaining
    table when every remaining category compiles, and otherwise the error of
    [_compile_patterns] is raised to the caller, the category being deleted
    all the same.  The statistics are never changed. *)
Theorem delete_category_outcome (s : service) (category : string) :
  NoDup (map fst (category_rules s)) ->
  let r := delete_category s category in
  let table := dict_del (category_rules s) category in
  categorization_stats (snd r) = categorization_stats s
  /\ (category = default_category \/ has_key (category_rules s) category = false ->
      fst r = Ok false
      /\ category_rules (snd r) = category_rules s
      /\ compiled_patterns (snd r) = compiled_patterns s)
  /\ (category <> default_category -> has_key (category_rules s) category = true ->
      category_rules (snd r) = table
      /\ has_key (category_rules (snd r)) category = false
      /\ (forall c, c <> category ->
                    Flat.dict_get (category_rules (snd r)) c
                    = Flat.dict_get (category_rules s) c)
      /\ NoDup (map fst (category_rules (snd r)))
      /\ (if compiles table
          then fst r = Ok true /\ in_sync (snd r) /\ compiled_from_table (snd r)
          else exists e, fst r = Raise e)).
Proof.
  intros Hn. cbv zeta. unfold Service.delete_category.
  destruct (String.eqb category default_category) eqn:Ed.
  { cbn [fst snd categorization_stats category_rules compiled_patterns log_entry_of].
    split; [reflexivity|]. split; [auto|].
    intros Hd. apply String.eqb_eq in Ed. contradiction. }
  destruct (has_key (category_rules s) category) eqn:Ek.
  2:{ cbn [fst snd]. split; [reflexivity|]. split; [auto|]. discriminate. }
  set (table := dict_del (category_rules s) category).
  assert (Hnt : NoDup (map fst table)) by (now apply nodup_dict_del).
  destruct (compile_patterns_sync (set_rules s table) Hnt) as (P1 & P2 & P3 & _ & P5).
  cbn [category_rules set_rules categorization_stats] in P1, P2, P3, P5.
  assert (Hgone : has_key table category = false).
  { unfold has_key, table. rewrite dict_get_del by exact Hn. now rewrite String.eqb_refl. }
  assert (Hother : forall c, c <> category ->
                     Flat.dict_get table c = Flat.dict_get (category_rules s) c).
  { intros c Hc. unfold table. rewrite dict_get_del by exact Hn.
    destruct (String.eqb category c) eqn:E; [|reflexivity].
    apply String.eqb_eq in E. congruence. }
  destruct (_compile_patterns (set_rules s table)) as [ok s1]. cbn [fst snd] in *.
  rewrite <- P1.
  destruct ok; cbn [fst snd category_rules compiled_patterns categorization_stats log_entry_of].
  - split; [assumption|]. split.
    + intros [Hd|Hd]; [|discriminate].
      apply String.eqb_neq in Ed. contradiction.
    + intros _ _. rewrite P2. split; [reflexivity|]. split; [assumption|].
      split; [assumption|]. split; [assumption|]. split; [reflexivity|].
      exact (P5 (eq_sym P1)).
  - split; [assumption|]. split.
    + intros [Hd|Hd]; [|discriminate].
      apply String.eqb_neq in Ed. contradiction.
    + intros _ _. rewrite P2. split; [reflexivity|]. split; [assumption|].
      split; [assumption|]. split; [assumption|]. eauto.
Qed.

(** *** Adding a category and deleting it again *)

Lemma dict_set_absent {V : Type} (d : Flat.dict V) (k : string) (v : V) :
  has_key d k = false -> dict_set d k v = d ++ [(k, v)].
Proof.
  unfold has_key. induction d as [|[k' v'] rest IH]; simpl; [reflexivity|].
  destruct (String.eqb k' k); [discriminate|]. intros H. now rewrite IH.
Qed.

Lemma update_accepted (s : service) (category : string) (rules : Flat.rules_t) :
  NoDup (map fst (category_rules s)) ->
  fst (update_category_rules s category rules) = true ->
  category_rules (snd (update_category_rules s category rules))
  = dict_set (category_rules s) category (with_weight rules)
  /\ compiles (dict_set (category_rules s) category (with_weight rules)) = true
  /\ compiled_patterns (snd (update_category_rules s category rules))
     = snd (compile_loop (dict_set (category_rules s) category (with_weight rules)) [])
  /\ categorization_stats (snd (update_category_rules s category rules))
     = categorization_stats s.
Proof.
  intros Hn. unfold Service.update_category_rules.
  destruct (forallb (has_key rules) _); cbn [negb]; [|discriminate].
  destruct (negb (is_list (Flat.dict_get rules "keywords"))
            || negb (is_list (Flat.dict_get rules "sender_patterns"))); [discriminate|].
  destruct (negb (is_priority (Flat.dict_get rules "priority"))); [discriminate|].
  fold (with_weight rules).
  set (table := dict_set (category_rules s) category (with_weight rules)).
  assert (Hnt : NoDup (map fst table)) by (now apply nodup_dict_set).
  destruct (compile_patterns_sync (set_rules s table) Hnt) as (P1 & P2 & P3 & P4 & _).
  cbn [category_rules set_rules categorization_stats] in P1, P2, P3, P4.
  destruct (_compile_patterns (set_rules s table)) as [ok s1]. cbn [fst snd] in *.
  destruct ok;
    cbn [fst snd category_rules compiled_patterns categorization_stats log_entry_of];
    [|discriminate].
  intros _. split; [assumption|]. split; [now rewrite <- P1|]. split; assumption.
Qed.

(** X23: adding a category and deleting it again restores the service.
    On a rule table with distinct category names whose compiled patterns are
    those of the table, when [update_category_rules] has returned [True] for
    a category that was not in the table and is not the default one,
    [delete_category] of that category returns [True] and leaves the rule
    table and the compiled patterns exactly as they were before the
    update. *)
Theorem update_then_delete_restores (s : service) (category : string)
        (rules : Flat.rules_t) :
  NoDup (map fst (category_rules s)) ->
  compiled_from_table s ->
  category <> default_category ->
  has_key (category_rules s) category = false ->
  fst (update_category_rules s category rules) = true ->
  let s1 := snd (update_category_rules s category rules) in
  fst (delete_category s1 category) = Ok true
  /\ category_rules (snd (delete_category s1 category)) = category_rules s
  /\ compiled_patterns (snd (delete_category s1 category)) = compiled_patterns s
  /\ categorization_stats (snd (delete_category s1 category)) = categorization_stats s.
Proof.
  intros Hn Hs Hd Hk Hu. cbv zeta.
  destruct (update_accepted s category rules Hn Hu) as (U1 & U2 & _ & Hstats).
  set (s1 := snd (update_category_rules s category rules)) in *.
  unfold Service.delete_category.
  apply String.eqb_neq in Hd. rewrite Hd.
  assert (Hk1 : has_key (category_rules s1) category = true).
  { rewrite U1. unfold has_key. now rewrite dict_get_set, String.eqb_refl. }
  rewrite Hk1.
  assert (Hback : dict_del (category_rules s1) category = category_rules s).
  { rewrite U1. now apply dict_del_set. }
  rewrite Hback.
  unfold Service._compile_patterns. cbn [category_rules set_rules].
  unfold compiled_from_table in Hs. rewrite Hs.
  cbn [fst snd category_rules compiled_patterns categorization_stats log_entry_of
       set_patterns set_rules].
  auto.
Qed.

(** *** Statistics *)

Lemma count_of_get (d : Flat.dict nat) (k : string) :
  match Flat.dict_get d k with Some n => n | None => 0 end = count_of d k.
Proof.
  induction d as [|[k' v] rest IH]; simpl; [reflexivity|].
  destruct (String.eqb k' k); [reflexivity|exact IH].
Qed.

Lemma dict_set_twice {V : Type} (d : Flat.dict V) (k : string) (v v' : V) :
  dict_set (dict_set d k v) k v' = dict_set d k v'.
Proof.
  induction d as [|[k' w] rest IH]; simpl.
  - now rewrite String.eqb_refl.
  - destruct (String.eqb k' k) eqn:E; simpl; rewrite E; [reflexivity|now rewrite IH].
Qed.

Lemma total_dict_set (d : Flat.dict nat) (k : string) (v : nat) :
  total (dict_set d k v) + count_of d k = total d + v.
Proof.
  induction d as [|[k' w] rest IH]; simpl; [lia|].
  destruct (String.eqb k' k); simpl; lia.
Qed.

Lemma count_of_dict_set (d : Flat.dict nat) (k c : string) (v : nat) :
  count_of (dict_set d k v) c = if String.eqb k c then v else count_of d c.
Proof.
  induction d as [|[k' w] rest IH]; simpl.
  - reflexivity.
  - destruct (String.eqb k' k) eqn:E; simpl.
    + apply String.eqb_eq in E. subst k'. now destruct (String.eqb k c).
    + destruct (String.eqb k' c) eqn:E2; [|exact IH].
      apply String.eqb_eq in E2. subst k'. now rewrite String.eqb_sym, E.
Qed.

Lemma forall_dict_set {V : Type} (P : string * V -> Prop) (d : Flat.dict V)
      (k : string) (v : V) :
  Forall P d -> P (k, v) -> Forall P (dict_set d k v).
Proof.
  intros Hd Hv. induction Hd as [|[k' w] rest Hx Hrest IH]; simpl.
  - constructor; [exact Hv|constructor].
  - destruct (String.eqb k' k) eqn:E.
    + apply String.eqb_eq in E. subst k'. constructor; assumption.
    + constructor; assumption.
Qed.

(** [_update_stats] in one step: the count of the category and the total
    grow by one. *)
Lemma update_stats_counts (s : service) (c : string) :
  let counts := category_counts (categorization_stats s) in
  categorization_stats (_update_stats s c)
  = mkCatStats (S (total_categorized (categorization_stats s)))
               (dict_set counts c (S (count_of counts c)))
               (last_reset (categorization_stats s)).
Proof.
  cbv zeta. unfold _update_stats. cbn [categorization_stats set_stats].
  f_equal. unfold has_key.
  destruct (Flat.dict_get (category_counts (categorization_stats s)) c) eqn:E.
  - rewrite E. f_equal. f_equal.
    rewrite <- count_of_get. now rewrite E.
  - rewrite dict_get_set, String.eqb_refl, dict_set_twice.
    f_equal. f_equal. rewrite <- count_of_get. now rewrite E.
Qed.

(** The counts per category add up to the total, no category is counted
    twice and no count is zero. *)
Definition adds_up (st : stats_t) : Prop :=
  total_categorized st = total (category_counts st)
  /\ NoDup (map fst (category_counts st))
  /\ Forall (fun kv => 0 < snd kv) (category_counts st).

Lemma update_stats_adds_up (s : service) (c : string) :
  adds_up (categorization_stats s) -> adds_up (categorization_stats (_update_stats s c)).
Proof.
  intros (H1 & H2 & H3). rewrite update_stats_counts.
  unfold adds_up. cbn [total_categorized category_counts].
  split; [|split].
  - pose proof (total_dict_set (category_counts (categorization_stats s)) c
                               (S (count_of (category_counts (categorization_stats s)) c))).
    lia.
  - now apply nodup_dict_set.
  - apply forall_dict_set; [assumption|]. cbn [snd]. lia.
Qed.

(** *** [categorize_email] *)

Lemma max_by_score_in (items : list (string * PrimFloat.float))
      (best : string * PrimFloat.float) :
  In (Flat.max_by_score best items) (best :: items).
Proof.
  revert best. induction items as [|x rest IH]; intros best; simpl; [auto|].
  destruct (IH (if PrimFloat.ltb (snd best) (snd x) then x else best)) as [H|H].
  - rewrite <- H. destruct (PrimFloat.ltb (snd best) (snd x)); auto.
  - auto.
Qed.

Lemma collect_scores_keys (p : patterns_t regex) (text sender : string)
      (rules : Flat.dict Flat.rules_t) (l : list (string * PrimFloat.float)) :
  collect_scores p text sender rules = Some l ->
  incl (map fst l) (map fst rules).
Proof.
  revert l. induction rules as [|[c r] rest IH]; simpl; intros l H.
  - injection H as <-. intros x [].
  - destruct (score p text sender r) as [x|]; [|discriminate].
    destruct (Service.collect_scores score p text sender rest) as [tl|]; [|discriminate].
    injection H as <-. specialize (IH tl eq_refl).
    destruct (PrimFloat.ltb 0 x); simpl.
    + intros y [Hy|Hy]; [now left|right; now apply IH].
    + intros y Hy. right. now apply IH.
Qed.

Lemma collect_scores_raises (p : patterns_t regex) (text sender : string)
      (rules : Flat.dict Flat.rules_t) :
  collect_scores p text sender rules = None
  <-> exists cr, In cr rules /\ score p text sender (snd cr) = None.
Proof.
  induction rules as [|[c r] rest IH]; simpl.
  - split; [discriminate|]. intros (cr & [] & _).
  - destruct (score p text sender r) as [x|] eqn:E.
    + destruct (Service.collect_scores score p text sender rest) as [tl|].
      * split; [discriminate|]. intros (cr & [<-|Hin] & Hcr).
        -- cbn [snd] in Hcr. congruence.
        -- destruct IH as [_ IH]. discriminate IH. eauto.
      * split; [|reflexivity]. intros _.
        destruct IH as [IH _]. destruct (IH eq_refl) as (cr & Hin & Hcr). eauto.
    + split; [|reflexivity]. intros _. exists (c, r). auto.
Qed.

(** The text and the sender that [categorize_email] scores. *)
Definition text_to_analyze (email : Email) : string :=
  lower (subject email ++ " " ++ sender email ++ " " ++ body email)%string.

(** X24: [categorize_email] and the statistics.  The category returned is
    always one of the [available_categories] that
    [get_categorization_stats] reports, and the rules and the compiled
    patterns are unchanged.  When the score of every category of the table
    is computed, the email is counted exactly once: the total grows by one,
    the count of the returned category grows by one and no other count
    changes.  When the score of some category raises, the default category
    'general' is returned and nothing is counted. *)
Theorem categorize_email_counts_once (s : service) (email : Email) :
  let r := categorize_email s email in
  let score_of (rules : Flat.rules_t) :=
    score (compiled_patterns s) (text_to_analyze email) (lower (sender email)) rules in
  let counts (s : service) := category_counts (categorization_stats s) in
  In (fst r) (available_categories (get_categorization_stats s))
  /\ category_rules (snd r) = category_rules s
  /\ compiled_patterns (snd r) = compiled_patterns s
  /\ ((forall cr, In cr (category_rules s) -> score_of (snd cr) <> None) ->
      total_categorized (categorization_stats (snd r))
      = S (total_categorized (categorization_stats s))
      /\ forall c, count_of (counts (snd r)) c
                   = count_of (counts s) c + (if String.eqb (fst r) c then 1 else 0))
  /\ ((exists cr, In cr (category_rules s) /\ score_of (snd cr) = None) ->
      fst r = default_category
      /\ categorization_stats (snd r) = categorization_stats s).
Proof.
  cbv zeta. unfold Service.categorize_email. fold (text_to_analyze email).
  pose proof (collect_scores_raises (compiled_patterns s) (text_to_analyze email)
                                    (lower (sender email)) (category_rules s)) as Hr.
  pose proof (collect_scores_keys (compiled_patterns s) (text_to_analyze email)
                                  (lower (sender email)) (category_rules s)) as Hk.
  destruct (Service.collect_scores score (compiled_patterns s) (text_to_analyze email)
                                   (lower (sender email)) (category_rules s))
    as [scores|].
  - cbn [fst snd]. specialize (Hk scores eq_refl).
    set (category := match scores with
                     | x :: rest => fst (Flat.max_by_score x rest)
                     | [] => default_category
                     end).
    split; [|split; [reflexivity|split; [reflexivity|split]]].
    + unfold get_categorization_stats. cbn [available_categories].
      apply in_or_app. subst category. destruct scores as [|x rest].
      * right. now left.
      * left. apply Hk. apply in_map. apply max_by_score_in.
    + intros _. rewrite update_stats_counts.
      cbn [total_categorized category_counts]. split; [reflexivity|].
      intros c. rewrite count_of_dict_set.
      destruct (String.eqb category c) eqn:E; [|lia].
      apply String.eqb_eq in E. subst c. lia.
    + intros Hex. apply Hr in Hex. discriminate.
  - cbn [fst snd category_rules compiled_patterns categorization_stats log_entry_of].
    split; [|split; [reflexivity|split; [reflexivity|split]]].
    + unfold get_categorization_stats. cbn [available_categories].
      apply in_or_app. right. now left.
    + intros Hall. destruct Hr as [Hr _]. destruct (Hr eq_refl) as (cr & Hin & Hcr).
      exfalso. exact (Hall cr Hin Hcr).
    + intros _. split; reflexivity.
Qed.

(** *** Any sequence of operations *)

Inductive operation : Type :=
| Categorize (email : Email)
| ResetStats (now : string)
| UpdateCategoryRules (category : string) (rules : Flat.rules_t)
| DeleteCategory (category : string).

(** The service after one call; what the call returns or raises is dropped. *)
Definition perform (s : service) (o : operation) : service :=
  match o with
  | Categorize email => snd (categorize_email s email)
  | ResetStats now => reset_stats now s
  | UpdateCategoryRules category rules => snd (update_category_rules s category rules)
  | DeleteCategory category => snd (delete_category s category)
  end.

Definition sound (s : service) : Prop :=
  NoDup (map fst (category_rules s)) /\ adds_up (categorization_stats s).

Lemma compile_patterns_rules (s : service) :
  category_rules (snd (_compile_patterns s)) = category_rules s
  /\ categorization_stats (snd (_compile_patterns s)) = categorization_stats s.
Proof.
  unfold Service._compile_patterns.
  destruct (compile_loop (category_rules s) []) as [ok p]. split; reflexivity.
Qed.

Lemma update_rules_cases (s : service) (category : string) (rules : Flat.rules_t) :
  categorization_stats (snd (update_category_rules s category rules))
  = categorization_stats s
  /\ (category_rules (snd (update_category_rules s category rules)) = category_rules s
      \/ exists r, category_rules (snd (update_category_rules s category rules))
                   = dict_set (category_rules s) category r).
Proof.
  unfold Service.update_category_rules.
  destruct (negb (forallb (has_key rules) _)); [split; [reflexivity|now left]|].
  destruct (negb (is_list (Flat.dict_get rules "keywords"))
            || negb (is_list (Flat.dict_get rules "sender_patterns")));
    [split; [reflexivity|now left]|].
  destruct (negb (is_priority (Flat.dict_get rules "priority")));
    [split; [reflexivity|now left]|].
  match goal with
  | |- context [_compile_patterns ?x] =>
      destruct (compile_patterns_rules x) as (P1 & P2);
      destruct (_compile_patterns x) as [ok s1]
  end.
  cbn [fst snd category_rules categorization_stats set_rules] in *.
  destruct ok; cbn [fst snd category_rules categorization_stats log_entry_of];
    (split; [assumption|right; eauto]).
Qed.

Lemma delete_category_cases (s : service) (category : string) :
  categorization_stats (snd (delete_category s category)) = categorization_stats s
  /\ (category_rules (snd (delete_category s category)) = category_rules s
      \/ category_rules (snd (delete_category s category))
         = dict_del (category_rules s) category).
Proof.
  unfold Service.delete_category.
  destruct (String.eqb category default_category); [split; [reflexivity|now left]|].
  destruct (has_key (category_rules s) category); [|split; [reflexivity|now left]].
  match goal with
  | |- context [_compile_patterns ?x] =>
      destruct (compile_patterns_rules x) as (P1 & P2);
      destruct (_compile_patterns x) as [ok s1]
  end.
  cbn [fst snd category_rules categorization_stats set_rules] in *.
  destruct ok; cbn [fst snd category_rules categorization_stats log_entry_of];
    (split; [assumption|now right]).
Qed.

Lemma categorize_email_cases (s : service) (email : Email) :
  category_rules (snd (categorize_email s email)) = category_rules s
  /\ (categorization_stats (snd (categorize_email s email)) = categorization_stats s
      \/ exists c, categorization_stats (snd (categorize_email s email))
                   = categorization_stats (_update_stats s c)).
Proof.
  unfold Service.categorize_email.
  destruct (Service.collect_scores score _ _ _ _); cbn [fst snd].
  - split; [reflexivity|right; eauto].
  - split; [reflexivity|now left].
Qed.

Lemma perform_sound (s : service) (o : operation) : sound s -> sound (perform s o).
Proof.
  intros (Hn & Ha). destruct o as [email|now|category rules|category]; cbn [perform].
  - destruct (categorize_email_cases s email) as (H1 & [H2|(c & H2)]);
      unfold sound; rewrite H1, H2; split; auto using update_stats_adds_up.
  - split; [exact Hn|]. cbn. repeat split; constructor.
  - destruct (update_rules_cases s category rules) as (H1 & [H2|(r & H2)]);
      unfold sound; rewrite H1, H2; split; auto using nodup_dict_set.
  - destruct (delete_category_cases s category) as (H1 & [H2|H2]);
      unfold sound; rewrite H1, H2; split; auto using nodup_dict_del.
Qed.

(** X25: the statistics add up after any sequence of calls.  Starting from
    a service whose category names are distinct and whose count per category
    adds up to [total_categorized], with no category counted twice and no
    zero count, any sequence of [categorize_email], [reset_stats],
    [update_category_rules] and [delete_category] calls, whatever they
    return or raise, leaves a service with the same properties; so in the
    report of [get_categorization_stats] the counts of
    [category_distribution] add up to [total_categorized], and
    [available_categories] lists every category of the table once, followed
    by 'general'. *)
Theorem statistics_add_up (ops : list operation) (s : service) :
  sound s ->
  let s' := fold_left perform ops s in
  let report := get_categorization_stats s' in
  sound s'
  /\ report_total_categorized report = total (category_distribution report)
  /\ NoDup (removelast (available_categories report))
  /\ last (available_categories report) EmptyString = default_category.
Proof.
  intros Hs. cbv zeta.
  assert (H : sound (fold_left perform ops s)).
  { revert s Hs. induction ops as [|o ops IH]; intros s Hs; simpl; [exact Hs|].
    apply IH. now apply perform_sound. }
  split; [exact H|]. destruct H as (Hn & Ha & _).
  unfold get_categorization_stats.
  cbn [report_total_categorized category_distribution available_categories].
  split; [exact Ha|]. split.
  - now rewrite removelast_last.
  - now rewrite last_last.
Qed.

End EngineProps.

Arguments in_sync {regex}.
Arguments compiled_from_table {regex}.
Arguments sound {regex}.
Arguments perform {regex}.

(** *** Examples on one engine *)

(** Keywords and sender patterns compile to the patterns of the rule set;
    the sender pattern "(" stands for one that [re.compile] rejects. *)
Definition compile_sender_plain (p : string) : option Flat.pattern :=
  if String.eqb p "(" then None else Some (Flat.TextPat p).

Definition score_plain (p : patterns_t Flat.pattern) (text sender : string)
           (rules : Flat.rules_t) : option PrimFloat.float :=
  Flat._calculate_category_score_with p text sender rules.

Definition fresh : service Flat.pattern :=
  match init Flat.WordPat compile_sender_plain "2024-06-01T12:00:00" with
  | Some s => s
  | None => mkService [] [] (mkCatStats 0 [] EmptyString) []
  end.

Definition orders_rules : Flat.rules_t :=
  [ ("keywords", Flat.VStrList ["shipping"; "order"]);
    ("sender_patterns", Flat.VStrList ["orders@"]);
    ("priority", Flat.VInt 2) ].

Definition broken_rules : Flat.rules_t :=
  [ ("keywords", Flat.VStrList ["shipping"]);
    ("sender_patterns", Flat.VStrList ["("]);
    ("priority", Flat.VInt 2) ].

Definition invoice : Email :=
  mkEmail (IdStr [49]%N) "me@example.com" "Your invoice" "billing@shop.example" None
          "Payment received" "general" "general" "shop" false None None.

Fixpoint distinct (l : list string) : bool :=
  match l with
  | [] => true
  | x :: rest => negb (existsb (String.eqb x) rest) && distinct rest
  end.

Lemma distinct_nodup (l : list string) : distinct l = true -> NoDup l.
Proof.
  induction l as [|x rest IH]; simpl; intros H; constructor.
  - apply andb_true_iff in H as [H _]. intros Hin.
    assert (He : existsb (String.eqb x) rest = true).
    { apply existsb_exists. exists x. split; [exact Hin|apply String.eqb_refl]. }
    rewrite He in H. discriminate H.
  - apply IH. now apply andb_true_iff in H as [_ H].
Qed.

Lemma fresh_sound : sound fresh.
Proof.
  split.
  - apply distinct_nodup. reflexivity.
  - split; [reflexivity|]. split; constructor.
Qed.

Lemma fresh_compiled : compiled_from_table Flat.WordPat compile_sender_plain fresh.
Proof. reflexivity. Qed.

Lemma update_category_rules_outcome_witness :
  fst (update_category_rules Flat.WordPat compile_sender_plain fresh "orders" orders_rules)
  = true
  /\ fst (update_category_rules Flat.WordPat compile_sender_plain fresh "orders" broken_rules)
     = false
  /\ has_key (category_rules
                (snd (update_category_rules Flat.WordPat compile_sender_plain fresh
                                            "orders" broken_rules)))
             "orders" = true.
Proof.
  pose proof (update_category_rules_outcome Flat.pattern Flat.WordPat compile_sender_plain
                fresh "orders" orders_rules (proj1 fresh_sound)) as (H1 & _).
  pose proof (update_category_rules_outcome Flat.pattern Flat.WordPat compile_sender_plain
                fresh "orders" broken_rules (proj1 fresh_sound)) as (H2 & _ & _ & H3 & _).
  split; [exact H1|]. split; [exact H2|].
  destruct (H3 eq_refl) as (_ & H4 & _).
  unfold has_key. now rewrite H4.
Defined.

Lemma delete_category_outcome_witness :
  fst (delete_category Flat.WordPat compile_sender_plain fresh "marketing") = Ok true
  /\ has_key (category_rules
                (snd (delete_category Flat.WordPat compile_sender_plain fresh "marketing")))
             "marketing" = false.
Proof.
  pose proof (delete_category_outcome Flat.pattern Flat.WordPat compile_sender_plain
                fresh "marketing" (proj1 fresh_sound)) as (_ & _ & H).
  destruct (H ltac:(discriminate) eq_refl) as (_ & H2 & _ & _ & H5).
  split; [exact (proj1 H5)|exact H2].
Defined.

Lemma update_then_delete_restores_witness :
  let s1 := snd (update_category_rules Flat.WordPat compile_sender_plain fresh
                                       "orders" orders_rules) in
  category_rules (snd (delete_category Flat.WordPat compile_sender_plain s1 "orders"))
  = category_rules fresh.
Proof.
  exact (proj1 (proj2 (update_then_delete_restores Flat.pattern Flat.WordPat
                         compile_sender_plain fresh "orders" orders_rules
                         (proj1 fresh_sound) fresh_compiled ltac:(discriminate)
                         eq_refl eq_refl))).
Defined.

Lemma statistics_add_up_witness :
  let s' := fold_left (perform Flat.WordPat compile_sender_plain score_plain)
                      [Categorize invoice; UpdateCategoryRules "orders" broken_rules;
                       Categorize invoice; DeleteCategory "support"; Categorize invoice]
                      fresh in
  report_total_categorized (get_categorization_stats s')
  = total (category_distribution (get_categorization_stats s')).
Proof.
  exact (proj1 (proj2 (statistics_add_up Flat.pattern Flat.WordPat compile_sender_plain
                         score_plain
                         [Categorize invoice; UpdateCategoryRules "orders" broken_rules;
                          Categorize invoice; DeleteCategory "support"; Categorize invoice]
                         fresh fresh_sound))).
Defined.

End ServiceProps.
